(** * lrucache: a bounded key/value cache with LRU eviction and absolute TTL

    Shallow embedding of [lrucache/lrucache.go].  The Go code keeps every
    entry on two intrusive doubly linked lists (the LRU list and the expiry
    list) that share the sentinels [c.head] and [c.tail], and indexes the
    entries with a [map[string]*lruCacheEntry].  The embedding keeps the
    pointers: entries live in a heap indexed by addresses, the two sentinels
    live inside the cache record, and every assignment of the source to a
    link field is one update of that store.  The clock is an argument: each
    call takes the readings of [time.Now] that it makes.  The mutex makes the
    public calls atomic, so a history is a sequence of calls. *)

From Stdlib Require Import ZArith String.
From stdpp Require Import gmap strings list fin_maps sorting.

#[local] Set Warnings "-clear-no-such-hyp".

Open Scope Z_scope.

(** ** Pointers, clock values and run-time panics *)

(** A [*lruCacheEntry]: nil, the address of one of the two sentinels that are
    embedded in the cache, or the address of a heap-allocated entry. *)
Inductive ptr : Type :=
  | Nil
  | Head
  | Tail
  | Node (a : nat).

#[global] Instance ptr_eq_dec : EqDecision ptr.
Proof. solve_decision. Defined.

#[global] Instance Node_inj : Inj (=) (=) Node.
Proof. intros a b H. by injection H. Qed.

(** The ways a call can abort.  [InvalidMaxSize] and [InvalidTtl] are the two
    panics of [New]; [DelistSentinel] is the panic of [delist]; [NilDeref] is
    Go's run-time panic on a nil pointer; [InvalidPointer] marks an address
    with no entry behind it, which Go's memory safety excludes and which the
    store needs only to be total. *)
Inductive panic : Type :=
  | InvalidMaxSize
  | InvalidTtl
  | DelistSentinel
  | NilDeref
  | InvalidPointer.

Inductive res (A : Type) : Type :=
  | Ok (a : A)
  | Panic (p : panic).
Arguments Ok {A} a.
Arguments Panic {A} p.

Definition res_bind {A B} (x : res A) (f : A -> res B) : res B :=
  match x with
  | Ok a => f a
  | Panic p => Panic p
  end.

Notation "'do' x <- e ; k" := (res_bind e (fun x => k))
  (at level 10, x name, e at level 100, k at level 200,
   format "'[v' 'do'  x  <-  e ; '/' k ']'").

(** [time.Time] and [time.Duration] as integers (nanoseconds, the instant 0
    being the zero [time.Time]). *)
Definition IsZero (t : Z) : bool := t =? 0.
Definition After (t u : Z) : bool := u <? t.

(** ** Entries and the cache *)

Record lruCacheEntry : Type := mkEntry {
  key : string;
  value : string;
  expiry : Z;
  lruPrev : ptr;
  lruNext : ptr;
  expPrev : ptr;
  expNext : ptr
}.

(** The zero value of the struct. *)
Definition zeroEntry : lruCacheEntry :=
  mkEntry "" "" 0 Nil Nil Nil Nil.

Record lruCache : Type := mkCache {
  maxSize : Z;
  ttl : Z;
  head : lruCacheEntry;
  tail : lruCacheEntry;
  m : gmap string ptr;
  heap : gmap nat lruCacheEntry
}.

(** The four link fields of an entry. *)
Inductive link : Type := LruPrev | LruNext | ExpPrev | ExpNext.

#[global] Instance link_eq_dec : EqDecision link.
Proof. solve_decision. Defined.

Definition getl (f : link) (e : lruCacheEntry) : ptr :=
  match f with
  | LruPrev => lruPrev e
  | LruNext => lruNext e
  | ExpPrev => expPrev e
  | ExpNext => expNext e
  end.

Definition setl (f : link) (q : ptr) (e : lruCacheEntry) : lruCacheEntry :=
  match f with
  | LruPrev => mkEntry (key e) (value e) (expiry e) q (lruNext e) (expPrev e) (expNext e)
  | LruNext => mkEntry (key e) (value e) (expiry e) (lruPrev e) q (expPrev e) (expNext e)
  | ExpPrev => mkEntry (key e) (value e) (expiry e) (lruPrev e) (lruNext e) q (expNext e)
  | ExpNext => mkEntry (key e) (value e) (expiry e) (lruPrev e) (lruNext e) (expPrev e) q
  end.

Definition set_head (e : lruCacheEntry) (c : lruCache) : lruCache :=
  mkCache (maxSize c) (ttl c) e (tail c) (m c) (heap c).
Definition set_tail (e : lruCacheEntry) (c : lruCache) : lruCache :=
  mkCache (maxSize c) (ttl c) (head c) e (m c) (heap c).
Definition set_m (i : gmap string ptr) (c : lruCache) : lruCache :=
  mkCache (maxSize c) (ttl c) (head c) (tail c) i (heap c).
Definition set_heap (h : gmap nat lruCacheEntry) (c : lruCache) : lruCache :=
  mkCache (maxSize c) (ttl c) (head c) (tail c) (m c) h.

(** ** The store *)

(** [*p] as an r-value. *)
Definition load (p : ptr) (c : lruCache) : res lruCacheEntry :=
  match p with
  | Nil => Panic NilDeref
  | Head => Ok (head c)
  | Tail => Ok (tail c)
  | Node a =>
      match heap c !! a with
      | Some e => Ok e
      | None => Panic InvalidPointer
      end
  end.

(** [*p = e]. *)
Definition store (p : ptr) (e : lruCacheEntry) (c : lruCache) : res lruCache :=
  match p with
  | Nil => Panic NilDeref
  | Head => Ok (set_head e c)
  | Tail => Ok (set_tail e c)
  | Node a =>
      match heap c !! a with
      | Some _ => Ok (set_heap (<[a := e]> (heap c)) c)
      | None => Panic InvalidPointer
      end
  end.

(** [p.f] as an r-value. *)
Definition field (p : ptr) (f : link) (c : lruCache) : res ptr :=
  do e <- load p c; Ok (getl f e).

(** [p.f = q]. *)
Definition assign (p : ptr) (f : link) (q : ptr) (c : lruCache) : res lruCache :=
  do e <- load p c; store p (setl f q e) c.

(** [p.expiry = t]. *)
Definition set_expiry (t : Z) (e : lruCacheEntry) : lruCacheEntry :=
  mkEntry (key e) (value e) t (lruPrev e) (lruNext e) (expPrev e) (expNext e).

Definition assign_expiry (p : ptr) (t : Z) (c : lruCache) : res lruCache :=
  do e <- load p c; store p (set_expiry t e) c.

(** [&lruCacheEntry{...}]: a fresh address, holding [e]. *)
Definition alloc (e : lruCacheEntry) (c : lruCache) : ptr * lruCache :=
  let a := fresh (dom (heap c)) in
  (Node a, set_heap (<[a := e]> (heap c)) c).

(** ** The methods *)

(** [IsExpired] of an entry, at clock reading [now]. *)
Definition IsExpired (now : Z) (e : lruCacheEntry) : bool :=
  if IsZero (expiry e) then false else After now (expiry e).

(** [New]; the capacity hint of [make] has no observable effect. *)
Definition New (maxSize ttl : Z) : res lruCache :=
  if maxSize <? 0 then Panic InvalidMaxSize
  else if ttl <? 0 then Panic InvalidTtl
  else
    let c := mkCache maxSize ttl zeroEntry zeroEntry ∅ ∅ in
    let c := set_head (setl LruNext Tail (head c)) c in
    let c := set_head (setl ExpNext Tail (head c)) c in
    let c := set_tail (setl LruPrev Head (tail c)) c in
    let c := set_tail (setl ExpPrev Head (tail c)) c in
    Ok c.

(** [delist]. *)
Definition delist (e : ptr) (c : lruCache) : res lruCache :=
  if bool_decide (e = Nil) || bool_decide (e = Head) || bool_decide (e = Tail)
  then Panic DelistSentinel
  else
    (* e.lruPrev.lruNext = e.lruNext *)
    do p <- field e LruPrev c; do q <- field e LruNext c;
    do c <- assign p LruNext q c;
    (* e.lruNext.lruPrev = e.lruPrev *)
    do q <- field e LruNext c; do p <- field e LruPrev c;
    do c <- assign q LruPrev p c;
    (* e.expPrev.expNext = e.expNext *)
    do p <- field e ExpPrev c; do q <- field e ExpNext c;
    do c <- assign p ExpNext q c;
    (* e.expNext.expPrev = e.expPrev *)
    do q <- field e ExpNext c; do p <- field e ExpPrev c;
    assign q ExpPrev p c.

(** [delete]. *)
Definition delete (e : ptr) (c : lruCache) : res lruCache :=
  do c <- delist e c;
  do ent <- load e c;
  Ok (set_m (base.delete (key ent) (m c)) c).

(** [Len]. *)
Definition Len (c : lruCache) : Z := Z.of_nat (size (m c)).

(** [trim], at clock reading [now]. *)
Definition trim (now : Z) (c : lruCache) : res lruCache :=
  if (maxSize c <=? 0) || (Len c <=? maxSize c) then Ok c
  else
    do old <- load (expPrev (tail c)) c;
    if IsExpired now old then delete (expPrev (tail c)) c
    else delete (lruPrev (tail c)) c.

(** [Put].  [now] is the clock reading made for the expiry of the new entry
    and [now'] the one that [trim] makes afterwards. *)
Definition Put (now now' : Z) (k v : string) (c : lruCache) : res lruCache :=
  do c <- match m c !! k with
          | Some e => delete e c
          | None => Ok c
          end;
  let '(e, c) :=
    alloc (mkEntry k v 0 Head (lruNext (head c)) Head (expNext (head c))) c in
  (* if c.ttl > 0 { e.expiry = time.Now().Add(c.ttl) } *)
  do c <- (if 0 <? ttl c then assign_expiry e (now + ttl c) c else Ok c);
  (* c.m[key] = e *)
  let c := set_m (<[k := e]> (m c)) c in
  (* c.head.lruNext.lruPrev = e *)
  do c <- assign (lruNext (head c)) LruPrev e c;
  (* c.head.lruNext = e *)
  let c := set_head (setl LruNext e (head c)) c in
  (* c.head.expNext.expPrev = e *)
  do c <- assign (expNext (head c)) ExpPrev e c;
  (* c.head.expNext = e *)
  let c := set_head (setl ExpNext e (head c)) c in
  trim now' c.

(** [Get], at clock reading [now]; the result is [(value, ok)]. *)
Definition Get (now : Z) (k : string) (c : lruCache)
  : res (string * bool * lruCache) :=
  match m c !! k with
  | None => Ok (""%string, false, c)
  | Some e =>
      do ent <- load e c;
      if IsExpired now ent then
        do c <- delete e c; Ok (""%string, false, c)
      else
        let value := value ent in
        (* e.lruPrev.lruNext = e.lruNext *)
        do p <- field e LruPrev c; do q <- field e LruNext c;
        do c <- assign p LruNext q c;
        (* e.lruNext.lruPrev = e.lruPrev *)
        do q <- field e LruNext c; do p <- field e LruPrev c;
        do c <- assign q LruPrev p c;
        (* e.lruPrev = &c.head *)
        do c <- assign e LruPrev Head c;
        (* e.lruNext = c.head.lruNext *)
        do c <- assign e LruNext (lruNext (head c)) c;
        (* c.head.lruNext.lruPrev = e *)
        do c <- assign (lruNext (head c)) LruPrev e c;
        (* c.head.lruNext = e *)
        let c := set_head (setl LruNext e (head c)) c in
        Ok (value, true, c)
  end.

(** [Delete]. *)
Definition Delete (k : string) (c : lruCache) : res (bool * lruCache) :=
  match m c !! k with
  | None => Ok (false, c)
  | Some e => do c <- delete e c; Ok (true, c)
  end.

(** ** Sequences of public calls *)

Inductive op : Type :=
  | OpPut (now now' : Z) (k v : string)
  | OpGet (now : Z) (k : string)
  | OpDelete (k : string)
  | OpLen.

Inductive out : Type :=
  | OutPut
  | OutGet (v : string) (ok : bool)
  | OutDelete (ok : bool)
  | OutLen (n : Z).

(** One call under the mutex: the call runs to completion on the state. *)
Definition step (o : op) (c : lruCache) : res (out * lruCache) :=
  match o with
  | OpPut now now' k v => do c <- Put now now' k v c; Ok (OutPut, c)
  | OpGet now k => do r <- Get now k c; Ok (OutGet r.1.1 r.1.2, r.2)
  | OpDelete k => do r <- Delete k c; Ok (OutDelete r.1, r.2)
  | OpLen => Ok (OutLen (Len c), c)
  end.

Fixpoint run (os : list op) (c : lruCache) : res (list out * lruCache) :=
  match os with
  | [] => Ok ([], c)
  | o :: os =>
      do r <- step o c;
      do rs <- run os r.2;
      Ok (r.1 :: rs.1, rs.2)
  end.

(** ** Walking the lists *)

(** Follow the [nx] links from [p] up to the tail sentinel, collecting the
    pointers met on the way; [None] when the walk leaves the structure or
    does not arrive within [fuel] steps. *)
Fixpoint walk (nx : link) (c : lruCache) (fuel : nat) (p : ptr)
  : option (list ptr) :=
  match fuel with
  | O => None
  | S n =>
      match p with
      | Tail => Some []
      | _ =>
          match field p nx c with
          | Ok q => cons p <$> walk nx c n q
          | Panic _ => None
          end
      end
  end.

(** The entries of the recency list, most recently used first. *)
Definition lruList (c : lruCache) : option (list ptr) :=
  walk LruNext c (S (size (heap c))) (lruNext (head c)).

(** The entries of the age list, most recently inserted first. *)
Definition expList (c : lruCache) : option (list ptr) :=
  walk ExpNext c (S (size (heap c))) (expNext (head c)).

(** The key stored behind a pointer; the empty string when there is none. *)
Definition keyAt (c : lruCache) (p : ptr) : string :=
  match load p c with
  | Ok e => key e
  | Panic _ => ""%string
  end.

(** The keys of the recency list, most recently used first. *)
Definition lruKeys (c : lruCache) : option (list string) :=
  match lruList c with
  | Some l => Some (keyAt c <$> l)
  | None => None
  end.

(** The states that public calls can produce from a new cache. *)
Definition reachable (c : lruCache) : Prop :=
  ∃ ms t c0 os rs, New ms t = Ok c0 ∧ run os c0 = Ok (rs, c).

(** The cache that [os] leaves when run on [New ms t]. *)
Definition after (ms t : Z) (os : list op) : res lruCache :=
  do c0 <- New ms t; do r <- run os c0; Ok r.2.

(** Sequences of [Get]s and of [Put]s, from their arguments. *)
Definition gets (gs : list (Z * string)) : list op :=
  (λ g, OpGet g.1 g.2) <$> gs.
Definition puts (ps : list (Z * Z * string * string)) : list op :=
  (λ p, OpPut p.1.1.1 p.1.1.2 p.1.2 p.2) <$> ps.
Definition put_keys (ps : list (Z * Z * string * string)) : list string :=
  (λ p, p.1.2) <$> ps.

(** The clock reading that the [Put] of each entry of the index took for the
    expiry of the entry: the history [os] is followed call by call from the
    state [c]; a [Put] records its reading under its key, in the place of a
    previous one, and what a call takes out of the index is forgotten. *)
Fixpoint put_times (os : list op) (c : lruCache) (ts : gmap string Z)
  : gmap string Z :=
  match os with
  | [] => ts
  | o :: os =>
      match step o c with
      | Ok r =>
          let ts' := match o with
                     | OpPut now _ k _ => <[k := now]> ts
                     | _ => ts
                     end in
          put_times os r.2 (filter (λ kt, is_Some (m r.2 !! kt.1)) ts')
      | Panic _ => ts
      end
  end.

(** The same as a plain state, for the calls that are known to succeed. *)
Definition demo (ms t : Z) (os : list op) : lruCache :=
  match after ms t os with
  | Ok c => c
  | Panic _ => mkCache 0 0 zeroEntry zeroEntry ∅ ∅
  end.

(** Follow the [pv] links from [p] back to the head sentinel. *)
Fixpoint walk_back (pv : link) (c : lruCache) (fuel : nat) (p : ptr)
  : option (list ptr) :=
  match fuel with
  | O => None
  | S n =>
      match p with
      | Head => Some []
      | _ =>
          match field p pv c with
          | Ok q => cons p <$> walk_back pv c n q
          | Panic _ => None
          end
      end
  end.

(** The entries of the recency list, least recently used first, as [trim]
    reaches them from the tail sentinel. *)
Definition lruListBack (c : lruCache) : option (list ptr) :=
  walk_back LruPrev c (S (size (heap c))) (lruPrev (tail c)).

(** The entries of the age list, oldest first. *)
Definition expListBack (c : lruCache) : option (list ptr) :=
  walk_back ExpPrev c (S (size (heap c))) (expPrev (tail c)).

(** The expiry stored behind a pointer; the zero time when there is none. *)
Definition expiryAt (c : lruCache) (p : ptr) : Z :=
  match load p c with
  | Ok e => expiry e
  | Panic _ => 0
  end.

(** Whether the entry behind [p] is expired at the clock reading [now]. *)
Definition expiredAt (now : Z) (c : lruCache) (p : ptr) : bool :=
  match load p c with
  | Ok e => IsExpired now e
  | Panic _ => false
  end.

(** A call that is not a [Put] of the key [k]. *)
Definition not_Put (k : string) (o : op) : Prop :=
  match o with
  | OpPut _ _ k' _ => k' ≠ k
  | _ => True
  end.

(** The clock of the [Put]s never goes back: each [Put] reads, for the
    expiry of its entry, a clock that is not before [T] and not before the
    reading of the [Put] before it. *)
Fixpoint puts_ordered (T : Z) (os : list op) : Prop :=
  match os with
  | [] => True
  | OpPut now _ _ _ :: os => T <= now ∧ puts_ordered now os
  | _ :: os => puts_ordered T os
  end.

(** ** Representation invariant *)

Definition key_of (c : lruCache) (a : nat) : option string :=
  key <$> heap c !! a.
Definition value_of (c : lruCache) (a : nat) : option string :=
  value <$> heap c !! a.
Definition expiry_of (c : lruCache) (a : nat) : option Z :=
  expiry <$> heap c !! a.

(** [p] points to an entry. *)
Definition valid (p : ptr) (c : lruCache) : Prop := ∃ e, load p c = Ok e.

(** [q] follows [p] on the list threaded by [nx] forwards and [pv]
    backwards. *)
Definition linked (nx pv : link) (c : lruCache) (p q : ptr) : Prop :=
  field p nx c = Ok q ∧ field q pv c = Ok p.

Fixpoint chain (nx pv : link) (c : lruCache) (xs : list ptr) : Prop :=
  match xs with
  | p :: xs' =>
      match xs' with
      | q :: _ => linked nx pv c p q ∧ chain nx pv c xs'
      | [] => True
      end
  | [] => True
  end.

(** The two assignments that take [e] off the list threaded by [nx] and
    [pv], as [delist] and [Get] write them. *)
Definition unlink (nx pv : link) (e : ptr) (c : lruCache) : res lruCache :=
  do p <- field e pv c; do q <- field e nx c;
  do c <- assign p nx q c;
  do q <- field e nx c; do p <- field e pv c;
  assign q pv p c.

(** The two assignments that put [e] behind the head sentinel, as [Put] and
    [Get] write them. *)
Definition push_front (nx pv : link) (e : ptr) (c : lruCache) : res lruCache :=
  do c <- assign (getl nx (head c)) pv e c;
  Ok (set_head (setl nx e (head c)) c).

(** The part of [Put] between the removal of a previous entry and [trim]:
    the new entry is created, indexed and put at the front of both lists. *)
Definition insert_front (now : Z) (k v : string) (c : lruCache)
  : res lruCache :=
  let '(e, c) :=
    alloc (mkEntry k v 0 Head (lruNext (head c)) Head (expNext (head c))) c in
  do c <- (if 0 <? ttl c then assign_expiry e (now + ttl c) c else Ok c);
  let c := set_m (<[k := e]> (m c)) c in
  do c <- push_front LruNext LruPrev e c;
  push_front ExpNext ExpPrev e c.

(** [Put] up to its call of [trim]. *)
Definition Put_pre (now : Z) (k v : string) (c : lruCache) : res lruCache :=
  do c <- match m c !! k with
          | Some e => delete e c
          | None => Ok c
          end;
  insert_front now k v c.

(** The expiry that [Put] gives to a new entry. *)
Definition new_expiry (now : Z) (c : lruCache) : Z :=
  if 0 <? ttl c then now + ttl c else 0.

(** The pointers of a whole list, sentinels included. *)
Definition spine (l : list nat) : list ptr := Head :: (Node <$> l) ++ [Tail].

(** [Rep c L A]: the recency list holds the addresses [L], the age list the
    addresses [A], and the index maps each key to the entry that carries
    it. *)
Record Rep (c : lruCache) (L A : list nat) : Prop := mkRep {
  rep_nodup : NoDup L;
  rep_perm : A ≡ₚ L;
  rep_lru : chain LruNext LruPrev c (spine L);
  rep_exp : chain ExpNext ExpPrev c (spine A);
  rep_heap : ∀ a, a ∈ L → is_Some (heap c !! a);
  rep_index : ∀ k p, m c !! k = Some p ↔
                ∃ a, p = Node a ∧ a ∈ L ∧ key_of c a = Some k
}.

(** The operations leave everything but the links alone. *)
Record same_meta (c c' : lruCache) : Prop := mkSame {
  same_maxSize : maxSize c' = maxSize c;
  same_ttl : ttl c' = ttl c;
  same_m : m c' = m c;
  same_key : ∀ a, key_of c' a = key_of c a;
  same_value : ∀ a, value_of c' a = value_of c a;
  same_expiry : ∀ a, expiry_of c' a = expiry_of c a
}.

(** The same, the index aside. *)
Record same_data (c c' : lruCache) : Prop := mkSameData {
  data_maxSize : maxSize c' = maxSize c;
  data_ttl : ttl c' = ttl c;
  data_key : ∀ a, key_of c' a = key_of c a;
  data_value : ∀ a, value_of c' a = value_of c a;
  data_expiry : ∀ a, expiry_of c' a = expiry_of c a
}.

(** What [Put now _ k v] does to the heap: the entry at the new address [a]
    is the only one whose key, value or expiry differs. *)
Record put_data (now : Z) (k v : string) (a : nat) (c c' : lruCache)
  : Prop := mkPutData {
  put_maxSize : maxSize c' = maxSize c;
  put_ttl : ttl c' = ttl c;
  put_fresh : heap c !! a = None;
  put_key : key_of c' a = Some k;
  put_value : value_of c' a = Some v;
  put_expiry : expiry_of c' a = Some (new_expiry now c);
  put_other : ∀ b, b ≠ a →
                key_of c' b = key_of c b ∧
                value_of c' b = value_of c b ∧
                expiry_of c' b = expiry_of c b
}.

(** A list of addresses with [a] taken out. *)
Definition without (a : nat) (l : list nat) : list nat :=
  filter (λ x, x ≠ a) l.

(** The keys of the entries at the addresses [L]. *)
Definition lkeys (c : lruCache) (L : list nat) : list string :=
  keyAt c <$> (Node <$> L).

(** Every listed entry has an expiry, [D] at the latest. *)
Definition expiring (D : Z) (c : lruCache) (L : list nat) : Prop :=
  ∀ a, a ∈ L → ∃ x, expiry_of c a = Some x ∧ x ≠ 0 ∧ x <= D.

(** No listed entry expires before [D]. *)
Definition lasting (D : Z) (c : lruCache) (L : list nat) : Prop :=
  ∀ a, a ∈ L → ∃ x, expiry_of c a = Some x ∧ (x = 0 ∨ D <= x).

(** [ts] gives, for each key of the index, the clock reading from which the
    expiry of its entry was made. *)
Definition timed (ts : gmap string Z) (c : lruCache) : Prop :=
  ∀ k, ts !! k = (λ p, expiryAt c p - ttl c) <$> m c !! k.

(** The expiries of the entries at the addresses [A]. *)
Definition lexp (c : lruCache) (A : list nat) : list Z :=
  expiryAt c <$> (Node <$> A).

(** The age list [A] is in the order of the expiries, latest first; no
    expiry is later than the one a [Put] at clock [T] would give; and every
    expiry is past the zero time on a cache with a ttl, and is the zero time
    on a cache without. *)
Definition aged (T : Z) (c : lruCache) (A : list nat) : Prop :=
  StronglySorted (λ x y, y <= x) (lexp c A) ∧
  ∀ a, a ∈ A → ∃ x, expiry_of c a = Some x ∧ x <= new_expiry T c ∧
                    if 0 <? ttl c then 0 < x else x = 0.

(** The index holds [k], if at all, with the value [v] and the expiry [x]. *)
Definition stored (k v : string) (x : Z) (c : lruCache) : Prop :=
  ∀ p, m c !! k = Some p →
       ∃ a, p = Node a ∧ value_of c a = Some v ∧ expiry_of c a = Some x.

(** What holds of every state that public calls can produce. *)
Record Good (c : lruCache) (L A : list nat) : Prop := mkGood {
  good_rep : Rep c L A;
  good_maxSize : 0 <= maxSize c;
  good_ttl : 0 <= ttl c;
  good_bound : 0 < maxSize c → Len c <= maxSize c;
  good_noexp : ttl c = 0 → ∀ a, a ∈ L → expiry_of c a = Some 0
}.

(** * Proofs *)

(** ** The error monad *)

Lemma bind_Ok {A B} (x : res A) (f : A → res B) (b : B) :
  res_bind x f = Ok b ↔ ∃ a, x = Ok a ∧ f a = Ok b.
Proof.
  destruct x as [a|e]; simpl; split.
  - intros H. by exists a.
  - by intros (a' & [= ->] & H).
  - discriminate.
  - by intros (a' & ? & _).
Qed.

(** ** The store *)

Lemma getl_setl g f q e :
  getl g (setl f q e) = if decide (g = f) then q else getl g e.
Proof. by destruct g, f. Qed.

Lemma key_setl f q e : key (setl f q e) = key e.
Proof. by destruct f. Qed.
Lemma value_setl f q e : value (setl f q e) = value e.
Proof. by destruct f. Qed.
Lemma expiry_setl f q e : expiry (setl f q e) = expiry e.
Proof. by destruct f. Qed.

Lemma valid_Head c : valid Head c.
Proof. by eexists. Qed.
Lemma valid_Tail c : valid Tail c.
Proof. by eexists. Qed.
Lemma valid_Nil c : ¬ valid Nil c.
Proof. by intros [e He]. Qed.

Lemma valid_Node c a : valid (Node a) c ↔ is_Some (heap c !! a).
Proof.
  unfold valid; simpl. destruct (heap c !! a) as [e|]; split.
  - by eexists.
  - by eexists.
  - by intros [e He].
  - by intros [e He].
Qed.

Lemma field_valid p f c q : field p f c = Ok q → valid p c.
Proof. unfold field. rewrite bind_Ok. intros (e & He & _). by exists e. Qed.

Lemma field_Head f c : field Head f c = Ok (getl f (head c)).
Proof. done. Qed.
Lemma field_Tail f c : field Tail f c = Ok (getl f (tail c)).
Proof. done. Qed.

Lemma load_store p e c c' r :
  store p e c = Ok c' →
  load r c' = if decide (r = p) then Ok e else load r c.
Proof.
  destruct p as [| | |a]; simpl; try discriminate.
  - intros [= <-]. by destruct r.
  - intros [= <-]. by destruct r.
  - destruct (heap c !! a) as [e0|] eqn:Ha; [|discriminate].
    intros [= <-]. destruct r as [| | |b]; try done. simpl.
    case_decide as Hb.
    + injection Hb as ->. by rewrite lookup_insert_eq.
    + rewrite lookup_insert_ne; [done|congruence].
Qed.

Lemma store_Ok p e c : valid p c → ∃ c', store p e c = Ok c'.
Proof.
  intros [e0 He0]. destruct p as [| | |a]; simpl in *; try discriminate; eauto.
  destruct (heap c !! a); [eauto|discriminate].
Qed.

Lemma store_meta p e e0 c c' :
  load p c = Ok e0 → store p e c = Ok c' →
  key e = key e0 → value e = value e0 → expiry e = expiry e0 →
  same_meta c c'.
Proof.
  intros Hl Hs Hk Hv Hx.
  destruct p as [| | |a]; simpl in *; try discriminate.
  - injection Hs as <-. by split.
  - injection Hs as <-. by split.
  - destruct (heap c !! a) as [e1|] eqn:Ha; [|discriminate].
    injection Hl as ->. injection Hs as <-.
    split; try done; intros b; unfold key_of, value_of, expiry_of; simpl;
      (destruct (decide (b = a)) as [->|Hb];
       [rewrite lookup_insert_eq, Ha; simpl; congruence
       |by rewrite lookup_insert_ne]).
Qed.

Lemma same_meta_refl c : same_meta c c.
Proof. by split. Qed.

Lemma same_meta_trans c1 c2 c3 :
  same_meta c1 c2 → same_meta c2 c3 → same_meta c1 c3.
Proof.
  intros [] []. split; congruence.
Qed.

Lemma same_meta_heap c c' a :
  same_meta c c' → is_Some (heap c' !! a) ↔ is_Some (heap c !! a).
Proof.
  intros H. pose proof (same_key _ _ H a) as Hk. unfold key_of in Hk.
  destruct (heap c' !! a), (heap c !! a); simpl in Hk; try discriminate;
    split; intros [? ?]; try discriminate; by eexists.
Qed.

Lemma same_meta_valid c c' p : same_meta c c' → valid p c' ↔ valid p c.
Proof.
  intros H. destruct p as [| | |a].
  - split; intros []%valid_Nil.
  - split; intros _; apply valid_Head.
  - split; intros _; apply valid_Tail.
  - rewrite !valid_Node. by apply same_meta_heap.
Qed.

Lemma assign_Ok p f q c : valid p c → ∃ c', assign p f q c = Ok c'.
Proof.
  intros [e He]. unfold assign. rewrite He. simpl.
  apply store_Ok. by exists e.
Qed.

Lemma field_assign p f q c c' r g :
  assign p f q c = Ok c' →
  field r g c' = if decide (r = p ∧ g = f) then Ok q else field r g c.
Proof.
  unfold assign. rewrite bind_Ok. intros (e & He & Hs).
  unfold field. rewrite (load_store _ _ _ _ r Hs).
  destruct (decide (r = p)) as [->|Hr].
  - simpl. rewrite He. simpl. rewrite getl_setl.
    destruct (decide (g = f)) as [->|Hg].
    + by rewrite decide_True.
    + rewrite decide_False; [done|tauto].
  - rewrite decide_False; [done|tauto].
Qed.

Lemma assign_meta p f q c c' : assign p f q c = Ok c' → same_meta c c'.
Proof.
  unfold assign. rewrite bind_Ok. intros (e & He & Hs).
  eapply store_meta; eauto using key_setl, value_setl, expiry_setl.
Qed.

(** ** Doubly linked lists *)

Section dll.
Variables nx pv : link.

Lemma chain_app c l1 x l2 :
  chain nx pv c (l1 ++ x :: l2) ↔
  chain nx pv c (l1 ++ [x]) ∧ chain nx pv c (x :: l2).
Proof.
  induction l1 as [|a l1 IH].
  - simpl. tauto.
  - destruct l1 as [|b l1].
    + simpl. tauto.
    + change (linked nx pv c a b ∧ chain nx pv c ((b :: l1) ++ x :: l2) ↔
              (linked nx pv c a b ∧ chain nx pv c ((b :: l1) ++ [x])) ∧
              chain nx pv c (x :: l2)).
      tauto.
Qed.

Lemma chain_frame_r c c' z xs :
  chain nx pv c (z :: xs) →
  (∀ r, r ∈ z :: xs → field r nx c' = field r nx c) →
  (∀ r, r ∈ xs → field r pv c' = field r pv c) →
  chain nx pv c' (z :: xs).
Proof.
  revert z. induction xs as [|x xs IH]; intros z Hc Hn Hp; [done|].
  destruct Hc as [[H1 H2] Hc]. split.
  - split.
    + rewrite Hn; [done|set_solver].
    + rewrite Hp; [done|set_solver].
  - apply IH; [done| |]; intros r Hr; [apply Hn|apply Hp]; set_solver.
Qed.

Lemma chain_frame_l c c' z xs :
  chain nx pv c (xs ++ [z]) →
  (∀ r, r ∈ xs → field r nx c' = field r nx c) →
  (∀ r, r ∈ xs ++ [z] → field r pv c' = field r pv c) →
  chain nx pv c' (xs ++ [z]).
Proof.
  induction xs as [|x xs IH]; intros Hc Hn Hp; [done|].
  destruct xs as [|y xs].
  - destruct Hc as [[H1 H2] _]. split; [|done]. split.
    + rewrite Hn; [done|set_solver].
    + rewrite Hp; [done|set_solver].
  - destruct Hc as [[H1 H2] Hc]. split.
    + split.
      * rewrite Hn; [done|set_solver].
      * rewrite Hp; [done|set_solver].
    + apply IH; [done| |]; intros r Hr; [apply Hn|apply Hp]; set_solver.
Qed.

Lemma chain_frame c c' xs :
  chain nx pv c xs →
  (∀ r, r ∈ xs → field r nx c' = field r nx c) →
  (∀ r, r ∈ xs → field r pv c' = field r pv c) →
  chain nx pv c' xs.
Proof.
  destruct xs as [|z xs]; [done|]. intros Hc Hn Hp.
  apply (chain_frame_r c); [done|done|]. intros r Hr. apply Hp. set_solver.
Qed.

Hypothesis nx_pv : nx ≠ pv.

(** Taking [x] off the list. *)
Lemma unlink_spec c xs x ys :
  chain nx pv c (xs ++ x :: ys) → xs ≠ [] → ys ≠ [] →
  NoDup (xs ++ x :: ys) →
  ∃ c', unlink nx pv x c = Ok c' ∧
        chain nx pv c' (xs ++ ys) ∧
        (∀ r f, f ≠ nx → f ≠ pv → field r f c' = field r f c) ∧
        (∀ r f, r ∉ xs → r ∉ ys → field r f c' = field r f c) ∧
        same_meta c c'.
Proof.
  intros Hc Hxs Hys Hnd.
  destruct xs as [|p l1 _] using rev_ind; [done|]. clear Hxs.
  destruct ys as [|q l2]; [done|]. clear Hys.
  rewrite <- app_assoc in Hc, Hnd. simpl in Hc, Hnd.
  apply chain_app in Hc as [Hc1 [[Hpx Hxp] [[Hxq Hqx] Hc2]]].
  apply NoDup_app in Hnd as (Hnd1 & Hd1 & Hnd2).
  apply NoDup_cons in Hnd2 as [Hp Hnd2].
  apply NoDup_cons in Hnd2 as [Hx Hnd2].
  apply NoDup_cons in Hnd2 as [Hq Hnd2].
  assert (p ≠ x) as Hpx' by set_solver.
  assert (p ≠ q) as Hpq' by set_solver.
  assert (x ≠ q) as Hxq' by set_solver.
  destruct (assign_Ok p nx q c) as [c1 Hc1']; [by eapply field_valid|].
  pose proof (assign_meta _ _ _ _ _ Hc1') as Hm1.
  destruct (assign_Ok q pv p c1) as [c2 Hc2'].
  { apply (same_meta_valid c c1); [done|]. by eapply field_valid. }
  pose proof (assign_meta _ _ _ _ _ Hc2') as Hm2.
  assert (∀ r g, field r g c2 =
            if decide (r = q ∧ g = pv) then Ok p
            else if decide (r = p ∧ g = nx) then Ok q
            else field r g c) as Hf.
  { intros r g. rewrite (field_assign _ _ _ _ _ r g Hc2').
    by rewrite (field_assign _ _ _ _ _ r g Hc1'). }
  exists c2. split; [|split; [|split; [|split]]].
  - unfold unlink. rewrite Hxp, Hxq. simpl. rewrite Hc1'. simpl.
    rewrite (field_assign _ _ _ _ _ x nx Hc1'), (field_assign _ _ _ _ _ x pv Hc1').
    rewrite !decide_False by (intros [? ?]; congruence).
    rewrite Hxp, Hxq. simpl. done.
  - rewrite <- app_assoc. simpl. apply chain_app. split; [|split].
    + apply (chain_frame_l c); [done| |]; intros r Hr; rewrite Hf.
      * rewrite !decide_False; [done| |]; intros [-> ?]; set_solver.
      * rewrite !decide_False; [done| |]; intros [-> ?]; [congruence|].
        apply elem_of_app in Hr as [Hr|Hr]; [set_solver|].
        apply list_elem_of_singleton in Hr. congruence.
    + split; rewrite Hf.
      * rewrite decide_False by (intros [? ?]; congruence).
        by rewrite decide_True.
      * by rewrite decide_True.
    + apply (chain_frame_r c); [done| |]; intros r Hr; rewrite Hf.
      * rewrite !decide_False; [done| |]; intros [-> ?]; [set_solver|congruence].
      * rewrite !decide_False; [done| |]; intros [-> ?]; [congruence|set_solver].
  - intros r f Hf1 Hf2. rewrite Hf.
    rewrite !decide_False; [done| |]; intros [? ?]; congruence.
  - intros r f Hr1 Hr2. rewrite Hf.
    rewrite !decide_False; [done| |]; intros [-> ?]; set_solver.
  - by eapply same_meta_trans.
Qed.

(** Putting [e] behind the head sentinel. *)
Lemma push_front_spec c e ys :
  chain nx pv c (Head :: ys) → ys ≠ [] → NoDup (Head :: ys) →
  e ∉ Head :: ys →
  field e pv c = Ok Head → field e nx c = Ok (getl nx (head c)) →
  ∃ c', push_front nx pv e c = Ok c' ∧
        chain nx pv c' (Head :: e :: ys) ∧
        (∀ r f, f ≠ nx → f ≠ pv → field r f c' = field r f c) ∧
        same_meta c c'.
Proof.
  intros Hc Hys Hnd He Hep Hen.
  destruct ys as [|q l2]; [done|]. clear Hys.
  apply NoDup_cons in Hnd as [HH Hnd].
  apply NoDup_cons in Hnd as [Hql Hnd].
  destruct Hc as [[Hhq Hqh] Hc].
  rewrite field_Head in Hhq. injection Hhq as Hq.
  destruct (assign_Ok q pv e c) as [c1 Hc1]; [by eapply field_valid|].
  pose proof (assign_meta _ _ _ _ _ Hc1) as Hm1.
  set (c2 := set_head (setl nx e (head c1)) c1).
  assert (assign Head nx e c1 = Ok c2) as Hc2 by done.
  pose proof (assign_meta _ _ _ _ _ Hc2) as Hm2.
  assert (∀ r g, field r g c2 =
            if decide (r = Head ∧ g = nx) then Ok e
            else if decide (r = q ∧ g = pv) then Ok e
            else field r g c) as Hf.
  { intros r g. rewrite (field_assign _ _ _ _ _ r g Hc2).
    by rewrite (field_assign _ _ _ _ _ r g Hc1). }
  assert (e ≠ Head ∧ e ≠ q) as [HeH Heq] by set_solver.
  exists c2. split; [|split; [|split]].
  - unfold push_front. rewrite Hq, Hc1. done.
  - split; [|split].
    + split; rewrite Hf.
      * by rewrite decide_True.
      * rewrite !decide_False; [done| |]; intros [? ?]; congruence.
    + split; rewrite Hf.
      * rewrite !decide_False; [congruence| |]; intros [? ?]; congruence.
      * rewrite decide_False by (intros [? ?]; congruence).
        by rewrite decide_True.
    + apply (chain_frame_r c); [done| |]; intros r Hr; rewrite Hf.
      * rewrite !decide_False; [done| |]; intros [-> ?]; [congruence|done].
      * rewrite !decide_False; [done| |]; intros [-> ?]; [congruence|].
        set_solver.
  - intros r f Hf1 Hf2. rewrite Hf.
    rewrite !decide_False; [done| |]; intros [? ?]; congruence.
  - by eapply same_meta_trans.
Qed.
End dll.

(** ** Lists of addresses *)

Lemma without_notin a l : a ∉ l → without a l = l.
Proof.
  induction l as [|x l IH]; intros H; [done|].
  apply not_elem_of_cons in H as [H1 H2]. unfold without.
  rewrite filter_cons_True by congruence. f_equal. by apply IH.
Qed.

Lemma without_middle a l1 l2 :
  NoDup (l1 ++ a :: l2) → without a (l1 ++ a :: l2) = l1 ++ l2.
Proof.
  intros Hnd. apply NoDup_app in Hnd as (_ & H1 & H2).
  apply NoDup_cons in H2 as [H2 _].
  unfold without. rewrite filter_app, filter_cons_False by tauto.
  f_equal; apply without_notin; [|done].
  intros Ha. apply (H1 a); [done|set_solver].
Qed.

Lemma elem_of_without a b l : b ∈ without a l ↔ b ∈ l ∧ b ≠ a.
Proof. unfold without. rewrite list_elem_of_filter. tauto. Qed.

Lemma NoDup_without a l : NoDup l → NoDup (without a l).
Proof. apply NoDup_filter. Qed.

Lemma without_Permutation a l l' : l ≡ₚ l' → without a l ≡ₚ without a l'.
Proof. intros H. unfold without. by rewrite H. Qed.

Lemma length_without a l :
  NoDup l → a ∈ l → S (length (without a l)) = length l.
Proof.
  intros Hnd Ha. apply list_elem_of_split in Ha as (l1 & l2 & ->).
  rewrite without_middle by done. rewrite !length_app. simpl. lia.
Qed.

Lemma spine_middle l1 a l2 :
  spine (l1 ++ a :: l2) =
  (Head :: (Node <$> l1)) ++ Node a :: ((Node <$> l2) ++ [Tail]).
Proof. unfold spine. rewrite fmap_app. simpl. by rewrite <- app_assoc. Qed.

Lemma spine_app l1 l2 :
  spine (l1 ++ l2) = (Head :: (Node <$> l1)) ++ ((Node <$> l2) ++ [Tail]).
Proof. unfold spine. rewrite fmap_app. simpl. by rewrite <- app_assoc. Qed.

Lemma elem_of_spine p l :
  p ∈ spine l ↔ p = Head ∨ p = Tail ∨ ∃ a, p = Node a ∧ a ∈ l.
Proof.
  unfold spine. rewrite elem_of_cons, elem_of_app, list_elem_of_fmap.
  rewrite list_elem_of_singleton. naive_solver.
Qed.

Lemma NoDup_spine l : NoDup l → NoDup (spine l).
Proof.
  intros H. unfold spine. apply NoDup_cons. split.
  - rewrite elem_of_app, list_elem_of_fmap, list_elem_of_singleton. naive_solver.
  - apply NoDup_app. split; [|split].
    + by apply (NoDup_fmap_2 Node).
    + intros p Hp Hq. apply list_elem_of_fmap in Hp as (a & -> & _).
      by apply list_elem_of_singleton in Hq.
    + apply NoDup_singleton.
Qed.

(** ** Frames *)

Lemma same_meta_data c c' : same_meta c c' → same_data c c'.
Proof. intros []. by split. Qed.

Lemma same_data_refl c : same_data c c.
Proof. by split. Qed.

Lemma same_data_trans c1 c2 c3 :
  same_data c1 c2 → same_data c2 c3 → same_data c1 c3.
Proof. intros [] []. split; congruence. Qed.

Lemma same_data_set_m c i : same_data c (set_m i c).
Proof. by split. Qed.

Lemma same_data_heap c c' a :
  same_data c c' → is_Some (heap c' !! a) ↔ is_Some (heap c !! a).
Proof.
  intros H. pose proof (data_key _ _ H a) as Hk. unfold key_of in Hk.
  destruct (heap c' !! a), (heap c !! a); simpl in Hk; try discriminate;
    split; intros [? ?]; try discriminate; by eexists.
Qed.

Lemma field_set_m p f i c : field p f (set_m i c) = field p f c.
Proof. by destruct p. Qed.

Lemma chain_set_m nx pv i c xs :
  chain nx pv (set_m i c) xs ↔ chain nx pv c xs.
Proof.
  induction xs as [|x xs IH]; [done|]. destruct xs as [|y xs]; [done|].
  change (linked nx pv (set_m i c) x y ∧ chain nx pv (set_m i c) (y :: xs) ↔
          linked nx pv c x y ∧ chain nx pv c (y :: xs)).
  rewrite IH. unfold linked. by rewrite !field_set_m.
Qed.

(** ** The representation invariant under [delist] and [delete] *)

Ltac step_binds :=
  repeat match goal with
         | |- context [res_bind ?x _] => destruct x; simpl; try done
         end.

Lemma delist_unlink e c :
  delist e c =
  if bool_decide (e = Nil) || bool_decide (e = Head) || bool_decide (e = Tail)
  then Panic DelistSentinel
  else do c <- unlink LruNext LruPrev e c; unlink ExpNext ExpPrev e c.
Proof.
  unfold delist, unlink. destruct (_ || _); [done|]. step_binds.
Qed.

Lemma Rep_valid c L A a : Rep c L A → a ∈ L → valid (Node a) c.
Proof. intros H Ha. apply valid_Node. by apply (rep_heap _ _ _ H). Qed.

Lemma Rep_key c L A a : Rep c L A → a ∈ L → ∃ k, key_of c a = Some k.
Proof.
  intros H Ha. destruct (rep_heap _ _ _ H a Ha) as [e He].
  exists (key e). unfold key_of. by rewrite He.
Qed.

Lemma Rep_lookup c L A a k :
  Rep c L A → a ∈ L → key_of c a = Some k → m c !! k = Some (Node a).
Proof. intros H Ha Hk. apply (rep_index _ _ _ H). by exists a. Qed.

Lemma Rep_key_inj c L A a b k :
  Rep c L A → a ∈ L → b ∈ L →
  key_of c a = Some k → key_of c b = Some k → a = b.
Proof.
  intros H Ha Hb Hka Hkb.
  pose proof (Rep_lookup _ _ _ _ _ H Ha Hka) as H1.
  pose proof (Rep_lookup _ _ _ _ _ H Hb Hkb) as H2.
  congruence.
Qed.

Lemma delist_Rep c L A a :
  Rep c L A → a ∈ L →
  ∃ c', delist (Node a) c = Ok c' ∧
        chain LruNext LruPrev c' (spine (without a L)) ∧
        chain ExpNext ExpPrev c' (spine (without a A)) ∧
        same_meta c c'.
Proof.
  intros H Ha.
  assert (a ∈ A) as HaA by (by rewrite (rep_perm _ _ _ H)).
  assert (NoDup A) as HndA by (rewrite (rep_perm _ _ _ H); apply H).
  pose proof (rep_nodup _ _ _ H) as HndL.
  pose proof (rep_lru _ _ _ H) as Hlru.
  pose proof (rep_exp _ _ _ H) as Hexp.
  apply list_elem_of_split in Ha as (L1 & L2 & ->).
  apply list_elem_of_split in HaA as (A1 & A2 & ->).
  rewrite !without_middle by done.
  apply NoDup_spine in HndL, HndA.
  rewrite spine_middle in Hlru, Hexp, HndL, HndA.
  destruct (unlink_spec LruNext LruPrev ltac:(done) c _ _ _ Hlru) as
    (c1 & Hu1 & Hlru1 & Hf1 & _ & Hm1); [done|by destruct (Node <$> L2)|done|].
  assert (chain ExpNext ExpPrev c1
            ((Head :: (Node <$> A1)) ++ Node a :: (Node <$> A2) ++ [Tail]))
    as Hexp1.
  { apply (chain_frame _ _ c); [done| |]; intros r _; by apply Hf1. }
  destruct (unlink_spec ExpNext ExpPrev ltac:(done) c1 _ _ _ Hexp1) as
    (c2 & Hu2 & Hexp2 & Hf2 & _ & Hm2); [done|by destruct (Node <$> A2)|done|].
  exists c2. split; [|split; [|split]].
  - rewrite delist_unlink. simpl. rewrite Hu1. simpl. done.
  - rewrite spine_app. apply (chain_frame _ _ c1); [done| |]; intros r _; by apply Hf2.
  - by rewrite spine_app.
  - by eapply same_meta_trans.
Qed.

Lemma delete_Rep c L A a :
  Rep c L A → a ∈ L →
  ∃ c' k, key_of c a = Some k ∧
          delete (Node a) c = Ok c' ∧
          Rep c' (without a L) (without a A) ∧
          m c' = base.delete k (m c) ∧
          same_data c c'.
Proof.
  intros H Ha.
  destruct (delist_Rep c L A a H Ha) as (c1 & Hd & Hlru & Hexp & Hm).
  destruct (rep_heap _ _ _ H a Ha) as [ent Hent].
  assert (key_of c a = Some (key ent)) as Hk by (unfold key_of; by rewrite Hent).
  destruct (proj2 (same_meta_heap c c1 a Hm)) as [ent1 Hent1]; [by eexists|].
  assert (key ent1 = key ent) as Hk1.
  { pose proof (same_key _ _ Hm a) as Hka. unfold key_of in Hka.
    rewrite Hent, Hent1 in Hka. by injection Hka. }
  pose proof (same_meta_data _ _ Hm) as Hdata.
  exists (set_m (base.delete (key ent) (m c1)) c1), (key ent).
  split; [done|]. split; [|split; [|split]].
  - unfold delete. rewrite Hd. simpl. rewrite Hent1. simpl. by rewrite Hk1.
  - split.
    + apply NoDup_without, H.
    + apply without_Permutation, H.
    + by apply chain_set_m.
    + by apply chain_set_m.
    + intros b [Hb _]%elem_of_without. simpl.
      apply (same_meta_heap c c1); [done|]. by apply (rep_heap _ _ _ H).
    + intros k p. simpl. rewrite (same_m _ _ Hm).
      change (key_of (set_m ?i c1)) with (key_of c1).
      rewrite lookup_delete. case_decide as Hkk.
      * subst k. split; [done|]. intros (b & -> & Hb & Hkb).
        apply elem_of_without in Hb as [Hb Hba].
        rewrite (same_key _ _ Hm) in Hkb.
        destruct Hba. by eapply (Rep_key_inj c L A).
      * rewrite (rep_index _ _ _ H). split.
        -- intros (b & -> & Hb & Hkb). exists b. split; [done|].
           rewrite (same_key _ _ Hm). split; [|done].
           apply elem_of_without. split; [done|]. intros ->. congruence.
        -- intros (b & -> & Hb & Hkb). exists b. split; [done|].
           apply elem_of_without in Hb as [Hb _].
           by rewrite (same_key _ _ Hm) in Hkb.
  - simpl. by rewrite (same_m _ _ Hm).
  - eapply same_data_trans; [done|]. apply same_data_set_m.
Qed.

(** ** The size of the index *)

Lemma Rep_size c L A : Rep c L A → size (m c) = length L.
Proof.
  intros H.
  set (g := λ a : nat, (default ""%string (key_of c a), Node a)).
  assert (map_to_list (m c) ≡ₚ g <$> L) as Hp.
  { apply NoDup_Permutation.
    - apply NoDup_map_to_list.
    - apply NoDup_fmap_2; [|apply H].
      intros a b Hab. unfold g in Hab. by injection Hab.
    - intros [k p]. rewrite elem_of_map_to_list, list_elem_of_fmap.
      rewrite (rep_index _ _ _ H). split.
      + intros (a & -> & Ha & Hk). exists a. split; [|done].
        unfold g. by rewrite Hk.
      + intros (a & Hg & Ha). unfold g in Hg. injection Hg as -> ->.
        exists a. split; [done|]. split; [done|].
        destruct (Rep_key _ _ _ _ H Ha) as [k Hk]. by rewrite Hk. }
  rewrite <- length_map_to_list, Hp. apply length_fmap.
Qed.

Lemma Rep_Len c L A : Rep c L A → Len c = Z.of_nat (length L).
Proof. intros H. unfold Len. by rewrite (Rep_size _ _ _ H). Qed.

Lemma Rep_length_heap c L A : Rep c L A → (length L ≤ size (heap c))%nat.
Proof.
  intros H. rewrite <- (size_list_to_set (C := gset nat)) by apply H.
  rewrite <- (size_dom (D := gset nat)). apply subseteq_size.
  intros a Ha. apply elem_of_list_to_set in Ha.
  apply elem_of_dom. by apply (rep_heap _ _ _ H).
Qed.

Lemma Rep_same_length c L A : Rep c L A → length A = length L.
Proof. intros H. by rewrite (rep_perm _ _ _ H). Qed.

(** ** [New] *)

Lemma New_Ok ms t :
  0 <= ms → 0 <= t →
  ∃ c, New ms t = Ok c ∧ Rep c [] [] ∧ maxSize c = ms ∧ ttl c = t ∧
       m c = ∅.
Proof.
  intros Hms Ht. unfold New.
  destruct (Z.ltb_spec ms 0); [lia|]. destruct (Z.ltb_spec t 0); [lia|].
  eexists. split; [done|]. split; [|done].
  split; simpl; try done.
  - apply NoDup_nil_2.
  - by intros a Ha%elem_of_nil.
  - intros k p. rewrite lookup_empty. split; [done|].
    by intros (a & _ & Ha%elem_of_nil & _).
Qed.

(** ** [Get] *)

Lemma assign_other_field p f q c c' r g :
  assign p f q c = Ok c' → g ≠ f → field r g c' = field r g c.
Proof.
  intros H Hg. rewrite (field_assign _ _ _ _ _ r g H).
  rewrite decide_False; [done|]. by intros [_ ?].
Qed.

Lemma assign_other_ptr p f q c c' r g :
  assign p f q c = Ok c' → r ≠ p → field r g c' = field r g c.
Proof.
  intros H Hr. rewrite (field_assign _ _ _ _ _ r g H).
  rewrite decide_False; [done|]. by intros [? _].
Qed.

Lemma assign_same p f q c c' :
  assign p f q c = Ok c' → field p f c' = Ok q.
Proof.
  intros H. rewrite (field_assign _ _ _ _ _ p f H). by rewrite decide_True.
Qed.

Lemma Get_miss now k c : m c !! k = None → Get now k c = Ok (""%string, false, c).
Proof. intros H. unfold Get. by rewrite H. Qed.

Lemma Get_expired now k e ent c :
  m c !! k = Some e → load e c = Ok ent → IsExpired now ent = true →
  Get now k c = do c <- delete e c; Ok (""%string, false, c).
Proof. intros H He Hx. unfold Get. rewrite H, He. simpl. by rewrite Hx. Qed.

Lemma Get_live now k e ent c :
  m c !! k = Some e → load e c = Ok ent → IsExpired now ent = false →
  Get now k c =
  do c <- unlink LruNext LruPrev e c;
  do c <- assign e LruPrev Head c;
  do c <- assign e LruNext (lruNext (head c)) c;
  do c <- push_front LruNext LruPrev e c;
  Ok (value ent, true, c).
Proof.
  intros H He Hx. unfold Get. rewrite H, He. simpl. rewrite Hx.
  unfold unlink, push_front. step_binds.
Qed.

(** Moving a listed entry to the front of the recency list. *)
Lemma promote_Rep c L A a :
  Rep c L A → a ∈ L →
  ∃ c', (do c <- unlink LruNext LruPrev (Node a) c;
         do c <- assign (Node a) LruPrev Head c;
         do c <- assign (Node a) LruNext (lruNext (head c)) c;
         push_front LruNext LruPrev (Node a) c) = Ok c' ∧
        Rep c' (a :: without a L) A ∧ same_meta c c'.
Proof.
  intros H Ha.
  pose proof (rep_nodup _ _ _ H) as HndL.
  pose proof (rep_lru _ _ _ H) as Hlru.
  pose proof (rep_exp _ _ _ H) as Hexp.
  pose proof (Rep_valid _ _ _ _ H Ha) as Hva.
  pose proof Ha as Ha'.
  apply list_elem_of_split in Ha' as (L1 & L2 & ->).
  rewrite without_middle by done.
  pose proof (NoDup_spine _ HndL) as Hnds.
  rewrite spine_middle in Hlru, Hnds.
  destruct (unlink_spec LruNext LruPrev ltac:(done) c _ _ _ Hlru) as
    (c1 & Hu1 & Hlru1 & Hf1 & _ & Hm1); [done|by destruct (Node <$> L2)|done|].
  rewrite <- spine_app in Hlru1.
  destruct (assign_Ok (Node a) LruPrev Head c1) as [c2 Hc2].
  { by apply (same_meta_valid c c1). }
  pose proof (assign_meta _ _ _ _ _ Hc2) as Hm2.
  destruct (assign_Ok (Node a) LruNext (lruNext (head c2)) c2) as [c3 Hc3].
  { apply (same_meta_valid c1 c2); [done|]. by apply (same_meta_valid c c1). }
  pose proof (assign_meta _ _ _ _ _ Hc3) as Hm3.
  assert (NoDup (L1 ++ L2) ∧ a ∉ L1 ++ L2) as [Hnd' Hnotin].
  { apply NoDup_app in HndL as (? & Hd & [? ?]%NoDup_cons). split.
    - apply NoDup_app. split; [done|]. split; [|done].
      intros x Hx1 Hx2. apply (Hd x Hx1). set_solver.
    - intros [?|?]%elem_of_app; [|done]. apply (Hd a); [done|set_solver]. }
  assert (Node a ∉ spine (L1 ++ L2)) as Hnotin'.
  { rewrite elem_of_spine. intros [?|[?|(b & [= <-] & ?)]]; done. }
  assert (chain LruNext LruPrev c3 (spine (L1 ++ L2))) as Hlru3.
  { apply (chain_frame _ _ c1); [done| |]; intros r Hr;
      (rewrite (assign_other_ptr _ _ _ _ _ r _ Hc3) by (by intros ->);
       by rewrite (assign_other_ptr _ _ _ _ _ r _ Hc2) by (by intros ->)). }
  assert (field (Node a) LruPrev c3 = Ok Head) as Hp3.
  { rewrite (assign_other_field _ _ _ _ _ _ _ Hc3) by done.
    by apply (assign_same _ _ _ _ _ Hc2). }
  assert (field (Node a) LruNext c3 = Ok (getl LruNext (head c3))) as Hn3.
  { rewrite (assign_same _ _ _ _ _ Hc3). rewrite <- (field_Head LruNext c3).
    by rewrite (assign_other_ptr _ _ _ _ _ Head _ Hc3). }
  destruct (push_front_spec LruNext LruPrev ltac:(done) c3 (Node a)
              ((Node <$> L1 ++ L2) ++ [Tail])) as (c4 & Hc4 & Hlru4 & Hf4 & Hm4);
    [done|by destruct (Node <$> L1 ++ L2)|by apply NoDup_spine|done|done|done|].
  exists c4. split; [|split].
  - rewrite Hu1. simpl. rewrite Hc2. simpl. rewrite Hc3. simpl. done.
  - split.
    + by apply NoDup_cons.
    + rewrite (rep_perm _ _ _ H). by rewrite Permutation_middle.
    + done.
    + apply (chain_frame _ _ c); [done| |]; intros r _;
        (rewrite Hf4 by done;
         rewrite (assign_other_field _ _ _ _ _ _ _ Hc3) by done;
         rewrite (assign_other_field _ _ _ _ _ _ _ Hc2) by done;
         by apply Hf1).
    + intros b Hb.
      assert (same_meta c c4) as Hm by eauto using same_meta_trans.
      apply (same_meta_heap c c4); [done|]. apply (rep_heap _ _ _ H).
      set_solver.
    + assert (same_meta c c4) as Hm by eauto using same_meta_trans.
      intros k p. rewrite (same_m _ _ Hm), (rep_index _ _ _ H).
      split; intros (b & -> & Hb & Hk); exists b; (split; [done|]);
        rewrite ?(same_key _ _ Hm) in *; (split; [|done]);
        set_solver.
  - eauto using same_meta_trans.
Qed.

(** ** [Put]: creating and linking the new entry *)

Lemma Put_unfold now now' k v c :
  Put now now' k v c =
  do c <- match m c !! k with
          | Some e => delete e c
          | None => Ok c
          end;
  do c <- insert_front now k v c;
  trim now' c.
Proof.
  unfold Put, insert_front, push_front, alloc.
  destruct (match m c !! k with Some e => delete e c | None => Ok c end)
    as [c1|]; simpl; [|done].
  destruct (0 <? ttl c1); simpl; step_binds.
Qed.

Lemma field_set_heap_ne a ent c r g :
  r ≠ Node a →
  field r g (set_heap (<[a := ent]> (heap c)) c) = field r g c.
Proof.
  intros Hr. destruct r as [| | |b]; try done.
  unfold field. simpl. rewrite lookup_insert_ne; [done|congruence].
Qed.

Lemma field_set_heap_eq a ent c g :
  field (Node a) g (set_heap (<[a := ent]> (heap c)) c) = Ok (getl g ent).
Proof. unfold field. simpl. by rewrite lookup_insert_eq. Qed.

Lemma insert_front_Rep now k v c L A :
  Rep c L A → m c !! k = None →
  ∃ c' a, insert_front now k v c = Ok c' ∧
          heap c !! a = None ∧ (a ∉ L) ∧
          Rep c' (a :: L) (a :: A) ∧
          m c' = <[k := Node a]> (m c) ∧
          maxSize c' = maxSize c ∧ ttl c' = ttl c ∧
          key_of c' a = Some k ∧ value_of c' a = Some v ∧
          expiry_of c' a = Some (new_expiry now c) ∧
          (∀ b, b ≠ a → key_of c' b = key_of c b ∧
                        value_of c' b = value_of c b ∧
                        expiry_of c' b = expiry_of c b).
Proof.
  intros H Hk.
  set (a := fresh (dom (heap c))).
  assert (heap c !! a = None) as Ha.
  { apply not_elem_of_dom. apply is_fresh. }
  assert (a ∉ L) as HaL.
  { intros HaL. destruct (rep_heap _ _ _ H a HaL). congruence. }
  assert (a ∉ A) as HaA by (by rewrite (rep_perm _ _ _ H)).
  set (ent := mkEntry k v (new_expiry now c) Head (lruNext (head c)) Head
                (expNext (head c))).
  set (c2 := set_heap (<[a := ent]> (heap c)) c).
  set (c3 := set_m (<[k := Node a]> (m c2)) c2).
  assert (∀ r g, r ≠ Node a → field r g c3 = field r g c) as Hf3.
  { intros r g Hr. unfold c3. rewrite field_set_m. by apply field_set_heap_ne. }
  assert (∀ g, field (Node a) g c3 = Ok (getl g ent)) as Hf3a.
  { intros g. unfold c3. rewrite field_set_m. apply field_set_heap_eq. }
  assert (∀ l, a ∉ l → ∀ r, r ∈ spine l → r ≠ Node a) as Hne.
  { intros l Hl r Hr ->. apply elem_of_spine in Hr as [?|[?|(b & [= <-] & ?)]]; done. }
  assert (NoDup A) as HndA by (rewrite (rep_perm _ _ _ H); apply H).
  assert (chain LruNext LruPrev c3 (spine L)) as Hlru3.
  { apply (chain_frame _ _ c); [apply H| |]; intros r Hr; apply Hf3;
      apply (Hne L HaL r Hr). }
  assert (chain ExpNext ExpPrev c3 (spine A)) as Hexp3.
  { apply (chain_frame _ _ c); [apply H| |]; intros r Hr; apply Hf3;
      apply (Hne A HaA r Hr). }
  destruct (push_front_spec LruNext LruPrev ltac:(done) c3 (Node a)
              ((Node <$> L) ++ [Tail])) as (c4 & Hc4 & Hlru4 & Hf4 & Hm4);
    [done|by destruct (Node <$> L)|apply NoDup_spine, H
    |intros Hin; by apply (Hne L HaL _ Hin)|by rewrite Hf3a|by rewrite Hf3a|].
  assert (chain ExpNext ExpPrev c4 (spine A)) as Hexp4.
  { apply (chain_frame _ _ c3); [done| |]; intros r _; by apply Hf4. }
  destruct (push_front_spec ExpNext ExpPrev ltac:(done) c4 (Node a)
              ((Node <$> A) ++ [Tail])) as (c5 & Hc5 & Hexp5 & Hf5 & Hm5);
    [done|by destruct (Node <$> A)|by apply NoDup_spine
    |intros Hin; by apply (Hne A HaA _ Hin)
    |by rewrite Hf4, Hf3a| |].
  { rewrite Hf4, Hf3a by done. rewrite <- (field_Head ExpNext c4).
    rewrite Hf4 by done. by rewrite Hf3. }
  assert (same_meta c3 c5) as Hm by eauto using same_meta_trans.
  assert (∀ b, heap c3 !! b = if decide (b = a) then Some ent else heap c !! b)
    as Hheap.
  { intros b. simpl. case_decide as Hb; [subst b; by rewrite lookup_insert_eq|].
    by rewrite lookup_insert_ne. }
  assert (key_of c5 a = Some k ∧ value_of c5 a = Some v ∧
          expiry_of c5 a = Some (new_expiry now c)) as (Hka & Hva & Hxa).
  { rewrite (same_key _ _ Hm), (same_value _ _ Hm), (same_expiry _ _ Hm).
    unfold key_of, value_of, expiry_of. rewrite Hheap, decide_True by done.
    done. }
  assert (∀ b, b ≠ a → key_of c5 b = key_of c b ∧
                        value_of c5 b = value_of c b ∧
                        expiry_of c5 b = expiry_of c b) as Hother.
  { intros b Hb.
    rewrite (same_key _ _ Hm), (same_value _ _ Hm), (same_expiry _ _ Hm).
    unfold key_of, value_of, expiry_of. by rewrite Hheap, decide_False by done. }
  exists c5, a. split; [|split; [done|split; [done|split; [|split]]]].
  - unfold insert_front, alloc. fold a.
    change (ttl (set_heap ?h c)) with (ttl c).
    assert ((if 0 <? ttl c
             then assign_expiry (Node a) (now + ttl c)
                    (set_heap (<[a := mkEntry k v 0 Head (lruNext (head c)) Head
                                        (expNext (head c))]> (heap c)) c)
             else Ok (set_heap (<[a := mkEntry k v 0 Head (lruNext (head c)) Head
                                        (expNext (head c))]> (heap c)) c))
            = Ok c2) as ->.
    { unfold c2, ent, new_expiry. destruct (0 <? ttl c); [|done].
      unfold assign_expiry. simpl. rewrite !lookup_insert_eq. simpl.
      unfold set_heap. simpl. by rewrite insert_insert_eq. }
    cbn [res_bind]. fold c3. rewrite Hc4. cbn [res_bind]. done.
  - split.
    + apply NoDup_cons. split; [done|apply H].
    + by rewrite (rep_perm _ _ _ H).
    + apply (chain_frame _ _ c4); [done| |]; intros r _; by apply Hf5.
    + done.
    + intros b Hb. apply (same_meta_heap c3 c5); [done|]. rewrite Hheap.
      case_decide; [done|]. apply (rep_heap _ _ _ H). set_solver.
    + intros k' p. rewrite (same_m _ _ Hm). simpl.
      rewrite lookup_insert. case_decide as Hkk.
      * subst k'. split.
        -- intros [= <-]. exists a. split; [done|]. split; [set_solver|done].
        -- intros (b & -> & Hb & Hkb). destruct (decide (b = a)) as [->|Hba]; [done|].
           destruct (Hother b Hba) as (Hkb' & _). rewrite Hkb' in Hkb.
           assert (b ∈ L) as HbL by set_solver.
           pose proof (Rep_lookup _ _ _ _ _ H HbL Hkb). congruence.
      * rewrite (rep_index _ _ _ H). split.
        -- intros (b & -> & Hb & Hkb). exists b. split; [done|].
           split; [set_solver|].
           assert (b ≠ a) as Hba by (by intros ->).
           destruct (Hother b Hba) as (Hkb' & _). by rewrite Hkb'.
        -- intros (b & -> & Hb & Hkb). exists b. split; [done|].
           destruct (decide (b = a)) as [->|Hba]; [congruence|].
           destruct (Hother b Hba) as (Hkb' & _). rewrite Hkb' in Hkb.
           split; [set_solver|done].
  - by rewrite (same_m _ _ Hm).
  - rewrite (same_maxSize _ _ Hm), (same_ttl _ _ Hm). done.
Qed.

(** ** [trim] *)

Lemma tail_prev nx pv c l a :
  chain nx pv c (spine (l ++ [a])) → getl pv (tail c) = Node a.
Proof.
  rewrite spine_middle. intros Hc. apply chain_app in Hc as [_ Hc].
  destruct Hc as [[_ Hc] _]. rewrite field_Tail in Hc. by injection Hc.
Qed.

Lemma head_next nx pv c l :
  chain nx pv c (spine l) →
  getl nx (head c) = match l with a :: _ => Node a | [] => Tail end.
Proof.
  intros Hc. destruct l as [|a l]; destruct Hc as [[Hc _] _];
    rewrite field_Head in Hc; by injection Hc.
Qed.

Lemma trim_noop now c :
  maxSize c <= 0 ∨ Len c <= maxSize c → trim now c = Ok c.
Proof.
  intros H. unfold trim.
  destruct (Z.leb_spec (maxSize c) 0); [done|].
  destruct (Z.leb_spec (Len c) (maxSize c)); [done|]. lia.
Qed.

Lemma trim_evict now c L A :
  Rep c L A → 0 < maxSize c → maxSize c < Len c →
  ∃ old lru ent,
    last A = Some old ∧ last L = Some lru ∧ heap c !! old = Some ent ∧
    trim now c = delete (Node (if IsExpired now ent then old else lru)) c.
Proof.
  intros H Hms Hlen.
  pose proof (Rep_Len _ _ _ H) as HL.
  pose proof (Rep_same_length _ _ _ H) as HA.
  pose proof (rep_lru _ _ _ H) as Hlru.
  pose proof (rep_exp _ _ _ H) as Hexp.
  destruct L as [|lru L _] using rev_ind; [simpl in HL; lia|].
  destruct A as [|old A _] using rev_ind.
  { rewrite length_app in HA. simpl in HA. lia. }
  assert (old ∈ L ++ [lru]) as Hold.
  { rewrite <- (rep_perm _ _ _ H). set_solver. }
  destruct (rep_heap _ _ _ H old Hold) as [ent Hent].
  exists old, lru, ent. rewrite !last_snoc. split; [done|]. split; [done|].
  split; [done|].
  apply tail_prev in Hlru, Hexp. simpl in Hlru, Hexp.
  unfold trim. rewrite Hlru, Hexp.
  destruct (Z.leb_spec (maxSize c) 0); [lia|].
  destruct (Z.leb_spec (Len c) (maxSize c)); [lia|].
  simpl. rewrite Hent. simpl. by destruct (IsExpired now ent).
Qed.

(** ** Walking a well-formed list *)

Lemma walk_chain nx pv c l : ∀ p fuel,
  chain nx pv c (p :: (Node <$> l) ++ [Tail]) → (length l < fuel)%nat →
  walk nx c fuel (match l with a :: _ => Node a | [] => Tail end)
  = Some (Node <$> l).
Proof.
  induction l as [|a l IH]; intros p fuel Hc Hlen.
  - destruct fuel; [lia|done].
  - destruct fuel as [|fuel]; [simpl in Hlen; lia|].
    destruct Hc as [_ Hc]. simpl in Hlen.
    pose proof (IH (Node a) fuel Hc ltac:(lia)) as Hw.
    assert (field (Node a) nx c
            = Ok (match l with b :: _ => Node b | [] => Tail end)) as Hf.
    { destruct l; by destruct Hc as [[Hf _] _]. }
    cbn [walk]. rewrite Hf, Hw. done.
Qed.

Lemma lruList_Rep c L A : Rep c L A → lruList c = Some (Node <$> L).
Proof.
  intros H. unfold lruList.
  change (lruNext (head c)) with (getl LruNext (head c)).
  rewrite (head_next _ _ _ _ (rep_lru _ _ _ H)).
  apply (walk_chain _ LruPrev _ _ Head); [apply H|].
  pose proof (Rep_length_heap _ _ _ H). lia.
Qed.

Lemma expList_Rep c L A : Rep c L A → expList c = Some (Node <$> A).
Proof.
  intros H. unfold expList.
  change (expNext (head c)) with (getl ExpNext (head c)).
  rewrite (head_next _ _ _ _ (rep_exp _ _ _ H)).
  apply (walk_chain _ ExpPrev _ _ Head); [apply H|].
  pose proof (Rep_length_heap _ _ _ H).
  pose proof (Rep_same_length _ _ _ H). lia.
Qed.

(** ** [Put] *)

Lemma IsExpired_expiry now e1 e2 :
  expiry e1 = expiry e2 → IsExpired now e1 = IsExpired now e2.
Proof. unfold IsExpired. by intros ->. Qed.

Lemma expiry_of_lookup c c' a e e' :
  expiry_of c' a = expiry_of c a →
  heap c !! a = Some e → heap c' !! a = Some e' → expiry e' = expiry e.
Proof.
  unfold expiry_of. intros H He He'. rewrite He, He' in H. by injection H.
Qed.

Lemma Put_pre_trim now now' k v c :
  Put now now' k v c = do c <- Put_pre now k v c; trim now' c.
Proof.
  rewrite Put_unfold. unfold Put_pre.
  by destruct (match m c !! k with Some e => delete e c | None => Ok c end).
Qed.

Lemma Put_pre_Rep now k v c L A :
  Rep c L A →
  ∃ c2 a L1 A1,
    Put_pre now k v c = Ok c2 ∧ Rep c2 (a :: L1) (a :: A1) ∧
    put_data now k v a c c2 ∧ m c2 = <[k := Node a]> (m c) ∧
    (a ∉ L1) ∧ NoDup L1 ∧ (∀ b, b ∈ L1 → b ∈ L) ∧
    match m c !! k with
    | Some p => ∃ b, p = Node b ∧ b ∈ L ∧ L1 = without b L ∧ A1 = without b A
    | None => L1 = L ∧ A1 = A
    end.
Proof.
  intros H.
  (* the previous entry, if any, goes *)
  assert (∃ c1 L1 A1,
            match m c !! k with
            | Some e => delete e c
            | None => Ok c
            end = Ok c1 ∧
            Rep c1 L1 A1 ∧ m c1 = base.delete k (m c) ∧ same_data c c1 ∧
            (∀ b, b ∈ L1 → b ∈ L) ∧
            match m c !! k with
            | Some p => ∃ b, p = Node b ∧ b ∈ L ∧
                             L1 = without b L ∧ A1 = without b A
            | None => L1 = L ∧ A1 = A
            end) as (c1 & L1 & A1 & Hc1 & H1 & Hm1 & Hd1 & Hsub & Hcase).
  { destruct (m c !! k) as [p|] eqn:Hk.
    - apply (rep_index _ _ _ H) in Hk as (b & -> & Hb & Hkb).
      destruct (delete_Rep c L A b H Hb) as (c1 & k0 & Hk0 & Hdel & H1 & Hm1 & Hd1).
      assert (k0 = k) as -> by congruence.
      exists c1, (without b L), (without b A).
      split; [done|]. split; [done|]. split; [done|]. split; [done|].
      split; [by intros x [? _]%elem_of_without|]. by exists b.
    - exists c, L, A. split; [done|]. split; [done|].
      split; [by rewrite delete_id|]. split; [apply same_data_refl|done]. }
  assert (m c1 !! k = None) as Hk1 by (rewrite Hm1; apply lookup_delete_eq).
  (* the new entry comes *)
  destruct (insert_front_Rep now k v c1 L1 A1 H1 Hk1) as
    (c2 & a & Hins & Ha1 & HaL1 & H2 & Hm2 & Hms2 & Httl2 & Hka & Hva & Hxa & Hoth).
  exists c2, a, L1, A1.
  split; [unfold Put_pre; by rewrite Hc1|]. split; [done|].
  split; [|split; [by rewrite Hm2, Hm1, insert_delete_eq|]].
  - split.
    + by rewrite Hms2, (data_maxSize _ _ Hd1).
    + by rewrite Httl2, (data_ttl _ _ Hd1).
    + destruct (heap c !! a) eqn:Hca; [|done].
      destruct (proj2 (same_data_heap c c1 a Hd1)); [by eexists|congruence].
    + done.
    + done.
    + rewrite Hxa. unfold new_expiry. by rewrite (data_ttl _ _ Hd1).
    + intros b Hb. destruct (Hoth b Hb) as (-> & -> & ->).
      by rewrite (data_key _ _ Hd1), (data_value _ _ Hd1), (data_expiry _ _ Hd1).
  - split; [done|]. split; [apply H1|]. done.
Qed.

(** What [trim] does to the state that [Put_pre] leaves. *)
Lemma trim_Rep now' c2 L2 A2 :
  Rep c2 L2 A2 →
  ((maxSize c2 <= 0 ∨ Z.of_nat (length L2) <= maxSize c2) ∧
   trim now' c2 = Ok c2)
  ∨
  (0 < maxSize c2 ∧ maxSize c2 < Z.of_nat (length L2) ∧
   ∃ old lru ent victim kv c',
     last A2 = Some old ∧ last L2 = Some lru ∧
     heap c2 !! old = Some ent ∧
     victim = (if IsExpired now' ent then old else lru) ∧
     victim ∈ L2 ∧ key_of c2 victim = Some kv ∧
     trim now' c2 = Ok c' ∧
     Rep c' (without victim L2) (without victim A2) ∧
     m c' = base.delete kv (m c2) ∧ same_data c2 c').
Proof.
  intros H2. pose proof (Rep_Len _ _ _ H2) as HLen.
  destruct (decide (maxSize c2 <= 0 ∨ Z.of_nat (length L2) <= maxSize c2))
    as [Hno|Hev].
  - left. split; [done|]. apply trim_noop. lia.
  - right. split; [lia|]. split; [lia|].
    destruct (trim_evict now' c2 _ _ H2) as
      (old & lru & ent & Hold & Hlru & Hent & Htrim); [lia|lia|].
    set (victim := if IsExpired now' ent then old else lru) in *.
    assert (victim ∈ L2) as HvL.
    { unfold victim. destruct (IsExpired now' ent).
      - rewrite <- (rep_perm _ _ _ H2). by apply last_Some_elem_of.
      - by apply last_Some_elem_of. }
    destruct (delete_Rep c2 _ _ victim H2 HvL) as
      (c3 & kv & Hkv & Hdel & H3 & Hm3 & Hd3).
    exists old, lru, ent, victim, kv, c3. by rewrite Htrim.
Qed.

Lemma Put_Rep now now' k v c L A :
  Rep c L A →
  ∃ c' a L1 A1 L' A',
    Put now now' k v c = Ok c' ∧ Rep c' L' A' ∧ put_data now k v a c c' ∧
    match m c !! k with
    | Some p => ∃ b, p = Node b ∧ b ∈ L ∧ L1 = without b L ∧ A1 = without b A
    | None => L1 = L ∧ A1 = A
    end ∧
    (((maxSize c <= 0 ∨ Z.of_nat (S (length L1)) <= maxSize c) ∧
      L' = a :: L1 ∧ A' = a :: A1 ∧ m c' = <[k := Node a]> (m c))
     ∨
     (0 < maxSize c ∧ maxSize c < Z.of_nat (S (length L1)) ∧
      ∃ old lru ent victim kv,
        last A1 = Some old ∧ last L1 = Some lru ∧
        heap c !! old = Some ent ∧
        victim = (if IsExpired now' ent then old else lru) ∧
        victim ∈ L1 ∧ key_of c victim = Some kv ∧ kv ≠ k ∧
        L' = a :: without victim L1 ∧ A' = a :: without victim A1 ∧
        m c' = base.delete kv (<[k := Node a]> (m c)))).
Proof.
  intros H.
  destruct (Put_pre_Rep now k v c L A H) as
    (c2 & a & L1 & A1 & Hpre & H2 & Hpd & Hm2 & HaL1 & Hnd1 & Hsub & Hcase).
  assert (maxSize c2 = maxSize c) as Hms by apply Hpd.
  rewrite Put_pre_trim, Hpre. cbn [res_bind].
  destruct (trim_Rep now' c2 _ _ H2) as
    [[Hno Htrim]
    |(Hpos & Hgt & old & lru & ent2 & victim & kv & c3 & Hold & Hlru & Hent2 &
      Hvi & HvL & Hkv & Htrim & H3 & Hm3 & Hd3)]; rewrite Hms in *.
  - exists c2, a, L1, A1, (a :: L1), (a :: A1).
    split; [done|]. split; [done|]. split; [done|]. split; [done|]. by left.
  - simpl length in Hgt.
    assert (L1 ≠ []) as HL1 by (intros ->; simpl in Hgt; lia).
    assert (A1 ≠ []) as HA1.
    { intros ->. pose proof (Rep_same_length _ _ _ H2) as Hl.
      destruct L1; [done|discriminate]. }
    rewrite last_cons in Hold, Hlru.
    destruct (last A1) as [old'|] eqn:Hold'; [|by apply last_None in Hold'].
    destruct (last L1) as [lru'|] eqn:Hlru'; [|by apply last_None in Hlru'].
    injection Hold as <-. injection Hlru as <-.
    assert (old' ∈ L1) as HoldL.
    { apply last_Some_elem_of in Hold'.
      assert (old' ∈ a :: A1) as Hin by set_solver.
      rewrite (rep_perm _ _ _ H2) in Hin.
      apply elem_of_cons in Hin as [->|Hin]; [|done].
      assert (NoDup (a :: A1)) as HndA.
      { rewrite (rep_perm _ _ _ H2). apply H2. }
      by apply NoDup_cons in HndA as [? _]. }
    assert (lru' ∈ L1) as HlruL by (by apply last_Some_elem_of).
    destruct (rep_heap _ _ _ H old' (Hsub _ HoldL)) as [ent Hent].
    assert (IsExpired now' ent2 = IsExpired now' ent) as Hx.
    { apply IsExpired_expiry. eapply (expiry_of_lookup c c2); [|done|done].
      apply Hpd. by intros ->. }
    rewrite Hx in Hvi.
    assert (victim ∈ L1) as HvL1.
    { rewrite Hvi. by destruct (IsExpired now' ent). }
    assert (victim ≠ a) as Hva' by (by intros ->).
    assert (key_of c victim = Some kv) as Hkv'.
    { destruct (put_other _ _ _ _ _ _ Hpd victim Hva') as (<- & _). done. }
    assert (kv ≠ k) as Hkvk.
    { intros ->. pose proof (Rep_key_inj c2 _ _ victim a k H2) as Hinj.
      apply Hva', Hinj; [set_solver|set_solver|done|apply Hpd]. }
    unfold without in H3. rewrite !filter_cons_True in H3 by congruence.
    exists c3, a, L1, A1, (a :: without victim L1), (a :: without victim A1).
    split; [done|]. split; [done|]. split.
    { split.
      - by rewrite (data_maxSize _ _ Hd3), (put_maxSize _ _ _ _ _ _ Hpd).
      - by rewrite (data_ttl _ _ Hd3), (put_ttl _ _ _ _ _ _ Hpd).
      - apply Hpd.
      - rewrite (data_key _ _ Hd3). apply Hpd.
      - rewrite (data_value _ _ Hd3). apply Hpd.
      - rewrite (data_expiry _ _ Hd3). apply Hpd.
      - intros b Hb.
        rewrite (data_key _ _ Hd3), (data_value _ _ Hd3), (data_expiry _ _ Hd3).
        by apply Hpd. }
    split; [done|]. right. split; [lia|]. split; [lia|].
    exists old', lru', ent, victim, kv.
    rewrite Hm3, Hm2. done.
Qed.

(** ** [Get] and [Delete] on a well-formed cache *)

Lemma Rep_index_entry c L A k p :
  Rep c L A → m c !! k = Some p →
  ∃ a ent, p = Node a ∧ a ∈ L ∧ heap c !! a = Some ent ∧ key ent = k.
Proof.
  intros H Hk. apply (rep_index _ _ _ H) in Hk as (a & -> & Ha & Hka).
  unfold key_of in Hka. destruct (heap c !! a) as [ent|] eqn:Hent; [|done].
  injection Hka as Hka. by exists a, ent.
Qed.

Lemma Get_Rep now k c L A :
  Rep c L A →
  match m c !! k with
  | None => Get now k c = Ok (""%string, false, c)
  | Some p =>
      ∃ a ent, p = Node a ∧ a ∈ L ∧ heap c !! a = Some ent ∧ key ent = k ∧
        if IsExpired now ent
        then ∃ c', Get now k c = Ok (""%string, false, c') ∧
                   Rep c' (without a L) (without a A) ∧
                   m c' = base.delete k (m c) ∧ same_data c c'
        else ∃ c', Get now k c = Ok (value ent, true, c') ∧
                   Rep c' (a :: without a L) A ∧ same_meta c c'
  end.
Proof.
  intros H. destruct (m c !! k) as [p|] eqn:Hk; [|by apply Get_miss].
  destruct (Rep_index_entry _ _ _ _ _ H Hk) as (a & ent & -> & Ha & Hent & Hkey).
  exists a, ent. split; [done|]. split; [done|]. split; [done|]. split; [done|].
  assert (load (Node a) c = Ok ent) as Hload by (simpl; by rewrite Hent).
  destruct (IsExpired now ent) eqn:Hx.
  - destruct (delete_Rep c L A a H Ha) as (c' & k0 & Hk0 & Hdel & H' & Hm' & Hd').
    assert (k0 = k) as ->.
    { unfold key_of in Hk0. rewrite Hent in Hk0. simpl in Hk0. congruence. }
    exists c'. rewrite (Get_expired now k _ ent c Hk Hload Hx), Hdel. done.
  - destruct (promote_Rep c L A a H Ha) as (c' & Hp & H' & Hm').
    exists c'. rewrite (Get_live now k _ ent c Hk Hload Hx).
    split; [|done]. revert Hp. generalize (unlink LruNext LruPrev (Node a) c).
    intros r Hp. destruct r as [c1|]; [|done]. cbn [res_bind] in *.
    destruct (assign (Node a) LruPrev Head c1) as [c2|]; [|done].
    cbn [res_bind] in *.
    destruct (assign (Node a) LruNext (lruNext (head c2)) c2) as [c3|]; [|done].
    cbn [res_bind] in *. by rewrite Hp.
Qed.

Lemma Delete_Rep k c L A :
  Rep c L A →
  match m c !! k with
  | None => Delete k c = Ok (false, c)
  | Some p =>
      ∃ a c', p = Node a ∧ a ∈ L ∧ key_of c a = Some k ∧
              Delete k c = Ok (true, c') ∧
              Rep c' (without a L) (without a A) ∧
              m c' = base.delete k (m c) ∧ same_data c c'
  end.
Proof.
  intros H. unfold Delete. destruct (m c !! k) as [p|] eqn:Hk; [|done].
  apply (rep_index _ _ _ H) in Hk as (a & -> & Ha & Hka).
  destruct (delete_Rep c L A a H Ha) as (c' & k0 & Hk0 & Hdel & H' & Hm' & Hd').
  assert (k0 = k) as -> by congruence.
  exists a, c'. rewrite Hdel. done.
Qed.

(** ** Reachable states *)

Lemma Good_shrink c c' L A L' A' :
  Good c L A → Rep c' L' A' → same_data c c' →
  (∀ b, b ∈ L' → b ∈ L) → (length L' ≤ length L)%nat →
  Good c' L' A'.
Proof.
  intros G H' Hd Hsub Hlen. split.
  - done.
  - rewrite (data_maxSize _ _ Hd). apply G.
  - rewrite (data_ttl _ _ Hd). apply G.
  - rewrite (data_maxSize _ _ Hd). intros Hms.
    pose proof (good_bound _ _ _ G Hms) as Hb.
    rewrite (Rep_Len _ _ _ (good_rep _ _ _ G)) in Hb.
    rewrite (Rep_Len _ _ _ H'). lia.
  - rewrite (data_ttl _ _ Hd). intros Ht b Hb.
    rewrite (data_expiry _ _ Hd). apply (good_noexp _ _ _ G Ht). by apply Hsub.
Qed.

Lemma length_without_le a l : (length (without a l) ≤ length l)%nat.
Proof. apply length_filter. Qed.

Lemma New_Good ms t c :
  New ms t = Ok c → Good c [] [] ∧ maxSize c = ms ∧ ttl c = t.
Proof.
  intros HN.
  assert (0 <= ms ∧ 0 <= t) as [Hms Ht].
  { unfold New in HN. destruct (Z.ltb_spec ms 0); [done|].
    destruct (Z.ltb_spec t 0); [done|]. lia. }
  destruct (New_Ok ms t Hms Ht) as (c' & HN' & H & Hm & Htt & Hidx).
  assert (c' = c) as -> by congruence.
  split; [|done]. split; try done; try lia.
  - intros _. unfold Len. rewrite Hidx, map_size_empty. lia.
  - by intros _ a Ha%elem_of_nil.
Qed.

Lemma Put_Good now now' k v c L A :
  Good c L A →
  ∃ c' L' A', Put now now' k v c = Ok c' ∧ Good c' L' A' ∧
              maxSize c' = maxSize c ∧ ttl c' = ttl c.
Proof.
  intros G. pose proof (good_rep _ _ _ G) as H.
  destruct (Put_Rep now now' k v c L A H) as
    (c' & a & L1 & A1 & L' & A' & HP & H' & Hpd & Hcase & Hres).
  exists c', L', A'. split; [done|].
  split; [|split; apply Hpd].
  assert ((length L1 ≤ length L)%nat ∧ ∀ b, b ∈ L1 → b ∈ L) as [Hlen Hsub].
  { destruct (m c !! k).
    - destruct Hcase as (b & _ & _ & -> & _). split; [apply length_without_le|].
      by intros x [? _]%elem_of_without.
    - by destruct Hcase as [-> _]. }
  assert ((length L' ≤ S (length L1))%nat ∧
          (0 < maxSize c → Z.of_nat (length L') <= maxSize c) ∧
          ∀ b, b ∈ L' → b = a ∨ b ∈ L) as (_ & Hbound & Hsub').
  { destruct Hres as [(Hno & -> & _)
                     |(Hms & Hgt & old & lru & ent & vi & kv & _ & _ & _ & _ &
                       Hvi & _ & _ & -> & _)].
    - split; [done|]. split; [simpl in *; lia|]. set_solver.
    - pose proof (length_without vi L1) as Hl. simpl.
      pose proof (length_without_le vi L1).
      split; [lia|]. split.
      + intros _. pose proof (good_bound _ _ _ G Hms) as Hb.
        rewrite (Rep_Len _ _ _ H) in Hb.
        assert (NoDup L1) as Hnd.
        { destruct (m c !! k).
          - destruct Hcase as (b & _ & _ & -> & _). apply NoDup_without, H.
          - destruct Hcase as [-> _]. apply H. }
        specialize (Hl Hnd Hvi). lia.
      + intros b [->|[Hb _]%elem_of_without]%elem_of_cons; [by left|].
        right. by apply Hsub. }
  split.
  - done.
  - rewrite (put_maxSize _ _ _ _ _ _ Hpd). apply G.
  - rewrite (put_ttl _ _ _ _ _ _ Hpd). apply G.
  - rewrite (put_maxSize _ _ _ _ _ _ Hpd), (Rep_Len _ _ _ H'). done.
  - rewrite (put_ttl _ _ _ _ _ _ Hpd). intros Ht b Hb.
    destruct (decide (b = a)) as [->|Hba].
    + rewrite (put_expiry _ _ _ _ _ _ Hpd). unfold new_expiry. by rewrite Ht.
    + destruct (put_other _ _ _ _ _ _ Hpd b Hba) as (_ & _ & ->).
      apply (good_noexp _ _ _ G Ht). by destruct (Hsub' b Hb).
Qed.

Lemma Get_Good now k c L A :
  Good c L A →
  ∃ r c' L' A', Get now k c = Ok (r, c') ∧ Good c' L' A' ∧
                maxSize c' = maxSize c ∧ ttl c' = ttl c.
Proof.
  intros G. pose proof (good_rep _ _ _ G) as H.
  pose proof (Get_Rep now k c L A H) as HG.
  destruct (m c !! k) as [p|].
  - destruct HG as (a & ent & -> & Ha & Hent & Hkey & HG).
    destruct (IsExpired now ent).
    + destruct HG as (c' & HG & H' & Hm' & Hd').
      exists (""%string, false), c', (without a L), (without a A).
      split; [done|]. split; [|split; apply Hd'].
      eapply Good_shrink; eauto using length_without_le.
      by intros x [? _]%elem_of_without.
    + destruct HG as (c' & HG & H' & Hm').
      exists (value ent, true), c', (a :: without a L), A.
      split; [done|]. split; [|split; apply Hm'].
      eapply Good_shrink; eauto using same_meta_data.
      * intros b [->|[? _]%elem_of_without]%elem_of_cons; done.
      * simpl. rewrite length_without; [done|apply H|done].
  - exists (""%string, false), c, L, A. done.
Qed.

Lemma Delete_Good k c L A :
  Good c L A →
  ∃ r c' L' A', Delete k c = Ok (r, c') ∧ Good c' L' A' ∧
                maxSize c' = maxSize c ∧ ttl c' = ttl c.
Proof.
  intros G. pose proof (good_rep _ _ _ G) as H.
  pose proof (Delete_Rep k c L A H) as HD.
  destruct (m c !! k) as [p|].
  - destruct HD as (a & c' & -> & Ha & Hka & HD & H' & Hm' & Hd').
    exists true, c', (without a L), (without a A).
    split; [done|]. split; [|split; apply Hd'].
    eapply Good_shrink; eauto using length_without_le.
    by intros x [? _]%elem_of_without.
  - exists false, c, L, A. done.
Qed.

Lemma step_Good o c L A :
  Good c L A →
  ∃ r c' L' A', step o c = Ok (r, c') ∧ Good c' L' A' ∧
                maxSize c' = maxSize c ∧ ttl c' = ttl c.
Proof.
  intros G. destruct o as [now now' k v|now k|k|]; simpl.
  - destruct (Put_Good now now' k v c L A G) as (c' & L' & A' & -> & G' & ?).
    by exists OutPut, c', L', A'.
  - destruct (Get_Good now k c L A G) as (r & c' & L' & A' & -> & G' & ?).
    by exists (OutGet r.1 r.2), c', L', A'.
  - destruct (Delete_Good k c L A G) as (r & c' & L' & A' & -> & G' & ?).
    by exists (OutDelete r), c', L', A'.
  - by exists (OutLen (Len c)), c, L, A.
Qed.

Lemma run_Good os : ∀ c L A,
  Good c L A →
  ∃ rs c' L' A', run os c = Ok (rs, c') ∧ Good c' L' A' ∧
                 maxSize c' = maxSize c ∧ ttl c' = ttl c.
Proof.
  induction os as [|o os IH]; intros c L A G.
  - by exists [], c, L, A.
  - destruct (step_Good o c L A G) as (r & c1 & L1 & A1 & Hs & G1 & Hms1 & Ht1).
    destruct (IH c1 L1 A1 G1) as (rs & c' & L' & A' & Hr & G' & Hms' & Ht').
    exists (r :: rs), c', L', A'. simpl. rewrite Hs. cbn [res_bind]. simpl.
    rewrite Hr. cbn [res_bind]. simpl. split; [done|]. split; [done|].
    split; congruence.
Qed.

Lemma reachable_Good c : reachable c → ∃ L A, Good c L A.
Proof.
  intros (ms & t & c0 & os & rs & HN & Hr).
  destruct (New_Good _ _ _ HN) as (G0 & _).
  destruct (run_Good os c0 [] [] G0) as (rs' & c' & L & A & Hr' & G & _).
  assert (c' = c) as -> by congruence. by exists L, A.
Qed.

Lemma run_app os1 os2 c :
  run (os1 ++ os2) c =
  do r1 <- run os1 c; do r2 <- run os2 r1.2; Ok (r1.1 ++ r2.1, r2.2).
Proof.
  revert c. induction os1 as [|o os1 IH]; intros c; simpl.
  - destruct (run os2 c) as [[rs c']|]; done.
  - destruct (step o c) as [[r c1]|]; simpl; [|done].
    rewrite IH. destruct (run os1 c1) as [[rs1 c2]|]; simpl; [|done].
    destruct (run os2 c2) as [[rs2 c3]|]; done.
Qed.

Lemma reachable_run c os rs c' :
  reachable c → run os c = Ok (rs, c') → reachable c'.
Proof.
  intros (ms & t & c0 & os0 & rs0 & HN & Hr) Hr'.
  exists ms, t, c0, (os0 ++ os), (rs0 ++ rs). split; [done|].
  rewrite run_app, Hr. cbn [res_bind]. simpl. by rewrite Hr'.
Qed.

Lemma reachable_after ms t os c : after ms t os = Ok c → reachable c.
Proof.
  unfold after. intros H. apply bind_Ok in H as (c0 & HN & H).
  apply bind_Ok in H as ([rs c'] & Hr & [= <-]).
  by exists ms, t, c0, os, rs.
Qed.

(** ** What the walks see *)

Lemma fmap_without a l :
  Node <$> without a l = filter (λ p, p ≠ Node a) (Node <$> l).
Proof.
  induction l as [|x l IH]; [done|]. unfold without in *.
  rewrite fmap_cons. destruct (decide (x = a)) as [->|Hx].
  - by rewrite !filter_cons_False by (intros ?; congruence).
  - rewrite !filter_cons_True by congruence. by rewrite fmap_cons, IH.
Qed.

Lemma keyAt_Node c a k : key_of c a = Some k → keyAt c (Node a) = k.
Proof.
  unfold key_of, keyAt. simpl. destruct (heap c !! a); [|done].
  by intros [= <-].
Qed.

Lemma Rep_keyAt c L A k p :
  Rep c L A → m c !! k = Some p ↔ p ∈ Node <$> L ∧ keyAt c p = k.
Proof.
  intros H. rewrite (rep_index _ _ _ H), list_elem_of_fmap. split.
  - intros (a & -> & Ha & Hk). split; [by exists a|]. by apply keyAt_Node.
  - intros [(a & -> & Ha) Hk]. exists a. split; [done|]. split; [done|].
    destruct (Rep_key _ _ _ _ H Ha) as [k' Hk'].
    by rewrite (keyAt_Node _ _ _ Hk') in Hk; subst.
Qed.

Lemma Rep_keys_NoDup c L A : Rep c L A → NoDup (keyAt c <$> (Node <$> L)).
Proof.
  intros H. apply NoDup_fmap_2_strong.
  - intros p q Hp Hq Hpq.
    assert (m c !! keyAt c p = Some p) as H1 by (by apply (Rep_keyAt c L A)).
    assert (m c !! keyAt c p = Some q) as H2 by (by apply (Rep_keyAt c L A)).
    congruence.
  - apply (NoDup_fmap_2 Node), H.
Qed.

Lemma Rep_dom c L A :
  Rep c L A → dom (m c) = list_to_set (keyAt c <$> (Node <$> L)).
Proof.
  intros H. apply set_eq. intros k.
  rewrite elem_of_dom, elem_of_list_to_set, list_elem_of_fmap. split.
  - intros [p Hp]. apply (Rep_keyAt c L A _ _ H) in Hp as [Hp Hk]. by exists p.
  - intros (p & -> & Hp). exists p. by apply (Rep_keyAt c L A).
Qed.

(** ** The entry that [Put] creates *)

Lemma put_data_entry now k v a c c' :
  put_data now k v a c c' →
  ∃ ent, load (Node a) c' = Ok ent ∧ key ent = k ∧ value ent = v ∧
         expiry ent = new_expiry now c.
Proof.
  intros Hpd. pose proof (put_key _ _ _ _ _ _ Hpd) as Hk.
  pose proof (put_value _ _ _ _ _ _ Hpd) as Hv.
  pose proof (put_expiry _ _ _ _ _ _ Hpd) as Hx.
  unfold key_of, value_of, expiry_of in *. simpl.
  destruct (heap c' !! a) as [ent|]; [|done].
  exists ent. simpl in *. split; [done|]. split; [congruence|].
  split; congruence.
Qed.

Lemma put_data_fresh now k v a c c' :
  put_data now k v a c c' → load (Node a) c = Panic InvalidPointer.
Proof. intros Hpd. simpl. by rewrite (put_fresh _ _ _ _ _ _ Hpd). Qed.

(** ** Expiry *)

Lemma Rep_unique c L A L' A' : Rep c L A → Rep c L' A' → L = L' ∧ A = A'.
Proof.
  intros H H'.
  pose proof (lruList_Rep _ _ _ H) as H1. rewrite (lruList_Rep _ _ _ H') in H1.
  pose proof (expList_Rep _ _ _ H) as H2. rewrite (expList_Rep _ _ _ H') in H2.
  injection H1 as H1. injection H2 as H2.
  split; by apply (inj (fmap Node)).
Qed.

Lemma Good_Rep c L A L' A' : Good c L A → Rep c L' A' → Good c L' A'.
Proof.
  intros G H'. destruct (Rep_unique c L A L' A' (good_rep _ _ _ G) H') as [<- <-].
  done.
Qed.

Lemma expiring_shrink D c c' L L' :
  expiring D c L → same_data c c' → (∀ b, b ∈ L' → b ∈ L) → expiring D c' L'.
Proof.
  intros Hx Hd Hsub a Ha. rewrite (data_expiry _ _ Hd). by apply Hx, Hsub.
Qed.

Lemma expiryAt_expiry_of c a : expiryAt c (Node a) = default 0 (expiry_of c a).
Proof. unfold expiryAt, expiry_of. simpl. by destruct (heap c !! a). Qed.

Lemma lookup_filter_index (ts : gmap string Z) (i : gmap string ptr) k :
  filter (λ kt, is_Some (i !! kt.1)) ts !! k
  = match i !! k with Some _ => ts !! k | None => None end.
Proof.
  apply option_eq. intros T. rewrite map_lookup_filter_Some. simpl.
  destruct (i !! k) as [p|].
  - split; [by intros [? _]|]. intros ?. split; [done|by eexists].
  - split; [by intros [_ [? ?]]|done].
Qed.

Lemma timed_keep ts c c' k :
  timed ts c →
  (∀ p, m c !! k = Some p → expiryAt c' p - ttl c' = expiryAt c p - ttl c) →
  match m c !! k with Some _ => ts !! k | None => None end
  = (λ p, expiryAt c' p - ttl c') <$> m c !! k.
Proof.
  intros Ht Hp. rewrite Ht. destruct (m c !! k) as [p|]; simpl; [|done].
  f_equal. symmetry. by apply Hp.
Qed.

(** One call keeps the record of the clock readings in step with the
    index. *)
Lemma step_timed o c L A ts r c' :
  Good c L A → 0 < ttl c → timed ts c → step o c = Ok (r, c') →
  timed (filter (λ kt, is_Some (m c' !! kt.1))
           match o with
           | OpPut now _ k _ => <[k := now]> ts
           | _ => ts
           end) c'.
Proof.
  intros G Httl Ht Hs k. pose proof (good_rep _ _ _ G) as H.
  rewrite lookup_filter_index.
  assert (∀ c1, same_data c c1 → ∀ p, m c !! k = Some p →
            expiryAt c1 p - ttl c1 = expiryAt c p - ttl c) as Hsame.
  { intros c1 Hd p Hp. apply (rep_index _ _ _ H) in Hp as (a & -> & _).
    by rewrite !expiryAt_expiry_of, (data_expiry _ _ Hd), (data_ttl _ _ Hd). }
  destruct o as [now now' k0 v|now k0|k0|]; simpl in Hs.
  - destruct (Put_Rep now now' k0 v c L A H) as
      (c'' & a & L1 & A1 & L' & A' & HP & H' & Hpd & Hcase & Hres).
    rewrite HP in Hs. injection Hs as _ <-.
    assert (a ∉ L) as HaL.
    { intros HaL. destruct (rep_heap _ _ _ H a HaL) as [? Hsome].
      by rewrite (put_fresh _ _ _ _ _ _ Hpd) in Hsome. }
    assert (expiryAt c'' (Node a) - ttl c'' = now) as Hnew.
    { rewrite expiryAt_expiry_of, (put_expiry _ _ _ _ _ _ Hpd).
      rewrite (put_ttl _ _ _ _ _ _ Hpd). unfold new_expiry.
      destruct (Z.ltb_spec 0 (ttl c)); simpl; lia. }
    assert (k ≠ k0 →
            match m c !! k with Some _ => <[k0:=now]> ts !! k | None => None end
            = (λ p, expiryAt c'' p - ttl c'') <$> m c !! k) as Hne.
    { intros Hk. rewrite lookup_insert_ne by done. apply timed_keep; [done|].
      intros p Hp. apply (rep_index _ _ _ H) in Hp as (b & -> & Hb & _).
      destruct (put_other _ _ _ _ _ _ Hpd b) as (_ & _ & Hx); [by intros ->|].
      by rewrite !expiryAt_expiry_of, Hx, (put_ttl _ _ _ _ _ _ Hpd). }
    destruct Hres as [(_ & _ & _ & Hm')
                     |(_ & _ & old & lru & ent & vi & kv & _ & _ & _ & _ &
                       _ & _ & Hkv & _ & _ & Hm')]; rewrite Hm'.
    + destruct (decide (k = k0)) as [->|Hk].
      * rewrite !lookup_insert_eq. simpl. by rewrite Hnew.
      * rewrite (lookup_insert_ne (m c)) by done. by apply Hne.
    + destruct (decide (k = kv)) as [->|Hkkv]; [by rewrite lookup_delete_eq|].
      rewrite lookup_delete_ne by done.
      destruct (decide (k = k0)) as [->|Hk].
      * rewrite !lookup_insert_eq. simpl. by rewrite Hnew.
      * rewrite (lookup_insert_ne (m c)) by done. by apply Hne.
  - pose proof (Get_Rep now k0 c L A H) as HG.
    destruct (m c !! k0) as [p|] eqn:Hk0.
    + destruct HG as (a & ent & -> & Ha & Hent & Hkey & HG).
      destruct (IsExpired now ent).
      * destruct HG as (c'' & HG & H'' & Hm'' & Hd'').
        rewrite HG in Hs. injection Hs as _ <-. rewrite Hm''.
        destruct (decide (k = k0)) as [->|Hk]; [by rewrite lookup_delete_eq|].
        rewrite lookup_delete_ne by done. apply timed_keep; [done|].
        by apply Hsame.
      * destruct HG as (c'' & HG & H'' & Hm'').
        rewrite HG in Hs. injection Hs as _ <-. rewrite (same_m _ _ Hm'').
        apply timed_keep; [done|]. by apply Hsame, same_meta_data.
    + rewrite HG in Hs. injection Hs as _ <-. by apply timed_keep.
  - pose proof (Delete_Rep k0 c L A H) as HD.
    destruct (m c !! k0) as [p|] eqn:Hk0.
    + destruct HD as (a & c'' & -> & Ha & Hka & HD & H'' & Hm'' & Hd'').
      rewrite HD in Hs. injection Hs as _ <-. rewrite Hm''.
      destruct (decide (k = k0)) as [->|Hk]; [by rewrite lookup_delete_eq|].
      rewrite lookup_delete_ne by done. apply timed_keep; [done|].
      by apply Hsame.
    + rewrite HD in Hs. injection Hs as _ <-. by apply timed_keep.
  - injection Hs as _ <-. by apply timed_keep.
Qed.

Lemma run_timed os : ∀ c L A ts rs c',
  Good c L A → 0 < ttl c → timed ts c → run os c = Ok (rs, c') →
  timed (put_times os c ts) c'.
Proof.
  induction os as [|o os IH]; intros c L A ts rs c' G Httl Ht Hr.
  - simpl in Hr. by injection Hr as _ <-.
  - destruct (step_Good o c L A G) as (r & c1 & L1 & A1 & Hs & G1 & _ & Ht1).
    pose proof (step_timed o c L A ts r c1 G Httl Ht Hs) as Ht'.
    simpl in Hr. simpl. rewrite Hs in *. cbn [res_bind] in Hr. simpl in Hr.
    apply bind_Ok in Hr as ([rs1 c2] & Hr & [= _ <-]). simpl.
    apply (IH c1 L1 A1 _ rs1 c2 G1); [lia|done|done].
Qed.

(** Every reading on record is the reading of a [Put] of that key in the
    history. *)
Lemma put_times_Put os : ∀ c ts k T,
  put_times os c ts !! k = Some T →
  ts !! k = Some T ∨ ∃ now' v, OpPut T now' k v ∈ os.
Proof.
  induction os as [|o os IH]; intros c ts k T HT; simpl in HT; [by left|].
  destruct (step o c) as [r|]; [|by left].
  apply IH in HT as [HT|(now' & v & Hin)].
  - rewrite lookup_filter_index in HT.
    destruct (m r.2 !! k); [|done].
    destruct o as [now now' k0 v| | |]; try by left.
    apply lookup_insert_Some in HT as [[-> ->]|[_ HT]]; [|by left].
    right. exists now', v. apply list_elem_of_here.
  - right. exists now', v. by apply list_elem_of_further.
Qed.

(** When the clock is past the reading of every [Put] of the index by more
    than the ttl, every listed entry has expired. *)
Lemma timed_expiring ts now c L A :
  Good c L A → 0 < ttl c → timed ts c →
  (∀ k T, ts !! k = Some T → 0 <= T ∧ T + ttl c < now) →
  expiring (now - 1) c L.
Proof.
  intros G Httl Ht Hts a Ha. pose proof (good_rep _ _ _ G) as H.
  destruct (Rep_key _ _ _ _ H Ha) as [k Hk].
  assert (m c !! k = Some (Node a)) as Hm.
  { apply (rep_index _ _ _ H). by exists a. }
  pose proof (Ht k) as Htk. rewrite Hm in Htk. simpl in Htk.
  destruct (Hts _ _ Htk) as [H0 Hlt].
  destruct (rep_heap _ _ _ H a Ha) as [ent Hent].
  rewrite expiryAt_expiry_of in H0, Hlt. unfold expiry_of in *.
  rewrite Hent in *. simpl in *. exists (expiry ent). split; [done|]. lia.
Qed.

Lemma Get_expiring D now k c L A :
  Good c L A → expiring D c L → D < now →
  ∃ c' L' A', Get now k c = Ok (""%string, false, c') ∧
              Good c' L' A' ∧ expiring D c' L' ∧
              m c' = base.delete k (m c).
Proof.
  intros G Hx Hnow. pose proof (good_rep _ _ _ G) as H.
  pose proof (Get_Rep now k c L A H) as HG.
  destruct (m c !! k) as [p|] eqn:Hk.
  - destruct HG as (a & ent & -> & Ha & Hent & Hkey & HG).
    destruct (Hx a Ha) as (x & Hxa & Hx0 & HxD).
    unfold expiry_of in Hxa. rewrite Hent in Hxa. injection Hxa as Hxa.
    assert (IsExpired now ent = true) as Hexp.
    { unfold IsExpired, IsZero, After. rewrite Hxa.
      destruct (Z.eqb_spec x 0); [done|]. apply Z.ltb_lt. lia. }
    rewrite Hexp in HG. destruct HG as (c' & HG & H' & Hm' & Hd').
    exists c', (without a L), (without a A). split; [done|].
    split; [|split; [|done]].
    + eapply Good_shrink; eauto using length_without_le.
      by intros y [? _]%elem_of_without.
    + eapply expiring_shrink; [done|done|].
      by intros y [? _]%elem_of_without.
  - exists c, L, A. split; [done|]. split; [done|]. split; [done|].
    by rewrite delete_id.
Qed.

Lemma gets_expiring D gs : ∀ c L A,
  Good c L A → expiring D c L → Forall (λ g, D < g.1) gs →
  ∃ rs c', run (gets gs) c = Ok (rs, c') ∧
           Forall (λ r, r = OutGet ""%string false) rs ∧
           dom (m c') = dom (m c) ∖ list_to_set gs.*2.
Proof.
  induction gs as [|[now k] gs IH]; intros c L A G Hx Hgs.
  - exists [], c. split; [done|]. split; [done|]. simpl. set_solver.
  - apply Forall_cons in Hgs as [Hg Hgs]. simpl in Hg.
    destruct (Get_expiring D now k c L A G Hx Hg) as
      (c1 & L1 & A1 & HG & G1 & Hx1 & Hm1).
    destruct (IH c1 L1 A1 G1 Hx1 Hgs) as (rs & c' & Hr & Hrs & Hdom).
    exists (OutGet ""%string false :: rs), c'.
    split; [|split].
    + simpl. rewrite HG. cbn [res_bind]. simpl. fold (gets gs).
      rewrite Hr. done.
    + by apply Forall_cons.
    + rewrite Hdom, Hm1, dom_delete_L. simpl. set_solver.
Qed.

(** ** The recency list as a list of keys *)

Lemma lruKeys_Rep c L A : Rep c L A → lruKeys c = Some (lkeys c L).
Proof. intros H. unfold lruKeys. by rewrite (lruList_Rep c L A H). Qed.

Lemma keyAt_key_of c a : keyAt c (Node a) = default ""%string (key_of c a).
Proof. unfold keyAt, key_of. simpl. by destruct (heap c !! a). Qed.

Lemma lkeys_ext c c' L :
  (∀ b, b ∈ L → key_of c' b = key_of c b) → lkeys c' L = lkeys c L.
Proof.
  intros Hk. unfold lkeys. rewrite <- !list_fmap_compose.
  apply list_fmap_ext. intros i b Hb%list_elem_of_lookup_2. simpl.
  by rewrite !keyAt_key_of, Hk.
Qed.

Lemma elem_of_lkeys c L k :
  k ∈ lkeys c L ↔ ∃ a, a ∈ L ∧ keyAt c (Node a) = k.
Proof.
  unfold lkeys. rewrite list_elem_of_fmap. split.
  - intros (p & -> & (a & -> & Ha)%list_elem_of_fmap). by exists a.
  - intros (a & Ha & <-). exists (Node a). split; [done|].
    apply list_elem_of_fmap. by exists a.
Qed.

Lemma Rep_lkeys_lookup c L A k :
  Rep c L A → k ∈ lkeys c L ↔ is_Some (m c !! k).
Proof.
  intros H. rewrite elem_of_lkeys. split.
  - intros (a & Ha & Hk). exists (Node a). apply (Rep_keyAt c L A); [done|].
    split; [|done]. apply list_elem_of_fmap. by exists a.
  - intros [p Hp]. apply (Rep_keyAt c L A) in Hp as [Hp Hk]; [|done].
    apply list_elem_of_fmap in Hp as (a & -> & Ha). by exists a.
Qed.

Lemma fmap_without_inj (f : nat → string) a l :
  (∀ b, b ∈ l → f b = f a → b = a) →
  f <$> without a l = filter (λ x, x ≠ f a) (f <$> l).
Proof.
  induction l as [|x l IH]; intros Hinj; [done|].
  unfold without in *. rewrite fmap_cons.
  destruct (decide (x = a)) as [->|Hx].
  - rewrite !filter_cons_False by (intros ?; congruence).
    apply IH. intros b Hb. apply Hinj. set_solver.
  - rewrite !filter_cons_True.
    + rewrite fmap_cons. f_equal. apply IH. intros b Hb. apply Hinj. set_solver.
    + intros Hfx. apply Hx, Hinj; [set_solver|done].
    + done.
Qed.

Lemma lkeys_without c L A a :
  Rep c L A → a ∈ L →
  lkeys c (without a L) = filter (λ x, x ≠ keyAt c (Node a)) (lkeys c L).
Proof.
  intros H Ha. unfold lkeys. rewrite <- !list_fmap_compose.
  apply (fmap_without_inj (keyAt c ∘ Node)). intros b Hb Hk. simpl in Hk.
  assert (m c !! keyAt c (Node a) = Some (Node a)) as H1.
  { apply (Rep_keyAt c L A); [done|]. split; [|done].
    apply list_elem_of_fmap. by exists a. }
  assert (m c !! keyAt c (Node a) = Some (Node b)) as H2.
  { apply (Rep_keyAt c L A); [done|]. split; [|done].
    apply list_elem_of_fmap. by exists b. }
  congruence.
Qed.

Lemma length_lkeys c L : length (lkeys c L) = length L.
Proof. unfold lkeys. by rewrite !length_fmap. Qed.

Lemma lasting_shrink D c c' L L' :
  lasting D c L → same_data c c' → (∀ b, b ∈ L' → b ∈ L) → lasting D c' L'.
Proof.
  intros Hl Hd Hsub a Ha. rewrite (data_expiry _ _ Hd). by apply Hl, Hsub.
Qed.

Lemma noexp_lasting D c L A : Good c L A → ttl c = 0 → lasting D c L.
Proof.
  intros G Ht a Ha. exists 0. split; [by apply (good_noexp _ _ _ G)|by left].
Qed.

Lemma lasting_IsExpired D now c L A a ent :
  Good c L A → lasting D c L → (0 < ttl c → now <= D) →
  a ∈ L → heap c !! a = Some ent → IsExpired now ent = false.
Proof.
  intros G Hl Hnow Ha Hent. destruct (Hl a Ha) as (x & Hx & Hcase).
  unfold expiry_of in Hx. rewrite Hent in Hx. injection Hx as Hx.
  unfold IsExpired, IsZero, After. rewrite Hx.
  destruct (Z.eqb_spec x 0) as [|Hx0]; [done|]. apply Z.ltb_ge.
  destruct Hcase as [|HD]; [done|].
  destruct (decide (ttl c = 0)) as [Ht|Ht].
  - pose proof (good_noexp _ _ _ G Ht a Ha) as Hz. unfold expiry_of in Hz.
    rewrite Hent in Hz. injection Hz as Hz. congruence.
  - pose proof (good_ttl _ _ _ G). lia.
Qed.

(** A [Get] of a listed key, at a clock reading at which no entry has
    expired. *)
Lemma Get_keys D now k c L A :
  Good c L A → lasting D c L → (0 < ttl c → now <= D) → k ∈ lkeys c L →
  ∃ v c' L' A', Get now k c = Ok (v, true, c') ∧ Good c' L' A' ∧
                lasting D c' L' ∧ ttl c' = ttl c ∧ maxSize c' = maxSize c ∧
                lkeys c' L' = k :: filter (λ x, x ≠ k) (lkeys c L).
Proof.
  intros G Hl Hnow Hk. pose proof (good_rep _ _ _ G) as H.
  apply (Rep_lkeys_lookup c L A k H) in Hk as [p Hp].
  pose proof (Get_Rep now k c L A H) as HG. rewrite Hp in HG.
  destruct HG as (a & ent & -> & Ha & Hent & Hkey & HG).
  rewrite (lasting_IsExpired D now c L A a ent G Hl Hnow Ha Hent) in HG.
  destruct HG as (c' & HG & H' & Hm').
  destruct (Get_Good now k c L A G) as (r & c'' & L'' & A'' & HG' & G' & Hms & Ht).
  rewrite HG in HG'. injection HG' as <- <-.
  exists (value ent), c', (a :: without a L), A.
  split; [done|]. split; [by apply (Good_Rep c' L'' A'')|].
  split.
  { eapply lasting_shrink; [done|by apply same_meta_data|].
    intros b [->|[? _]%elem_of_without]%elem_of_cons; done. }
  split; [done|]. split; [done|].
  assert (keyAt c (Node a) = k) as Hka.
  { unfold keyAt. simpl. by rewrite Hent. }
  rewrite (lkeys_ext c c') by (intros b _; apply (same_key _ _ Hm')).
  change (lkeys c (a :: without a L))
    with (keyAt c (Node a) :: lkeys c (without a L)).
  by rewrite (lkeys_without c L A a H Ha), Hka.
Qed.

(** A [Put] of a key that is not listed, on a bounded cache, when no entry
    has expired at the clock reading of [trim]. *)
Lemma Put_keys D now now' k v c L A :
  Good c L A → lasting D c L → (0 < ttl c → now' <= D <= now + ttl c) →
  0 < maxSize c → k ∉ lkeys c L →
  ∃ c' L' A', Put now now' k v c = Ok c' ∧ Good c' L' A' ∧
              lasting D c' L' ∧ ttl c' = ttl c ∧ maxSize c' = maxSize c ∧
              lkeys c' L' = take (Z.to_nat (maxSize c)) (k :: lkeys c L).
Proof.
  intros G Hl Hnow Hms Hk. pose proof (good_rep _ _ _ G) as H.
  assert (m c !! k = None) as Hnone.
  { destruct (m c !! k) eqn:Hmk; [|done]. destruct Hk.
    apply (Rep_lkeys_lookup c L A k H). by eexists. }
  destruct (Put_Rep now now' k v c L A H) as
    (c' & a & L1 & A1 & L' & A' & HP & H' & Hpd & Hcase & Hres).
  rewrite Hnone in Hcase. destruct Hcase as [-> ->].
  destruct (Put_Good now now' k v c L A G) as (c'' & L'' & A'' & HP' & G' & Hms' & Ht').
  rewrite HP in HP'. injection HP' as <-.
  exists c', L', A'. split; [done|].
  split; [by apply (Good_Rep c' L'' A'')|].
  assert (a ∉ L) as HaL.
  { intros HaL. destruct (rep_heap _ _ _ H a HaL) as [? Hsome].
    by rewrite (put_fresh _ _ _ _ _ _ Hpd) in Hsome. }
  assert (∀ b, b ∈ L' → b = a ∨ b ∈ L) as Hsub.
  { destruct Hres as [(_ & -> & _)
                     |(_ & _ & old & lru & ent & vi & kv & _ & _ & _ & _ &
                       _ & _ & _ & -> & _)].
    - intros b [->|?]%elem_of_cons; [by left|by right].
    - intros b [->|[? _]%elem_of_without]%elem_of_cons; [by left|by right]. }
  split.
  { intros b Hb. destruct (decide (b = a)) as [->|Hba].
    - rewrite (put_expiry _ _ _ _ _ _ Hpd). unfold new_expiry.
      destruct (Z.ltb_spec 0 (ttl c)).
      + exists (now + ttl c). split; [done|]. right. lia.
      + exists 0. split; [done|]. by left.
    - destruct (put_other _ _ _ _ _ _ Hpd b Hba) as (_ & _ & ->).
      apply Hl. by destruct (Hsub b Hb). }
  split; [done|]. split; [done|].
  assert (keyAt c' (Node a) = k) as Hka.
  { apply keyAt_Node, Hpd. }
  assert (∀ l, (∀ b, b ∈ l → b ∈ L) → lkeys c' l = lkeys c l) as Hext.
  { intros l Hl'. apply lkeys_ext. intros b Hb. apply Hpd. intros ->.
    by apply HaL, Hl'. }
  pose proof (good_bound _ _ _ G Hms) as Hb.
  rewrite (Rep_Len _ _ _ H) in Hb.
  destruct Hres as [(Hno & -> & -> & _)
                   |(_ & Hgt & old & lru & ent & vi & kv & Hold & Hlru & Hent &
                     Hvi & HviL & _ & _ & -> & -> & _)].
  - change (lkeys c' (a :: L)) with (keyAt c' (Node a) :: lkeys c' L).
    rewrite Hka, Hext by done. symmetry. apply take_ge. simpl.
    rewrite length_lkeys. lia.
  - assert (old ∈ L) as HoldL.
    { rewrite <- (rep_perm _ _ _ H). by apply last_Some_elem_of. }
    assert (IsExpired now' ent = false) as Hne.
    { apply (lasting_IsExpired D now' c L A old ent G Hl); [lia|done|done]. }
    rewrite Hne in Hvi. subst vi.
    apply last_Some in Hlru as [L0 ->].
    rewrite without_middle by apply H. rewrite app_nil_r.
    change (lkeys c' (a :: L0)) with (keyAt c' (Node a) :: lkeys c' L0).
    rewrite Hka, Hext by set_solver.
    rewrite length_app in Hb, Hgt. simpl in Hb, Hgt.
    assert (Z.to_nat (maxSize c) = S (length L0)) as -> by lia.
    simpl. f_equal. unfold lkeys. rewrite !fmap_app.
    symmetry. apply take_app_length'. by rewrite !length_fmap.
Qed.

Lemma take_app_take {X} n (xs ys : list X) :
  take n (xs ++ take n ys) = take n (xs ++ ys).
Proof.
  rewrite !take_app, take_take. do 2 f_equal. lia.
Qed.

Lemma filter_none {X} (P : X → Prop) `{∀ x, Decision (P x)} (l : list X) :
  (∀ x, x ∈ l → ¬ P x) → filter P l = [].
Proof.
  induction l as [|x l IH]; intros Hl; [done|].
  rewrite filter_cons_False by (apply Hl; set_solver).
  apply IH. intros y Hy. apply Hl. set_solver.
Qed.

Lemma run_length os : ∀ c rs c',
  run os c = Ok (rs, c') → length rs = length os.
Proof.
  induction os as [|o os IH]; intros c rs c' Hr; simpl in Hr.
  - by injection Hr as <- _.
  - apply bind_Ok in Hr as (r & _ & Hr).
    apply bind_Ok in Hr as ([rs1 c1] & Hr & [= <- _]).
    simpl. f_equal. by eapply IH.
Qed.

Lemma gets_keys D gs : ∀ c L A,
  Good c L A → lasting D c L → (0 < ttl c → Forall (λ g, g.1 <= D) gs) →
  NoDup gs.*2 → (∀ k, k ∈ gs.*2 → k ∈ lkeys c L) →
  ∃ rs c' L' A',
    run (gets gs) c = Ok (rs, c') ∧ Good c' L' A' ∧ lasting D c' L' ∧
    ttl c' = ttl c ∧ maxSize c' = maxSize c ∧
    Forall (λ r, ∃ v, r = OutGet v true) rs ∧
    lkeys c' L' = reverse gs.*2 ++ filter (λ x, x ∉ gs.*2) (lkeys c L).
Proof.
  induction gs as [|[now k] gs IH]; intros c L A G Hl Hgs Hnd Hin.
  - exists [], c, L, A. split; [done|]. split; [done|]. split; [done|].
    split; [done|]. split; [done|]. split; [done|]. simpl.
    symmetry. clear. induction (lkeys c L) as [|x l IHl]; [done|].
    rewrite filter_cons_True by apply not_elem_of_nil. by rewrite IHl.
  - simpl in Hnd, Hin. apply NoDup_cons in Hnd as [Hk Hnd].
    destruct (Get_keys D now k c L A G Hl) as
      (v & c1 & L1 & A1 & HG & G1 & Hl1 & Ht1 & Hms1 & Hk1).
    { intros Hpos. exact (Forall_inv (Hgs Hpos)). }
    { apply Hin. set_solver. }
    destruct (IH c1 L1 A1 G1 Hl1) as
      (rs & c' & L' & A' & Hr & G' & Hl' & Ht' & Hms' & Hrs & Hk').
    { rewrite Ht1. intros Hpos. exact (Forall_inv_tail (Hgs Hpos)). }
    { done. }
    { intros k' Hk'. rewrite Hk1. apply elem_of_cons. right.
      apply list_elem_of_filter. split; [by intros ->|]. apply Hin. set_solver. }
    exists (OutGet v true :: rs), c', L', A'.
    split.
    { simpl. rewrite HG. cbn [res_bind]. simpl. fold (gets gs).
      by rewrite Hr. }
    split; [done|]. split; [done|]. split; [congruence|]. split; [congruence|].
    split; [apply Forall_cons; split; [by exists v|done]|].
    rewrite Hk', Hk1. simpl. rewrite filter_cons_True by done.
    rewrite reverse_cons, <- app_assoc. simpl. do 2 f_equal.
    rewrite list_filter_filter. apply list_filter_iff. intros x.
    rewrite not_elem_of_cons. tauto.
Qed.

Lemma puts_keys D ps : ∀ c L A,
  Good c L A → lasting D c L →
  (0 < ttl c → Forall (λ p, p.1.1.2 <= D <= p.1.1.1 + ttl c) ps) →
  0 < maxSize c → NoDup (put_keys ps) →
  (∀ k, k ∈ put_keys ps → k ∉ lkeys c L) →
  ∃ rs c' L' A',
    run (puts ps) c = Ok (rs, c') ∧ Good c' L' A' ∧ lasting D c' L' ∧
    ttl c' = ttl c ∧ maxSize c' = maxSize c ∧
    lkeys c' L' =
    take (Z.to_nat (maxSize c)) (reverse (put_keys ps) ++ lkeys c L).
Proof.
  induction ps as [|[[[now now'] k] v] ps IH]; intros c L A G Hl Hps Hms Hnd Hout.
  - exists [], c, L, A. split; [done|]. split; [done|]. split; [done|].
    split; [done|]. split; [done|]. simpl. symmetry. apply take_ge.
    rewrite length_lkeys.
    pose proof (good_bound _ _ _ G Hms) as Hb.
    rewrite (Rep_Len _ _ _ (good_rep _ _ _ G)) in Hb. lia.
  - simpl in Hnd, Hout. apply NoDup_cons in Hnd as [Hk Hnd].
    destruct (Put_keys D now now' k v c L A G Hl) as
      (c1 & L1 & A1 & HP & G1 & Hl1 & Ht1 & Hms1 & Hk1).
    { intros Hpos. exact (Forall_inv (Hps Hpos)). }
    { done. }
    { apply Hout. set_solver. }
    destruct (IH c1 L1 A1 G1 Hl1) as
      (rs & c' & L' & A' & Hr & G' & Hl' & Ht' & Hms' & Hk').
    { rewrite Ht1. intros Hpos. exact (Forall_inv_tail (Hps Hpos)). }
    { lia. }
    { done. }
    { intros k' Hk' Hin. rewrite Hk1 in Hin.
      apply subseteq_take in Hin. apply elem_of_cons in Hin as [->|Hin]; [done|].
      apply (Hout k'); [set_solver|done]. }
    exists (OutPut :: rs), c', L', A'.
    split.
    { simpl. rewrite HP. cbn [res_bind]. simpl. fold (puts ps).
      by rewrite Hr. }
    split; [done|]. split; [done|]. split; [congruence|]. split; [congruence|].
    rewrite Hk', Hk1, Hms1, take_app_take. simpl.
    by rewrite reverse_cons, <- app_assoc.
Qed.

(** On a well-formed cache, an entry of the index that is not expired at
    [D] does not expire before [D]. *)
Lemma index_lasting D c L A :
  Good c L A →
  (0 < ttl c → map_Forall (λ _ p, expiredAt D c p = false) (m c)) →
  lasting D c L.
Proof.
  intros G Hidx. pose proof (good_rep _ _ _ G) as H.
  destruct (decide (ttl c = 0)) as [Ht|Ht]; [by eapply noexp_lasting|].
  pose proof (good_ttl _ _ _ G). intros a Ha.
  destruct (Rep_key _ _ _ _ H Ha) as [k Hk].
  assert (m c !! k = Some (Node a)) as Hm.
  { apply (rep_index _ _ _ H). by exists a. }
  destruct (rep_heap _ _ _ H a Ha) as [ent Hent].
  pose proof (Hidx ltac:(lia) k (Node a) Hm) as Hx. simpl in Hx.
  unfold expiredAt in Hx. simpl in Hx. rewrite Hent in Hx.
  exists (expiry ent). split; [unfold expiry_of; by rewrite Hent|].
  unfold IsExpired, IsZero, After in Hx.
  destruct (Z.eqb_spec (expiry ent) 0); [by left|]. right.
  by apply Z.ltb_ge.
Qed.

(** ** The scenarios of the specification and of the tests *)

(** The scenario of section 8 of the specification. *)
Example scenario_capacity_two :
  (do c <- New 2 0;
   run [OpPut 1 1 "a" "1"; OpPut 2 2 "b" "2"; OpGet 3 "a"; OpPut 4 4 "c" "3";
        OpGet 5 "b"; OpGet 6 "a"; OpGet 7 "c"; OpLen] c)
  = Ok ([OutPut; OutPut; OutGet "1" true; OutPut; OutGet "" false;
         OutGet "1" true; OutGet "3" true; OutLen 2],
        demo 2 0 [OpPut 1 1 "a" "1"; OpPut 2 2 "b" "2"; OpGet 3 "a";
                  OpPut 4 4 "c" "3"; OpGet 5 "b"; OpGet 6 "a"; OpGet 7 "c"]).
Proof. vm_compute. reflexivity. Qed.

(** [TestExpiry] in small: the first key is kept the most recently used, but
    it is the oldest and it has expired when the third key comes, so it is
    the one that goes; later every key has expired. *)
Example scenario_expiry_first :
  (do c <- New 2 100;
   do r <- run [OpPut 0 0 "a" "1"; OpGet 50 "a"; OpPut 51 51 "b" "2";
                OpGet 52 "a"; OpPut 101 101 "c" "3"; OpGet 102 "a";
                OpGet 103 "b"; OpGet 104 "c"; OpLen;
                OpGet 300 "b"; OpGet 300 "c"; OpLen] c;
   Ok r.1)
  = Ok [OutPut; OutGet "1" true; OutPut; OutGet "1" true; OutPut;
        OutGet "" false; OutGet "2" true; OutGet "3" true; OutLen 2;
        OutGet "" false; OutGet "" false; OutLen 0].
Proof. vm_compute. reflexivity. Qed.

(** [New] refuses negative arguments. *)
Example scenario_New_negative :
  New (-1) 0 = Panic InvalidMaxSize ∧ New 0 (-1) = Panic InvalidTtl.
Proof. done. Qed.

(** * The claims *)

(** C1 (bounded size).  On a cache built by [New] with [maxSize > 0], after
    each call of a sequence of public calls, that is, after every prefix
    [take n os] of the sequence, the size of the index, which is what [Len]
    returns, is at most [maxSize]. *)
Theorem C1_len_bounded ms t c0 os n :
  New ms t = Ok c0 → 0 < ms →
  ∃ rs c, run (take n os) c0 = Ok (rs, c) ∧
          Len c <= ms ∧ step OpLen c = Ok (OutLen (Len c), c).
Proof.
  intros HN Hms. destruct (New_Good _ _ _ HN) as (G0 & Hms0 & _).
  destruct (run_Good (take n os) c0 [] [] G0) as
    (rs & c & L & A & Hr & G & Hms' & _).
  exists rs, c. split; [done|]. split; [|done].
  rewrite <- Hms0, <- Hms'. apply (good_bound _ _ _ G). lia.
Qed.

Lemma C1_len_bounded_witness :
  New 1 0 = Ok (mkCache 1 0 (mkEntry "" "" 0 Nil Tail Nil Tail)
                  (mkEntry "" "" 0 Head Nil Head Nil) ∅ ∅) ∧
  0 < 1 ∧
  ∃ rs c,
    run (take 3 [OpPut 1 1 "a" "1"; OpPut 2 2 "b" "2"; OpGet 3 "a";
                 OpPut 4 4 "c" "3"])
      (mkCache 1 0 (mkEntry "" "" 0 Nil Tail Nil Tail)
         (mkEntry "" "" 0 Head Nil Head Nil) ∅ ∅) = Ok (rs, c) ∧
    Len c <= 1 ∧ step OpLen c = Ok (OutLen (Len c), c).
Proof.
  split; [reflexivity|]. split; [lia|].
  apply (C1_len_bounded 1 0); [reflexivity|lia].
Defined.

(** C2 (the choice of [trim]).  Let [c2] be the state in which [Put] calls
    [trim], on a reachable cache.  When [maxSize > 0] and [c2] holds more
    than [maxSize] entries, [Put] returns after exactly one entry has gone:
    the entry at the tail of the age list of [c2] when it is expired, even
    if another entry is at the tail of the recency list, and the entry at the
    tail of the recency list otherwise.  The size is then [maxSize]. *)
Theorem C2_trim_policy now now' k v c c2 :
  reachable c → Put_pre now k v c = Ok c2 →
  0 < maxSize c2 → maxSize c2 < Len c2 →
  ∃ l l' old lru ent victim c',
    lruList c2 = Some l ∧ expList c2 = Some l' ∧
    last l' = Some old ∧ last l = Some lru ∧ load old c2 = Ok ent ∧
    victim = (if IsExpired now' ent then old else lru) ∧
    Put now now' k v c = Ok c' ∧
    victim ∈ l ∧ victim ∈ l' ∧
    lruList c' = Some (filter (λ p, p ≠ victim) l) ∧
    expList c' = Some (filter (λ p, p ≠ victim) l') ∧
    m c' = base.delete (keyAt c2 victim) (m c2) ∧
    Len c' = Len c2 - 1 ∧ Len c' = maxSize c'.
Proof.
  intros (L & A & G)%reachable_Good Hpre Hms Hlen.
  pose proof (good_rep _ _ _ G) as H.
  destruct (Put_pre_Rep now k v c L A H) as
    (c2' & a & L1 & A1 & Hpre' & H2 & Hpd & Hm2 & HaL1 & Hnd1 & Hsub & Hcase).
  assert (c2' = c2) as -> by congruence.
  pose proof (Rep_Len _ _ _ H2) as HLen2.
  destruct (trim_Rep now' c2 _ _ H2) as
    [[Hno Htrim]
    |(_ & _ & old & lru & ent & victim & kv & c' & Hold & Hlru & Hent &
      Hvi & HvL & Hkv & Htrim & H' & Hm' & Hd')]; [lia|].
  exists (Node <$> a :: L1), (Node <$> a :: A1), (Node old), (Node lru), ent,
    (Node victim), c'.
  split; [by apply (lruList_Rep c2 _ (a :: A1))|].
  split; [by apply (expList_Rep c2 (a :: L1))|].
  split; [by rewrite fmap_last, Hold|].
  split; [by rewrite fmap_last, Hlru|].
  split; [simpl; by rewrite Hent|].
  split; [rewrite Hvi; by destruct (IsExpired now' ent)|].
  split; [by rewrite Put_pre_trim, Hpre|].
  split; [apply list_elem_of_fmap; by exists victim|].
  split; [apply list_elem_of_fmap; exists victim; by rewrite (rep_perm _ _ _ H2)|].
  split; [rewrite <- fmap_without; by eapply lruList_Rep|].
  split; [rewrite <- fmap_without; by eapply expList_Rep|].
  split; [by rewrite (keyAt_Node _ _ _ Hkv)|].
  assert (Len c' = Len c2 - 1) as HLen'.
  { rewrite (Rep_Len _ _ _ H'), HLen2.
    pose proof (length_without victim _ (rep_nodup _ _ _ H2) HvL). lia. }
  split; [done|].
  rewrite (data_maxSize _ _ Hd').
  assert (maxSize c2 = maxSize c) as Hmsc by apply Hpd.
  assert (0 < maxSize c) as Hms' by lia.
  pose proof (good_bound _ _ _ G Hms') as Hb.
  rewrite (Rep_Len _ _ _ H) in Hb.
  assert (length L1 ≤ length L)%nat.
  { destruct (m c !! k).
    - destruct Hcase as (b & _ & _ & -> & _). apply length_without_le.
    - by destruct Hcase as [-> _]. }
  simpl length in HLen2. lia.
Qed.

Lemma C2_trim_policy_witness :
  let c := demo 2 5 [OpPut 1 1 "a" "1"; OpPut 2 2 "b" "2"; OpGet 3 "a"] in
  let c2 := match Put_pre 4 "c" "3" c with Ok x => x | Panic _ => c end in
  reachable c ∧ Put_pre 4 "c" "3" c = Ok c2 ∧
  0 < maxSize c2 ∧ maxSize c2 < Len c2 ∧
  ∃ l l' old lru ent victim c',
    lruList c2 = Some l ∧ expList c2 = Some l' ∧
    last l' = Some old ∧ last l = Some lru ∧ load old c2 = Ok ent ∧
    victim = (if IsExpired 7 ent then old else lru) ∧
    Put 4 7 "c" "3" c = Ok c' ∧
    victim ∈ l ∧ victim ∈ l' ∧
    lruList c' = Some (filter (λ p, p ≠ victim) l) ∧
    expList c' = Some (filter (λ p, p ≠ victim) l') ∧
    m c' = base.delete (keyAt c2 victim) (m c2) ∧
    Len c' = Len c2 - 1 ∧ Len c' = maxSize c'.
Proof.
  intros c c2.
  assert (reachable c) as Hr.
  { apply (reachable_after 2 5
             [OpPut 1 1 "a" "1"; OpPut 2 2 "b" "2"; OpGet 3 "a"]).
    vm_compute. reflexivity. }
  assert (Put_pre 4 "c" "3" c = Ok c2) as Hpre by (vm_compute; reflexivity).
  assert (0 < maxSize c2) as H1 by (vm_compute; reflexivity).
  assert (maxSize c2 < Len c2) as H2 by (vm_compute; reflexivity).
  split; [exact Hr|]. split; [exact Hpre|]. split; [exact H1|].
  split; [exact H2|].
  exact (C2_trim_policy 4 7 "c" "3" c c2 Hr Hpre H1 H2).
Defined.

(** C3 (I1 and I2).  After every sequence of public calls on a new cache,
    both walks from the head sentinel arrive at the tail sentinel; the
    recency list and the age list hold the same entries, each of them once,
    none of them a sentinel or nil; and the index maps a key to an entry
    exactly when that entry is on the lists and carries that key, so that the
    keys of the index are the keys of the listed entries, each listed once. *)
Theorem C3_index_matches_lists ms t c0 os :
  New ms t = Ok c0 →
  ∃ rs c l l',
    run os c0 = Ok (rs, c) ∧
    lruList c = Some l ∧ expList c = Some l' ∧
    NoDup l ∧ NoDup l' ∧ l' ≡ₚ l ∧
    (∀ p, p ∈ l → ∃ a, p = Node a) ∧
    (∀ k p, m c !! k = Some p ↔ p ∈ l ∧ keyAt c p = k) ∧
    (∀ k p, m c !! k = Some p ↔ p ∈ l' ∧ keyAt c p = k) ∧
    dom (m c) = list_to_set (keyAt c <$> l) ∧
    NoDup (keyAt c <$> l).
Proof.
  intros HN. destruct (New_Good _ _ _ HN) as (G0 & _).
  destruct (run_Good os c0 [] [] G0) as (rs & c & L & A & Hr & G & _).
  pose proof (good_rep _ _ _ G) as H.
  exists rs, c, (Node <$> L), (Node <$> A).
  split; [done|]. split; [by apply (lruList_Rep c L A)|].
  split; [by apply (expList_Rep c L A)|].
  split; [apply (NoDup_fmap_2 Node), H|].
  split; [apply (NoDup_fmap_2 Node); rewrite (rep_perm _ _ _ H); apply H|].
  split; [by rewrite (rep_perm _ _ _ H)|].
  split; [intros p (a & -> & _)%list_elem_of_fmap; by exists a|].
  split; [intros k p; by apply (Rep_keyAt c L A)|].
  split.
  { intros k p. rewrite (Rep_keyAt c L A) by done.
    by rewrite (rep_perm _ _ _ H). }
  split; [by apply (Rep_dom c L A)|by apply (Rep_keys_NoDup c L A)].
Qed.

Lemma C3_index_matches_lists_witness :
  New 2 5 = Ok (mkCache 2 5 (mkEntry "" "" 0 Nil Tail Nil Tail)
                  (mkEntry "" "" 0 Head Nil Head Nil) ∅ ∅) ∧
  ∃ rs c l l',
    run [OpPut 1 1 "a" "1"; OpPut 2 2 "b" "2"; OpGet 3 "a"; OpDelete "b";
         OpPut 9 9 "c" "3"; OpLen]
      (mkCache 2 5 (mkEntry "" "" 0 Nil Tail Nil Tail)
         (mkEntry "" "" 0 Head Nil Head Nil) ∅ ∅) = Ok (rs, c) ∧
    lruList c = Some l ∧ expList c = Some l' ∧
    NoDup l ∧ NoDup l' ∧ l' ≡ₚ l ∧
    (∀ p, p ∈ l → ∃ a, p = Node a) ∧
    (∀ k p, m c !! k = Some p ↔ p ∈ l ∧ keyAt c p = k) ∧
    (∀ k p, m c !! k = Some p ↔ p ∈ l' ∧ keyAt c p = k) ∧
    dom (m c) = list_to_set (keyAt c <$> l) ∧
    NoDup (keyAt c <$> l).
Proof.
  split; [reflexivity|]. apply (C3_index_matches_lists 2 5). reflexivity.
Defined.

(** C4 ([Get] promotes).  In a reachable state, a [Get] of a key whose
    entry is not expired returns the value with [ok = true], takes the entry
    from its place on the recency list to the head of that list, and leaves
    the age list and the index as they are.  Consequently, on a bounded
    cache, with or without a ttl, when no entry expires before the clock
    readings of the calls ([D] is a time that no reading is past and that no
    expiry is before), after [Get]s of distinct keys of the cache, in the
    order [gs], and [Put]s of distinct new keys, in the order [ps], the
    recency list is the first [maxSize] keys of: the new keys, last put
    first; the keys read, in the reverse of the order in which they were
    read; the keys not read, in their previous order.  The insertions evict
    from the far end of that list, so the least recently touched key goes
    first: the keys not read, and after them the keys read, first read first
    evicted.  In particular, when the cache is at capacity and every key has
    been read, the insertions have evicted the first [length ps] keys read,
    and the other keys read are still there. *)
Theorem C4_Get_promotes c :
  reachable c →
  (∀ now k e ent,
     m c !! k = Some e → load e c = Ok ent → IsExpired now ent = false →
     ∃ c' l l',
       Get now k c = Ok (value ent, true, c') ∧
       lruList c = Some l ∧ expList c = Some l' ∧ e ∈ l ∧
       lruList c' = Some (e :: filter (λ p, p ≠ e) l) ∧
       expList c' = Some l' ∧ m c' = m c) ∧
  (∀ D keys gs ps,
     0 < maxSize c → lruKeys c = Some keys →
     NoDup gs.*2 → (∀ k, k ∈ gs.*2 → k ∈ keys) →
     NoDup (put_keys ps) → (∀ k, k ∈ put_keys ps → k ∉ keys) →
     (0 < ttl c →
      map_Forall (λ _ p, expiredAt D c p = false) (m c) ∧
      Forall (λ g, g.1 <= D) gs ∧
      Forall (λ p, p.1.1.2 <= D <= p.1.1.1 + ttl c) ps) →
     ∃ rs1 rs2 c',
       run (gets gs ++ puts ps) c = Ok (rs1 ++ rs2, c') ∧
       length rs1 = length gs ∧
       Forall (λ r, ∃ v, r = OutGet v true) rs1 ∧
       lruKeys c' =
       Some (take (Z.to_nat (maxSize c))
               (reverse (put_keys ps) ++ reverse gs.*2 ++
                filter (λ x, x ∉ gs.*2) keys)) ∧
       (Len c = maxSize c → keys ≡ₚ gs.*2 → (length ps ≤ length gs)%nat →
        lruKeys c' =
        Some (reverse (put_keys ps) ++ reverse (drop (length ps) gs.*2)) ∧
        (∀ k, k ∈ take (length ps) gs.*2 → m c' !! k = None) ∧
        (∀ k, k ∈ drop (length ps) gs.*2 → is_Some (m c' !! k)))).
Proof.
  intros (L & A & G)%reachable_Good. pose proof (good_rep _ _ _ G) as H.
  split.
  - intros now k e ent Hk He Hne.
    pose proof (Get_Rep now k c L A H) as HG. rewrite Hk in HG.
    destruct HG as (a & ent' & -> & Ha & Hent & Hkey & HG).
    assert (ent' = ent) as -> by (simpl in He; rewrite Hent in He; congruence).
    rewrite Hne in HG. destruct HG as (c' & HG & H' & Hm').
    exists c', (Node <$> L), (Node <$> A). split; [done|].
    split; [by apply (lruList_Rep c L A)|].
    split; [by apply (expList_Rep c L A)|].
    split; [apply list_elem_of_fmap; by exists a|].
    split.
    { rewrite <- fmap_without. apply (lruList_Rep c' (a :: without a L) A H'). }
    split; [by apply (expList_Rep c' (a :: without a L))|apply Hm'].
  - intros D keys gs ps Hms Hkeys Hndg Hin Hndp Hout Hlive.
    rewrite (lruKeys_Rep c L A H) in Hkeys. injection Hkeys as <-.
    assert (lasting D c L) as Hl.
    { apply (index_lasting D c L A G). intros Hpos. by destruct (Hlive Hpos). }
    destruct (gets_keys D gs c L A G Hl) as
      (rs1 & c1 & L1 & A1 & Hr1 & G1 & Hl1 & Ht1 & Hms1 & Hrs1 & Hk1).
    { intros Hpos. by destruct (Hlive Hpos) as (_ & ? & _). }
    { done. }
    { done. }
    destruct (puts_keys D ps c1 L1 A1 G1 Hl1) as
      (rs2 & c2 & L2 & A2 & Hr2 & G2 & Hl2 & Ht2 & Hms2 & Hk2).
    { rewrite Ht1. intros Hpos. by destruct (Hlive Hpos) as (_ & _ & ?). }
    { lia. }
    { done. }
    { intros k Hk. rewrite Hk1, elem_of_app, elem_of_reverse.
      intros [Hg|[_ Hl']%list_elem_of_filter].
      - apply (Hout k Hk). by apply Hin.
      - by apply (Hout k Hk). }
    assert (length rs1 = length gs) as Hlen1.
    { rewrite (run_length _ _ _ _ Hr1). unfold gets. by rewrite length_fmap. }
    exists rs1, rs2, c2.
    split; [rewrite run_app, Hr1; cbn [res_bind]; simpl; by rewrite Hr2|].
    split; [done|]. split; [done|].
    pose proof (good_rep _ _ _ G2) as H2.
    rewrite (lruKeys_Rep c2 L2 A2 H2).
    split; [by rewrite Hk2, Hk1, Hms1|]. intros Hcap Hperm Hle.
    assert (lkeys c2 L2 =
            reverse (put_keys ps) ++ reverse (drop (length ps) gs.*2)) as Hfin.
    { rewrite Hk2, Hk1, Hms1.
      rewrite filter_none, app_nil_r by (intros x Hx; rewrite <- Hperm; tauto).
      rewrite (Rep_Len _ _ _ H) in Hcap.
      assert (length gs.*2 = length L) as HlenL.
      { by rewrite <- Hperm, length_lkeys. }
      assert (length (put_keys ps) = length ps) as Hlenp.
      { unfold put_keys. by rewrite length_fmap. }
      rewrite length_fmap in HlenL.
      rewrite take_app, length_reverse, Hlenp.
      rewrite take_ge by (rewrite length_reverse, Hlenp; lia).
      f_equal. rewrite take_reverse. do 2 f_equal.
      rewrite length_fmap. lia. }
    split; [by rewrite Hfin|].
    rewrite <- (take_drop (length ps) gs.*2) in Hndg.
    apply NoDup_app in Hndg as (_ & Hdisj & _).
    assert (∀ k, k ∈ gs.*2 → k ∉ put_keys ps) as Hold.
    { intros k Hk Hp. by apply (Hout k Hp), Hin. }
    split.
    + intros k Hk. destruct (m c2 !! k) as [p|] eqn:Hmk; [|done]. exfalso.
      assert (k ∈ lkeys c2 L2) as Hkl.
      { apply (Rep_lkeys_lookup c2 L2 A2 k H2). by eexists. }
      rewrite Hfin, elem_of_app, !elem_of_reverse in Hkl.
      destruct Hkl as [Hkp|Hkd].
      * apply (Hold k); [|done]. by apply (subseteq_take (length ps)).
      * by apply (Hdisj k).
    + intros k Hk. apply (Rep_lkeys_lookup c2 L2 A2 k H2).
      rewrite Hfin, elem_of_app, !elem_of_reverse. by right.
Qed.

Lemma C4_Get_promotes_witness :
  let c := demo 3 1000
             [OpPut 1 1 "a" "1"; OpPut 2 2 "b" "2"; OpPut 3 3 "c" "3"] in
  let ent := match load (Node 1) c with Ok e => e | Panic _ => zeroEntry end in
  let keys := ["c"; "b"; "a"]%string in
  let gs := [(4, "b"); (5, "a"); (6, "c")]%string in
  let ps := [(7, 7, "d", "4"); (8, 8, "e", "5")]%string in
  reachable c ∧
  (m c !! "b"%string = Some (Node 1) ∧ load (Node 1) c = Ok ent ∧
   IsExpired 9 ent = false ∧
   ∃ c' l l',
     Get 9 "b" c = Ok (value ent, true, c') ∧
     lruList c = Some l ∧ expList c = Some l' ∧ Node 1 ∈ l ∧
     lruList c' = Some (Node 1 :: filter (λ p, p ≠ Node 1) l) ∧
     expList c' = Some l' ∧ m c' = m c) ∧
  (0 < maxSize c ∧ lruKeys c = Some keys ∧
   NoDup gs.*2 ∧ (∀ k, k ∈ gs.*2 → k ∈ keys) ∧
   NoDup (put_keys ps) ∧ (∀ k, k ∈ put_keys ps → k ∉ keys) ∧
   (0 < ttl c →
    map_Forall (λ _ p, expiredAt 8 c p = false) (m c) ∧
    Forall (λ g, g.1 <= 8) gs ∧
    Forall (λ p, p.1.1.2 <= 8 <= p.1.1.1 + ttl c) ps) ∧
   ∃ rs1 rs2 c',
     run (gets gs ++ puts ps) c = Ok (rs1 ++ rs2, c') ∧
     length rs1 = length gs ∧
     Forall (λ r, ∃ v, r = OutGet v true) rs1 ∧
     lruKeys c' =
     Some (take (Z.to_nat (maxSize c))
             (reverse (put_keys ps) ++ reverse gs.*2 ++
              filter (λ x, x ∉ gs.*2) keys)) ∧
     (Len c = maxSize c → keys ≡ₚ gs.*2 → (length ps ≤ length gs)%nat →
      lruKeys c' =
      Some (reverse (put_keys ps) ++ reverse (drop (length ps) gs.*2)) ∧
      (∀ k, k ∈ take (length ps) gs.*2 → m c' !! k = None) ∧
      (∀ k, k ∈ drop (length ps) gs.*2 → is_Some (m c' !! k)))).
Proof.
  intros c ent keys gs ps.
  assert (reachable c) as Hr.
  { apply (reachable_after 3 1000
             [OpPut 1 1 "a" "1"; OpPut 2 2 "b" "2"; OpPut 3 3 "c" "3"]).
    vm_compute. reflexivity. }
  assert (m c !! "b"%string = Some (Node 1)) as Hk by (vm_compute; reflexivity).
  assert (load (Node 1) c = Ok ent) as He by (vm_compute; reflexivity).
  assert (IsExpired 9 ent = false) as Hne by (vm_compute; reflexivity).
  assert (0 < maxSize c) as Hms by reflexivity.
  assert (lruKeys c = Some keys) as Hkeys by (vm_compute; reflexivity).
  assert (NoDup gs.*2) as Hndg by compute_done.
  assert (∀ k, k ∈ gs.*2 → k ∈ keys) as Hin.
  { apply Forall_forall. compute_done. }
  assert (NoDup (put_keys ps)) as Hndp by compute_done.
  assert (∀ k, k ∈ put_keys ps → k ∉ keys) as Hout.
  { apply Forall_forall. compute_done. }
  assert (0 < ttl c →
          map_Forall (λ _ p, expiredAt 8 c p = false) (m c) ∧
          Forall (λ g, g.1 <= 8) gs ∧
          Forall (λ p, p.1.1.2 <= 8 <= p.1.1.1 + ttl c) ps) as Hlive.
  { intros _. split; [compute_done|]. split; compute_done. }
  destruct (C4_Get_promotes c Hr) as [H1 H2].
  split; [exact Hr|]. split.
  - split; [exact Hk|]. split; [exact He|]. split; [exact Hne|].
    exact (H1 9 "b"%string (Node 1) ent Hk He Hne).
  - split; [exact Hms|]. split; [exact Hkeys|].
    split; [exact Hndg|]. split; [exact Hin|]. split; [exact Hndp|].
    split; [exact Hout|]. split; [exact Hlive|].
    exact (H2 8 keys gs ps Hms Hkeys Hndg Hin Hndp Hout Hlive).
Defined.

(** C5 (replacement).  In a reachable state that holds [k], [Put] of [k]
    takes the previous entry off both lists and out of the index, and puts a
    new entry, at an address that was not in use, at the head of both lists
    and into the index under [k]; the new entry carries the new value; no
    other entry moves or goes; and [Len] is what it was. *)
Theorem C5_Put_replaces now now' k v c old :
  reachable c → m c !! k = Some old →
  ∃ c' e l l' ent,
    Put now now' k v c = Ok c' ∧
    lruList c = Some l ∧ expList c = Some l' ∧ old ∈ l ∧ old ∈ l' ∧
    load e c = Panic InvalidPointer ∧
    lruList c' = Some (e :: filter (λ p, p ≠ old) l) ∧
    expList c' = Some (e :: filter (λ p, p ≠ old) l') ∧
    m c' = <[k := e]> (m c) ∧
    load e c' = Ok ent ∧ key ent = k ∧ value ent = v ∧
    expiry ent = new_expiry now c ∧
    Len c' = Len c.
Proof.
  intros (L & A & G)%reachable_Good Hk. pose proof (good_rep _ _ _ G) as H.
  destruct (Put_Rep now now' k v c L A H) as
    (c' & a & L1 & A1 & L' & A' & HP & H' & Hpd & Hcase & Hres).
  rewrite Hk in Hcase. destruct Hcase as (b & -> & Hb & -> & ->).
  pose proof (length_without b L (rep_nodup _ _ _ H) Hb) as Hlen.
  pose proof (Rep_Len _ _ _ H) as HLen.
  destruct Hres as [(_ & -> & -> & Hm')|(Hms & Hgt & _)].
  2:{ pose proof (good_bound _ _ _ G Hms). lia. }
  destruct (put_data_entry _ _ _ _ _ _ Hpd) as (ent & Hent & Hkey & Hval & Hexp).
  exists c', (Node a), (Node <$> L), (Node <$> A), ent.
  split; [done|].
  split; [by apply (lruList_Rep c L A)|].
  split; [by apply (expList_Rep c L A)|].
  split; [apply list_elem_of_fmap; by exists b|].
  split; [apply list_elem_of_fmap; exists b; by rewrite (rep_perm _ _ _ H)|].
  split; [by eapply put_data_fresh|].
  split.
  { rewrite <- fmap_without.
    apply (lruList_Rep c' (a :: without b L) (a :: without b A) H'). }
  split.
  { rewrite <- fmap_without.
    apply (expList_Rep c' (a :: without b L) (a :: without b A) H'). }
  split; [done|]. split; [done|]. split; [done|]. split; [done|].
  split; [done|].
  rewrite HLen, (Rep_Len _ _ _ H'). simpl length. lia.
Qed.

Lemma C5_Put_replaces_witness :
  let c := demo 2 5 [OpPut 1 1 "a" "1"; OpPut 2 2 "b" "2"] in
  reachable c ∧ m c !! "a"%string = Some (Node 0) ∧
  ∃ c' e l l' ent,
    Put 3 3 "a" "9" c = Ok c' ∧
    lruList c = Some l ∧ expList c = Some l' ∧ Node 0 ∈ l ∧ Node 0 ∈ l' ∧
    load e c = Panic InvalidPointer ∧
    lruList c' = Some (e :: filter (λ p, p ≠ Node 0) l) ∧
    expList c' = Some (e :: filter (λ p, p ≠ Node 0) l') ∧
    m c' = <[ "a"%string := e]> (m c) ∧
    load e c' = Ok ent ∧ key ent = "a"%string ∧ value ent = "9"%string ∧
    expiry ent = new_expiry 3 c ∧
    Len c' = Len c.
Proof.
  intros c.
  assert (reachable c) as Hr.
  { apply (reachable_after 2 5 [OpPut 1 1 "a" "1"; OpPut 2 2 "b" "2"]).
    vm_compute. reflexivity. }
  assert (m c !! "a"%string = Some (Node 0)) as Hk by (vm_compute; reflexivity).
  split; [exact Hr|]. split; [exact Hk|].
  exact (C5_Put_replaces 3 3 "a" "9" c (Node 0) Hr Hk).
Defined.

(** C6 (lazy expiry).  In a reachable state, a [Get] of a key whose entry
    has an expiry that is set and before the clock reading takes the entry
    off both lists and out of the index, so that [Len] goes down by one, and
    returns not-found.  Besides, [Get] and [trim] are the only places where
    an entry is reclaimed because it has expired: when a public call makes
    the index lose an entry, either the caller asked for the removal of that
    very key, by a [Delete] or a [Put] of it, which look at no expiry, or the
    call is a [Get] of that key and the entry is expired, or the call is a
    [Put] of another key and the entry was still there when [trim] was
    called. *)
Theorem C6_lazy_expiry c :
  reachable c →
  (∀ now k e ent,
     m c !! k = Some e → load e c = Ok ent →
     expiry ent ≠ 0 → expiry ent < now →
     ∃ c' l l',
       Get now k c = Ok (""%string, false, c') ∧
       Len c' = Len c - 1 ∧ m c' = base.delete k (m c) ∧
       lruList c = Some l ∧ expList c = Some l' ∧ e ∈ l ∧ e ∈ l' ∧
       lruList c' = Some (filter (λ p, p ≠ e) l) ∧
       expList c' = Some (filter (λ p, p ≠ e) l')) ∧
  (∀ o r c' k' p,
     step o c = Ok (r, c') → m c !! k' = Some p → m c' !! k' ≠ Some p →
     match o with
     | OpGet now k =>
         k = k' ∧ ∃ ent, load p c = Ok ent ∧ IsExpired now ent = true
     | OpDelete k => k = k'
     | OpPut now now' k v =>
         k = k' ∨
         ∃ c2, Put_pre now k v c = Ok c2 ∧ m c2 !! k' = Some p ∧
               trim now' c2 = Ok c'
     | OpLen => False
     end).
Proof.
  intros (L & A & G)%reachable_Good. pose proof (good_rep _ _ _ G) as H.
  split.
  - intros now k e ent Hk He Hx0 Hxn.
    pose proof (Get_Rep now k c L A H) as HG. rewrite Hk in HG.
    destruct HG as (a & ent' & -> & Ha & Hent & Hkey & HG).
    assert (ent' = ent) as -> by (simpl in He; rewrite Hent in He; congruence).
    assert (IsExpired now ent = true) as Hexp.
    { unfold IsExpired, IsZero, After.
      destruct (Z.eqb_spec (expiry ent) 0); [done|]. by apply Z.ltb_lt. }
    rewrite Hexp in HG. destruct HG as (c' & HG & H' & Hm' & Hd').
    exists c', (Node <$> L), (Node <$> A). split; [done|]. split.
    { rewrite (Rep_Len _ _ _ H), (Rep_Len _ _ _ H').
      pose proof (length_without a L (rep_nodup _ _ _ H) Ha). lia. }
    split; [done|].
    split; [by apply (lruList_Rep c L A)|].
    split; [by apply (expList_Rep c L A)|].
    split; [apply list_elem_of_fmap; by exists a|].
    split; [apply list_elem_of_fmap; exists a; by rewrite (rep_perm _ _ _ H)|].
    split; [rewrite <- fmap_without; by apply (lruList_Rep c' _ (without a A))|].
    rewrite <- fmap_without. by apply (expList_Rep c' (without a L)).
  - intros o r c' k' p Hs Hk' Hgone.
    destruct o as [now now' k v|now k|k|]; simpl in Hs.
    + destruct (decide (k = k')) as [->|Hkk]; [by left|right].
      destruct (Put_pre_Rep now k v c L A H) as
        (c2 & a & L1 & A1 & Hpre & H2 & Hpd & Hm2 & _).
      exists c2. split; [done|].
      split; [by rewrite Hm2, lookup_insert_ne|].
      rewrite Put_pre_trim, Hpre in Hs. cbn [res_bind] in Hs.
      destruct (trim now' c2) as [c3|]; [|done]. by injection Hs as _ ->.
    + pose proof (Get_Rep now k c L A H) as HG.
      destruct (m c !! k) as [q|] eqn:Hk.
      * destruct HG as (a & ent & -> & Ha & Hent & Hkey & HG).
        destruct (IsExpired now ent) eqn:Hexp.
        -- destruct HG as (c'' & HG & H' & Hm' & Hd').
           rewrite HG in Hs. injection Hs as _ <-.
           destruct (decide (k = k')) as [->|Hkk].
           ++ split; [done|]. exists ent.
              assert (p = Node a) as -> by congruence.
              split; [simpl; by rewrite Hent|done].
           ++ destruct Hgone. by rewrite Hm', lookup_delete_ne.
        -- destruct HG as (c'' & HG & H' & Hm').
           rewrite HG in Hs. injection Hs as _ <-.
           destruct Hgone. by rewrite (same_m _ _ Hm').
      * rewrite HG in Hs. injection Hs as _ <-. done.
    + pose proof (Delete_Rep k c L A H) as HD.
      destruct (m c !! k) as [q|] eqn:Hk.
      * destruct HD as (a & c'' & -> & Ha & Hka & HD & H' & Hm' & Hd').
        rewrite HD in Hs. injection Hs as _ <-.
        destruct (decide (k = k')) as [->|Hkk]; [done|].
        destruct Hgone. by rewrite Hm', lookup_delete_ne.
      * rewrite HD in Hs. injection Hs as _ <-. done.
    + injection Hs as _ <-. done.
Qed.

Lemma C6_lazy_expiry_witness :
  let c := demo 2 5 [OpPut 1 1 "a" "1"; OpPut 2 2 "b" "2"] in
  let ent := match load (Node 0) c with Ok e => e | Panic _ => zeroEntry end in
  let c' := demo 2 5 [OpPut 1 1 "a" "1"; OpPut 2 2 "b" "2";
                      OpPut 50 100 "c" "3"] in
  reachable c ∧
  (m c !! "a"%string = Some (Node 0) ∧ load (Node 0) c = Ok ent ∧
   expiry ent ≠ 0 ∧ expiry ent < 100 ∧
   ∃ c1 l l',
     Get 100 "a" c = Ok (""%string, false, c1) ∧
     Len c1 = Len c - 1 ∧ m c1 = base.delete "a"%string (m c) ∧
     lruList c = Some l ∧ expList c = Some l' ∧ Node 0 ∈ l ∧ Node 0 ∈ l' ∧
     lruList c1 = Some (filter (λ p, p ≠ Node 0) l) ∧
     expList c1 = Some (filter (λ p, p ≠ Node 0) l')) ∧
  (step (OpPut 50 100 "c" "3") c = Ok (OutPut, c') ∧
   m c !! "a"%string = Some (Node 0) ∧ m c' !! "a"%string ≠ Some (Node 0) ∧
   ("c"%string = "a"%string ∨
    ∃ c2, Put_pre 50 "c" "3" c = Ok c2 ∧ m c2 !! "a"%string = Some (Node 0) ∧
          trim 100 c2 = Ok c')).
Proof.
  intros c ent c'.
  assert (reachable c) as Hr.
  { apply (reachable_after 2 5 [OpPut 1 1 "a" "1"; OpPut 2 2 "b" "2"]).
    vm_compute. reflexivity. }
  assert (m c !! "a"%string = Some (Node 0)) as Hk by (vm_compute; reflexivity).
  assert (load (Node 0) c = Ok ent) as He by (vm_compute; reflexivity).
  assert (expiry ent ≠ 0) as Hx0 by (vm_compute; discriminate).
  assert (expiry ent < 100) as Hxn by (vm_compute; reflexivity).
  assert (step (OpPut 50 100 "c" "3") c = Ok (OutPut, c')) as Hs
    by (vm_compute; reflexivity).
  assert (m c' !! "a"%string ≠ Some (Node 0)) as Hgone
    by (vm_compute; discriminate).
  destruct (C6_lazy_expiry c Hr) as [H1 H2].
  split; [exact Hr|]. split.
  - split; [exact Hk|]. split; [exact He|]. split; [exact Hx0|].
    split; [exact Hxn|].
    exact (H1 100 "a"%string (Node 0) ent Hk He Hx0 Hxn).
  - split; [exact Hs|]. split; [exact Hk|]. split; [exact Hgone|].
    exact (H2 (OpPut 50 100 "c" "3") OutPut c' "a"%string (Node 0) Hs Hk Hgone).
Defined.

(** C7 (full expiry).  On a cache with [ttl > 0], [put_times] gives for each
    entry that the index holds after a history the time of its insertion,
    that is, the clock reading of the [Put] that made it: the keys recorded
    are the keys of the index, each reading is that of a [Put] of the key in
    the history, and the expiry stored in the entry is that reading plus the
    ttl.  Once the ttl has elapsed past every one of these
    insertion times (clock readings being past the zero time), a [Get] of
    any key reports not-found; and as expiry is found and purged on access,
    once [Get] has been called on every key of the index [Len] reports 0,
    while until then [Len] counts the entries that are still on the
    lists. *)
Theorem C7_full_expiry ms t c0 os rs c now :
  New ms t = Ok c0 → 0 < t → run os c0 = Ok (rs, c) →
  (∀ k T, put_times os c0 ∅ !! k = Some T → 0 <= T ∧ T + t < now) →
  dom (put_times os c0 ∅) = dom (m c) ∧
  (∀ k T, put_times os c0 ∅ !! k = Some T →
     (∃ now' v, OpPut T now' k v ∈ os) ∧
     ∃ p ent, m c !! k = Some p ∧ load p c = Ok ent ∧ expiry ent = T + t) ∧
  (∀ now' k, now <= now' →
     ∃ c', Get now' k c = Ok (""%string, false, c')) ∧
  (∀ gs, Forall (λ g, now <= g.1) gs → dom (m c) ⊆ list_to_set gs.*2 →
     ∃ rs' c', run (gets gs) c = Ok (rs', c') ∧
               Forall (λ r, r = OutGet ""%string false) rs' ∧
               Len c' = 0) ∧
  (∃ l, lruList c = Some l ∧ Len c = Z.of_nat (length l)).
Proof.
  intros HN Ht Hr Hts. destruct (New_Good _ _ _ HN) as (G0 & _ & Ht0).
  destruct (run_Good os c0 [] [] G0) as (rs' & c' & L & A & Hr' & G & _ & Htc).
  assert (c' = c) as -> by congruence. rewrite Ht0 in Htc.
  pose proof (good_rep _ _ _ G) as H.
  assert (timed ∅ c0) as Htd0.
  { intros k. rewrite lookup_empty. destruct (m c0 !! k) as [p|] eqn:Hk; [|done].
    apply (rep_index _ _ _ (good_rep _ _ _ G0)) in Hk as (a & _ & Ha & _).
    by apply elem_of_nil in Ha. }
  pose proof (run_timed os c0 [] [] ∅ rs c G0 ltac:(lia) Htd0 Hr) as Htd.
  assert (expiring (now - 1) c L) as Hx.
  { apply (timed_expiring (put_times os c0 ∅) now c L A G); [lia|done|].
    by rewrite Htc. }
  split; [|split; [|split; [|split]]].
  - apply set_eq. intros k. rewrite !elem_of_dom, (Htd k).
    apply fmap_is_Some.
  - intros k T HT. split.
    { by destruct (put_times_Put os c0 ∅ k T HT) as [Hemp|?]. }
    rewrite (Htd k) in HT.
    destruct (m c !! k) as [p|] eqn:Hk; [|done]. simpl in HT.
    injection HT as HT.
    destruct (Rep_index_entry _ _ _ _ _ H Hk) as (a & ent & -> & Ha & Hent & _).
    exists (Node a), ent. split; [done|]. split; [simpl; by rewrite Hent|].
    rewrite expiryAt_expiry_of in HT. unfold expiry_of in HT.
    rewrite Hent in HT. simpl in HT. lia.
  - intros now' k Hnow.
    destruct (Get_expiring (now - 1) now' k c L A G Hx) as (c' & _ & _ & HG & _);
      [lia|].
    by exists c'.
  - intros gs Hgs Hdom.
    destruct (gets_expiring (now - 1) gs c L A G Hx) as (rs1 & c1 & Hr1 & Hrs1 & Hd1).
    { eapply Forall_impl; [exact Hgs|]. simpl. intros g Hg. lia. }
    exists rs1, c1. split; [done|]. split; [done|].
    assert (dom (m c1) = ∅) as Hd by set_solver.
    apply dom_empty_inv_L in Hd. unfold Len. by rewrite Hd, map_size_empty.
  - exists (Node <$> L). split; [apply (lruList_Rep c L A), G|].
    rewrite length_fmap. apply (Rep_Len c L A), G.
Qed.

Lemma C7_full_expiry_witness :
  let c0 := mkCache 2 5 (mkEntry "" "" 0 Nil Tail Nil Tail)
              (mkEntry "" "" 0 Head Nil Head Nil) ∅ ∅ in
  let os := [OpPut 1 1 "b" "2"; OpPut 3 3 "c" "3"; OpGet 4 "b";
             OpPut 1000 1000 "a" "1"; OpDelete "a"] in
  let c := demo 2 5 os in
  New 2 5 = Ok c0 ∧ 0 < 5 ∧
  run os c0 = Ok ([OutPut; OutPut; OutGet "2" true; OutPut; OutDelete true], c) ∧
  (∀ k T, put_times os c0 ∅ !! k = Some T → 0 <= T ∧ T + 5 < 9) ∧
  dom (put_times os c0 ∅) = dom (m c) ∧
  (∀ k T, put_times os c0 ∅ !! k = Some T →
     (∃ now' v, OpPut T now' k v ∈ os) ∧
     ∃ p ent, m c !! k = Some p ∧ load p c = Ok ent ∧ expiry ent = T + 5) ∧
  (∀ now' k, 9 <= now' →
     ∃ c', Get now' k c = Ok (""%string, false, c')) ∧
  (∀ gs, Forall (λ g, 9 <= g.1) gs → dom (m c) ⊆ list_to_set gs.*2 →
     ∃ rs' c', run (gets gs) c = Ok (rs', c') ∧
               Forall (λ r, r = OutGet ""%string false) rs' ∧
               Len c' = 0) ∧
  (∃ l, lruList c = Some l ∧ Len c = Z.of_nat (length l)).
Proof.
  intros c0 os c.
  assert (New 2 5 = Ok c0) as HN by reflexivity.
  assert (0 < 5) as Ht by lia.
  assert (run os c0
          = Ok ([OutPut; OutPut; OutGet "2" true; OutPut; OutDelete true], c))
    as Hr by (vm_compute; reflexivity).
  assert (∀ k T, put_times os c0 ∅ !! k = Some T → 0 <= T ∧ T + 5 < 9) as Hts.
  { assert (map_Forall (λ _ T, 0 <= T ∧ T + 5 < 9) (put_times os c0 ∅)) as HF
      by compute_done.
    exact HF. }
  split; [exact HN|]. split; [exact Ht|]. split; [exact Hr|].
  split; [exact Hts|].
  exact (C7_full_expiry 2 5 c0 os _ c 9 HN Ht Hr Hts).
Defined.

(** C8 ([Delete]).  In a reachable state, [Delete] of a key that the index
    does not hold returns false and leaves the whole state as it is; [Delete]
    of a key that the index holds returns true, whatever the expiry of the
    entry (no clock reading enters the call), takes the entry off both lists
    and out of the index, so that [Len] goes down by exactly one and a [Get]
    of the key, at any time afterwards, reports not-found. *)
Theorem C8_Delete c k :
  reachable c →
  match m c !! k with
  | None => Delete k c = Ok (false, c)
  | Some e =>
      ∃ c' l l',
        Delete k c = Ok (true, c') ∧
        Len c' = Len c - 1 ∧
        m c' = base.delete k (m c) ∧
        lruList c = Some l ∧ expList c = Some l' ∧ e ∈ l ∧ e ∈ l' ∧
        lruList c' = Some (filter (λ p, p ≠ e) l) ∧
        expList c' = Some (filter (λ p, p ≠ e) l') ∧
        ∀ now, Get now k c' = Ok (""%string, false, c')
  end.
Proof.
  intros (L & A & G)%reachable_Good. pose proof (good_rep _ _ _ G) as H.
  pose proof (Delete_Rep k c L A H) as HD.
  destruct (m c !! k) as [p|]; [|done].
  destruct HD as (a & c' & -> & Ha & Hka & HD & H' & Hm' & Hd').
  exists c', (Node <$> L), (Node <$> A). split; [done|].
  split.
  { rewrite (Rep_Len _ _ _ H), (Rep_Len _ _ _ H').
    pose proof (length_without a L (rep_nodup _ _ _ H) Ha). lia. }
  split; [done|].
  split; [by apply (lruList_Rep c L A)|].
  split; [by apply (expList_Rep c L A)|].
  split; [apply list_elem_of_fmap; by exists a|].
  split; [apply list_elem_of_fmap; exists a; by rewrite (rep_perm _ _ _ H)|].
  split; [rewrite <- fmap_without; by apply (lruList_Rep c' _ (without a A))|].
  split; [rewrite <- fmap_without; by apply (expList_Rep c' (without a L))|].
  intros now. apply Get_miss. rewrite Hm'. apply lookup_delete_eq.
Qed.

Lemma C8_Delete_witness :
  let c := demo 2 5 [OpPut 1 1 "a" "1"; OpPut 2 2 "b" "2"] in
  reachable c ∧
  match m c !! "a"%string with
  | None => Delete "a" c = Ok (false, c)
  | Some e =>
      ∃ c' l l',
        Delete "a" c = Ok (true, c') ∧
        Len c' = Len c - 1 ∧
        m c' = base.delete "a"%string (m c) ∧
        lruList c = Some l ∧ expList c = Some l' ∧ e ∈ l ∧ e ∈ l' ∧
        lruList c' = Some (filter (λ p, p ≠ e) l) ∧
        expList c' = Some (filter (λ p, p ≠ e) l') ∧
        ∀ now, Get now "a" c' = Ok (""%string, false, c')
  end.
Proof.
  intros c.
  assert (reachable c) as Hr.
  { apply (reachable_after 2 5 [OpPut 1 1 "a" "1"; OpPut 2 2 "b" "2"]).
    vm_compute. reflexivity. }
  split; [exact Hr|]. exact (C8_Delete c "a"%string Hr).
Defined.

(** C9 (construction and the two zero limits).  [New] panics, and so yields
    no cache at all, exactly when [maxSize] or [ttl] is negative.  On a
    reachable cache with [maxSize = 0] a [Put] only adds or replaces the
    entry of its own key: every other key keeps its entry, and a key that
    was absent makes [Len] grow by one, without bound.  On a reachable cache
    with [ttl = 0] a [Get] of a key that the index holds returns its value
    with [ok = true] at every clock reading. *)
Theorem C9_New_and_zero_limits ms t :
  ((∃ p, New ms t = Panic p) ↔ ms < 0 ∨ t < 0) ∧
  (∀ c now now' k v, reachable c → maxSize c = 0 →
     ∃ c' e, Put now now' k v c = Ok c' ∧ m c' = <[k := e]> (m c) ∧
             (∀ k', k' ≠ k → m c' !! k' = m c !! k') ∧
             (m c !! k = None → Len c' = Len c + 1)) ∧
  (∀ c now k e, reachable c → ttl c = 0 → m c !! k = Some e →
     ∃ ent c', load e c = Ok ent ∧ Get now k c = Ok (value ent, true, c')).
Proof.
  split; [|split].
  - unfold New. destruct (Z.ltb_spec ms 0); [|destruct (Z.ltb_spec t 0)].
    + split; [by left|]. intros _. by eexists.
    + split; [by right|]. intros _. by eexists.
    + split; [by intros [p ?]|lia].
  - intros c now now' k v (L & A & G)%reachable_Good Hms.
    pose proof (good_rep _ _ _ G) as H.
    destruct (Put_Rep now now' k v c L A H) as
      (c' & a & L1 & A1 & L' & A' & HP & H' & Hpd & Hcase & Hres).
    destruct Hres as [(_ & _ & _ & Hm')|(Hpos & _)]; [|lia].
    exists c', (Node a). split; [done|]. split; [done|]. split.
    + intros k' Hk'. rewrite Hm'. by apply lookup_insert_ne.
    + intros Hk. unfold Len. rewrite Hm', map_size_insert_None by done. lia.
  - intros c now k e (L & A & G)%reachable_Good Httl Hk.
    pose proof (good_rep _ _ _ G) as H.
    pose proof (Get_Rep now k c L A H) as HG. rewrite Hk in HG.
    destruct HG as (a & ent & -> & Ha & Hent & Hkey & HG).
    pose proof (good_noexp _ _ _ G Httl a Ha) as Hx.
    unfold expiry_of in Hx. rewrite Hent in Hx. injection Hx as Hx.
    assert (IsExpired now ent = false) as Hne.
    { unfold IsExpired. by rewrite Hx. }
    rewrite Hne in HG. destruct HG as (c' & HG & _).
    exists ent, c'. split; [simpl; by rewrite Hent|done].
Qed.

Lemma C9_New_and_zero_limits_witness :
  let c := demo 0 0 [OpPut 1 1 "a" "1"; OpPut 2 2 "b" "2"] in
  ((∃ p, New (-1) 0 = Panic p) ∧ (-1 < 0 ∨ 0 < 0)) ∧
  (reachable c ∧ maxSize c = 0 ∧
   ∃ c' e, Put 3 3 "c" "3" c = Ok c' ∧ m c' = <[ "c"%string := e]> (m c) ∧
           (∀ k', k' ≠ "c"%string → m c' !! k' = m c !! k') ∧
           (m c !! "c"%string = None → Len c' = Len c + 1)) ∧
  (reachable c ∧ ttl c = 0 ∧ m c !! "a"%string = Some (Node 0) ∧
   ∃ ent c', load (Node 0) c = Ok ent ∧
             Get 1000000 "a" c = Ok (value ent, true, c')).
Proof.
  intros c.
  assert (reachable c) as Hr.
  { apply (reachable_after 0 0 [OpPut 1 1 "a" "1"; OpPut 2 2 "b" "2"]).
    vm_compute. reflexivity. }
  assert (maxSize c = 0) as Hms by reflexivity.
  assert (ttl c = 0) as Httl by reflexivity.
  assert (m c !! "a"%string = Some (Node 0)) as Hk by (vm_compute; reflexivity).
  assert (-1 < 0 ∨ 0 < 0) as Hneg by (left; lia).
  destruct (C9_New_and_zero_limits (-1) 0) as (H1 & H2 & H3).
  split; [split; [exact (proj2 H1 Hneg)|exact Hneg]|].
  split.
  - split; [exact Hr|]. split; [exact Hms|].
    exact (H2 c 3 3 "c"%string "3"%string Hr Hms).
  - split; [exact Hr|]. split; [exact Httl|]. split; [exact Hk|].
    exact (H3 c 1000000 "a"%string (Node 0) Hr Httl Hk).
Defined.

(** C10 (no panic in [delist]).  No sequence of public calls on a new cache
    panics, so the failure branch of [delist] is never taken.  In the state
    that such a sequence leaves, every pointer of the index is the address of
    a heap entry, never nil or a sentinel, and [delist] accepts it; and
    whenever the guard of [trim] lets it go on, at the end of the next [Put],
    the two entries next to the tail sentinel, which are the ones that [trim]
    may delete, are heap entries that [delete] accepts. *)
Theorem C10_delist_never_fails ms t c0 os :
  New ms t = Ok c0 →
  ∃ rs c,
    run os c0 = Ok (rs, c) ∧
    (∀ k p, m c !! k = Some p →
       (∃ a, p = Node a) ∧ ∃ c', delist p c = Ok c') ∧
    (∀ now k v, ∃ c2,
       Put_pre now k v c = Ok c2 ∧
       (0 < maxSize c2 → maxSize c2 < Len c2 →
        ∃ a b c' c'', expPrev (tail c2) = Node a ∧ lruPrev (tail c2) = Node b ∧
                      delete (Node a) c2 = Ok c' ∧
                      delete (Node b) c2 = Ok c'')).
Proof.
  intros HN. destruct (New_Good _ _ _ HN) as (G0 & _).
  destruct (run_Good os c0 [] [] G0) as (rs & c & L & A & Hr & G & _).
  pose proof (good_rep _ _ _ G) as H.
  exists rs, c. split; [done|]. split.
  - intros k p Hk. apply (rep_index _ _ _ H) in Hk as (a & -> & Ha & _).
    split; [by exists a|].
    destruct (delist_Rep c L A a H Ha) as (c' & Hd & _). by exists c'.
  - intros now k v.
    destruct (Put_pre_Rep now k v c L A H) as
      (c2 & a & L1 & A1 & Hpre & H2 & _).
    exists c2. split; [done|]. intros Hms Hlen.
    rewrite (Rep_Len _ _ _ H2) in Hlen.
    pose proof (rep_lru _ _ _ H2) as Hlru.
    pose proof (rep_exp _ _ _ H2) as Hexp.
    pose proof (Rep_same_length _ _ _ H2) as HlenA.
    pose proof (rep_perm _ _ _ H2) as Hperm.
    destruct (a :: L1) as [|x L2 _] using rev_ind; [simpl in Hlen; lia|].
    destruct (a :: A1) as [|y A2 _] using rev_ind.
    { rewrite length_app in HlenA. simpl in HlenA. lia. }
    apply tail_prev in Hlru, Hexp. simpl in Hlru, Hexp.
    destruct (delete_Rep c2 _ _ y H2) as (c' & ? & _ & Hd1 & _).
    { rewrite <- Hperm. set_solver. }
    destruct (delete_Rep c2 _ _ x H2) as (c'' & ? & _ & Hd2 & _);
      [set_solver|].
    by exists y, x, c', c''.
Qed.

Lemma C10_delist_never_fails_witness :
  New 1 5 = Ok (mkCache 1 5 (mkEntry "" "" 0 Nil Tail Nil Tail)
                  (mkEntry "" "" 0 Head Nil Head Nil) ∅ ∅) ∧
  ∃ rs c,
    run [OpPut 1 1 "a" "1"; OpPut 2 2 "b" "2"; OpGet 30 "b"; OpDelete "a"]
      (mkCache 1 5 (mkEntry "" "" 0 Nil Tail Nil Tail)
         (mkEntry "" "" 0 Head Nil Head Nil) ∅ ∅) = Ok (rs, c) ∧
    (∀ k p, m c !! k = Some p →
       (∃ a, p = Node a) ∧ ∃ c', delist p c = Ok c') ∧
    (∀ now k v, ∃ c2,
       Put_pre now k v c = Ok c2 ∧
       (0 < maxSize c2 → maxSize c2 < Len c2 →
        ∃ a b c' c'', expPrev (tail c2) = Node a ∧ lruPrev (tail c2) = Node b ∧
                      delete (Node a) c2 = Ok c' ∧
                      delete (Node b) c2 = Ok c'')).
Proof.
  split; [reflexivity|]. apply (C10_delist_never_fails 1 5). reflexivity.
Defined.

(** * Further properties of the code *)

(** ** The backward links *)

Lemma chain_last_link nx pv c xs p q :
  chain nx pv c (xs ++ [p; q]) → linked nx pv c p q.
Proof.
  intros Hc. apply (chain_app nx pv c xs p [q]) in Hc as [_ Hc].
  by destruct Hc as [Hc _].
Qed.

Lemma walk_back_chain nx pv c l : ∀ s fuel,
  chain nx pv c (Head :: (Node <$> l) ++ [s]) → (length l < fuel)%nat →
  walk_back pv c fuel (match reverse l with a :: _ => Node a | [] => Head end)
  = Some (reverse (Node <$> l)).
Proof.
  induction l as [|a l0 IH] using rev_ind; intros s fuel Hc Hlen.
  - destruct fuel; [lia|done].
  - destruct fuel as [|fuel]; [lia|].
    rewrite length_app in Hlen. simpl in Hlen.
    rewrite fmap_app, <- app_assoc in Hc. simpl in Hc.
    assert (chain nx pv c (Head :: (Node <$> l0) ++ [Node a])) as Hc0.
    { by apply (chain_app nx pv c (Head :: (Node <$> l0)) (Node a) [s]) in Hc as [Hc _]. }
    pose proof (IH (Node a) fuel Hc0 ltac:(lia)) as Hw.
    assert (field (Node a) pv c
            = Ok (match reverse l0 with b :: _ => Node b | [] => Head end)) as Hf.
    { destruct l0 as [|b l1 _] using rev_ind.
      - by destruct Hc0 as [[_ Hf] _].
      - rewrite reverse_snoc. rewrite fmap_app, <- app_assoc in Hc0. simpl in Hc0.
        by destruct (chain_last_link nx pv c (Head :: (Node <$> l1)) _ _ Hc0). }
    assert (reverse (Node <$> l0 ++ [a]) = Node a :: reverse (Node <$> l0))
      as -> by (rewrite fmap_app; apply reverse_snoc).
    rewrite reverse_snoc. cbn [walk_back]. rewrite Hf, Hw. done.
Qed.

Lemma tail_prev_last nx pv c l :
  chain nx pv c (spine l) →
  getl pv (tail c) = match reverse l with a :: _ => Node a | [] => Head end.
Proof.
  intros Hc. destruct l as [|a l0 _] using rev_ind.
  - destruct Hc as [[_ Hc] _]. rewrite field_Tail in Hc. by injection Hc.
  - rewrite reverse_snoc. by eapply tail_prev.
Qed.

Lemma lruListBack_Rep c L A :
  Rep c L A → lruListBack c = Some (reverse (Node <$> L)).
Proof.
  intros H. unfold lruListBack.
  change (lruPrev (tail c)) with (getl LruPrev (tail c)).
  rewrite (tail_prev_last _ _ _ _ (rep_lru _ _ _ H)).
  apply (walk_back_chain LruNext _ _ _ Tail); [apply H|].
  pose proof (Rep_length_heap _ _ _ H). lia.
Qed.

Lemma expListBack_Rep c L A :
  Rep c L A → expListBack c = Some (reverse (Node <$> A)).
Proof.
  intros H. unfold expListBack.
  change (expPrev (tail c)) with (getl ExpPrev (tail c)).
  rewrite (tail_prev_last _ _ _ _ (rep_exp _ _ _ H)).
  apply (walk_back_chain ExpNext _ _ _ Tail); [apply H|].
  pose proof (Rep_length_heap _ _ _ H).
  pose proof (Rep_same_length _ _ _ H). lia.
Qed.

(** X1 (the lists are doubly linked).  In every reachable state the walk
    from the tail sentinel along the [lruPrev] links arrives at the head
    sentinel and meets the entries of the forward walk in the opposite
    order; the same holds of the age list and its [expPrev] links; and [Len]
    is the number of entries on each list. *)
Theorem X1_backward_walks c :
  reachable c →
  ∃ l l',
    lruList c = Some l ∧ lruListBack c = Some (reverse l) ∧
    expList c = Some l' ∧ expListBack c = Some (reverse l') ∧
    Len c = Z.of_nat (length l) ∧ Len c = Z.of_nat (length l').
Proof.
  intros (L & A & G)%reachable_Good. pose proof (good_rep _ _ _ G) as H.
  exists (Node <$> L), (Node <$> A).
  split; [by apply (lruList_Rep c L A)|].
  split; [by apply (lruListBack_Rep c L A)|].
  split; [by apply (expList_Rep c L A)|].
  split; [by apply (expListBack_Rep c L A)|].
  rewrite !length_fmap, (Rep_same_length _ _ _ H).
  split; by apply (Rep_Len c L A).
Qed.

Lemma X1_backward_walks_witness :
  let c := demo 3 5 [OpPut 1 1 "a" "1"; OpPut 2 2 "b" "2"; OpPut 3 3 "c" "3";
                     OpGet 4 "a"; OpDelete "b"] in
  reachable c ∧
  ∃ l l',
    lruList c = Some l ∧ lruListBack c = Some (reverse l) ∧
    expList c = Some l' ∧ expListBack c = Some (reverse l') ∧
    Len c = Z.of_nat (length l) ∧ Len c = Z.of_nat (length l').
Proof.
  intros c.
  assert (reachable c) as Hr.
  { apply (reachable_after 3 5
             [OpPut 1 1 "a" "1"; OpPut 2 2 "b" "2"; OpPut 3 3 "c" "3";
              OpGet 4 "a"; OpDelete "b"]).
    vm_compute. reflexivity. }
  split; [exact Hr|]. exact (X1_backward_walks c Hr).
Defined.

(** ** [Put] followed by another call *)

Lemma Put_lookup now now' k v c L A :
  Rep c L A →
  ∃ c1 a X Y,
    Put now now' k v c = Ok c1 ∧ Rep c1 (a :: X) (a :: Y) ∧
    put_data now k v a c c1 ∧ m c1 !! k = Some (Node a) ∧
    (a ∉ X) ∧ (a ∉ Y).
Proof.
  intros H.
  destruct (Put_Rep now now' k v c L A H) as
    (c1 & a & L1 & A1 & L' & A' & HP & H' & Hpd & Hcase & Hres).
  assert (∃ X Y, L' = a :: X ∧ A' = a :: Y ∧ m c1 !! k = Some (Node a))
    as (X & Y & -> & -> & Hk).
  { destruct Hres as [(_ & -> & -> & ->)
                     |(_ & _ & old & lru & ent & vi & kv & _ & _ & _ & _ &
                       _ & _ & Hkv & -> & -> & ->)].
    - exists L1, A1. by rewrite lookup_insert_eq.
    - exists (without vi L1), (without vi A1).
      by rewrite lookup_delete_ne, lookup_insert_eq. }
  exists c1, a, X, Y. split; [done|]. split; [done|]. split; [done|].
  split; [done|].
  pose proof (rep_nodup _ _ _ H') as Hnd.
  apply NoDup_cons in Hnd as [HaX _]. split; [done|].
  assert (NoDup (a :: Y)) as HndY.
  { rewrite (rep_perm _ _ _ H'). apply H'. }
  by apply NoDup_cons in HndY as [? _].
Qed.

Lemma without_head a l : a ∉ l → without a (a :: l) = l.
Proof.
  intros Ha. unfold without. rewrite filter_cons_False by tauto.
  by apply without_notin.
Qed.

(** X2 ([Put] then [Get]).  On every reachable cache a [Put] succeeds and
    leaves its key in the index, whatever [trim] evicts; a [Get] of that key
    then returns the value just put, with [ok = true], provided that on a
    cache with a ttl the clock of the [Get] is not past the clock of the [Put]
    plus the ttl; and that [Get] changes neither the index nor the order of
    either list, the entry being at the head already. *)
Theorem X2_Put_then_Get now now' now2 k v c :
  reachable c → (0 < ttl c → now2 <= now + ttl c) →
  ∃ c1 c2 e,
    Put now now' k v c = Ok c1 ∧ m c1 !! k = Some e ∧
    Get now2 k c1 = Ok (v, true, c2) ∧
    m c2 = m c1 ∧ lruList c2 = lruList c1 ∧ expList c2 = expList c1 ∧
    ∃ l, lruList c1 = Some (e :: l).
Proof.
  intros (L & A & G)%reachable_Good Hnow. pose proof (good_rep _ _ _ G) as H.
  destruct (Put_lookup now now' k v c L A H) as
    (c1 & a & X & Y & HP & H1 & Hpd & Hk & HaX & HaY).
  pose proof (Get_Rep now2 k c1 _ _ H1) as HG. rewrite Hk in HG.
  destruct HG as (a' & ent & [= <-] & Ha & Hent & Hkey & HG).
  assert (value ent = v) as Hv.
  { pose proof (put_value _ _ _ _ _ _ Hpd) as Hv. unfold value_of in Hv.
    rewrite Hent in Hv. by injection Hv. }
  assert (expiry ent = new_expiry now c) as Hx.
  { pose proof (put_expiry _ _ _ _ _ _ Hpd) as Hx. unfold expiry_of in Hx.
    rewrite Hent in Hx. by injection Hx. }
  assert (IsExpired now2 ent = false) as Hne.
  { unfold IsExpired, IsZero, After. rewrite Hx. unfold new_expiry.
    destruct (Z.ltb_spec 0 (ttl c)); [|done].
    destruct (Z.eqb_spec (now + ttl c) 0); [done|].
    apply Z.ltb_ge. by apply Hnow. }
  rewrite Hne in HG. destruct HG as (c2 & HG & H2 & Hm2).
  rewrite without_head in H2 by done.
  exists c1, c2, (Node a). split; [done|]. split; [done|].
  split; [by rewrite HG, Hv|]. split; [apply Hm2|].
  rewrite (lruList_Rep _ _ _ H1), (lruList_Rep _ _ _ H2).
  rewrite (expList_Rep _ _ _ H1), (expList_Rep _ _ _ H2).
  split; [done|]. split; [done|]. by exists (Node <$> X).
Qed.

Lemma X2_Put_then_Get_witness :
  let c := demo 2 5 [OpPut 1 1 "a" "1"; OpPut 2 2 "b" "2"] in
  reachable c ∧ (0 < ttl c → 8 <= 3 + ttl c) ∧
  ∃ c1 c2 e,
    Put 3 3 "c" "3" c = Ok c1 ∧ m c1 !! "c"%string = Some e ∧
    Get 8 "c" c1 = Ok ("3"%string, true, c2) ∧
    m c2 = m c1 ∧ lruList c2 = lruList c1 ∧ expList c2 = expList c1 ∧
    ∃ l, lruList c1 = Some (e :: l).
Proof.
  intros c.
  assert (reachable c) as Hr.
  { apply (reachable_after 2 5 [OpPut 1 1 "a" "1"; OpPut 2 2 "b" "2"]).
    vm_compute. reflexivity. }
  assert (0 < ttl c → 8 <= 3 + ttl c) as Hnow.
  { intros _. vm_compute. discriminate. }
  split; [exact Hr|]. split; [exact Hnow|].
  exact (X2_Put_then_Get 3 3 8 "c" "3" c Hr Hnow).
Defined.

(** X3 ([Put] then [Delete]).  On a reachable cache that does not hold [k]
    and has room for one more entry (no bound, or fewer than [maxSize]
    entries), a [Put] of [k] followed by a [Delete] of [k] returns true and
    gives back the index, both lists in their order, and [Len], as they
    were. *)
Theorem X3_Put_then_Delete now now' k v c :
  reachable c → m c !! k = None → maxSize c = 0 ∨ Len c < maxSize c →
  ∃ c1 c2,
    Put now now' k v c = Ok c1 ∧ Delete k c1 = Ok (true, c2) ∧
    Len c1 = Len c + 1 ∧
    m c2 = m c ∧ lruList c2 = lruList c ∧ expList c2 = expList c ∧
    Len c2 = Len c.
Proof.
  intros (L & A & G)%reachable_Good Hk Hroom.
  pose proof (good_rep _ _ _ G) as H.
  destruct (Put_Rep now now' k v c L A H) as
    (c1 & a & L1 & A1 & L' & A' & HP & H1 & Hpd & Hcase & Hres).
  rewrite Hk in Hcase. destruct Hcase as [-> ->].
  pose proof (Rep_Len _ _ _ H) as HLen.
  destruct Hres as [(_ & -> & -> & Hm1)|(Hms & Hgt & _)]; [|lia].
  pose proof (Delete_Rep k c1 _ _ H1) as HD.
  rewrite Hm1, lookup_insert_eq in HD.
  destruct HD as (a' & c2 & [= <-] & Ha & Hka & HD & H2 & Hm2 & Hd2).
  assert (a ∉ L) as HaL.
  { pose proof (rep_nodup _ _ _ H1) as Hnd. by apply NoDup_cons in Hnd as [? _]. }
  assert (a ∉ A) as HaA by (by rewrite (rep_perm _ _ _ H)).
  rewrite !without_head in H2 by done.
  exists c1, c2. split; [done|]. split; [done|].
  split; [rewrite (Rep_Len _ _ _ H1), HLen; simpl length; lia|].
  split; [by rewrite Hm2, delete_insert_id|].
  rewrite (lruList_Rep _ _ _ H2), (lruList_Rep _ _ _ H).
  rewrite (expList_Rep _ _ _ H2), (expList_Rep _ _ _ H).
  split; [done|]. split; [done|].
  by rewrite (Rep_Len _ _ _ H2), HLen.
Qed.

Lemma X3_Put_then_Delete_witness :
  let c := demo 3 5 [OpPut 1 1 "a" "1"; OpPut 2 2 "b" "2"; OpGet 3 "a"] in
  reachable c ∧ m c !! "c"%string = None ∧
  (maxSize c = 0 ∨ Len c < maxSize c) ∧
  ∃ c1 c2,
    Put 4 4 "c" "3" c = Ok c1 ∧ Delete "c" c1 = Ok (true, c2) ∧
    Len c1 = Len c + 1 ∧
    m c2 = m c ∧ lruList c2 = lruList c ∧ expList c2 = expList c ∧
    Len c2 = Len c.
Proof.
  intros c.
  assert (reachable c) as Hr.
  { apply (reachable_after 3 5
             [OpPut 1 1 "a" "1"; OpPut 2 2 "b" "2"; OpGet 3 "a"]).
    vm_compute. reflexivity. }
  assert (m c !! "c"%string = None) as Hk by (vm_compute; reflexivity).
  assert (maxSize c = 0 ∨ Len c < maxSize c) as Hroom
    by (right; vm_compute; reflexivity).
  split; [exact Hr|]. split; [exact Hk|]. split; [exact Hroom|].
  exact (X3_Put_then_Delete 4 4 "c" "3" c Hr Hk Hroom).
Defined.

(** ** The keys of the index, call by call *)

(** X4 (what a call does to the set of keys).  In a reachable state, a [Put]
    of [k] leaves [k] in the index and removes at most one other key, which
    was in the index; a [Get] of [k] that reports [ok = true] leaves the set
    of keys as it is, and one that reports [ok = false] leaves it without
    [k]; a [Delete] of [k] reports whether [k] was in the index and leaves
    the set without [k]; [Len] reports the number of keys and changes
    nothing.  No call but [Put] adds a key, and [Put] adds only its own. *)
Theorem X4_keys_after_call o r c c' :
  reachable c → step o c = Ok (r, c') →
  match o with
  | OpPut _ _ k _ =>
      k ∈ dom (m c') ∧
      (dom (m c') = {[k]} ∪ dom (m c) ∨
       ∃ kv, kv ≠ k ∧ kv ∈ dom (m c) ∧
             dom (m c') = ({[k]} ∪ dom (m c)) ∖ {[kv]})
  | OpGet _ k =>
      ∃ v ok, r = OutGet v ok ∧
              dom (m c') = if ok then dom (m c) else dom (m c) ∖ {[k]}
  | OpDelete k =>
      ∃ ok, r = OutDelete ok ∧ (ok = true ↔ k ∈ dom (m c)) ∧
            dom (m c') = dom (m c) ∖ {[k]}
  | OpLen => r = OutLen (Z.of_nat (size (dom (m c)))) ∧ c' = c
  end.
Proof.
  intros (L & A & G)%reachable_Good Hs. pose proof (good_rep _ _ _ G) as H.
  destruct o as [now now' k v|now k|k|]; simpl in Hs.
  - destruct (Put_Rep now now' k v c L A H) as
      (c1 & a & L1 & A1 & L' & A' & HP & H' & Hpd & Hcase & Hres).
    rewrite HP in Hs. injection Hs as _ <-.
    destruct Hres as [(_ & _ & _ & Hm)
                     |(_ & _ & old & lru & ent & vi & kv & _ & _ & _ & _ &
                       HviL & Hkv & Hkvk & _ & _ & Hm)].
    + rewrite Hm, dom_insert_L. split; [set_solver|by left].
    + rewrite Hm, dom_delete_L, dom_insert_L. split; [set_solver|].
      right. exists kv. split; [done|]. split; [|done].
      apply elem_of_dom. exists (Node vi). apply (Rep_lookup c L A); [done| |done].
      destruct (m c !! k).
      * destruct Hcase as (b & _ & _ & -> & _).
        by apply elem_of_without in HviL as [? _].
      * by destruct Hcase as [-> _].
  - pose proof (Get_Rep now k c L A H) as HG.
    destruct (m c !! k) as [p|] eqn:Hk.
    + destruct HG as (a & ent & -> & Ha & Hent & Hkey & HG).
      destruct (IsExpired now ent).
      * destruct HG as (c1 & HG & H' & Hm & Hd).
        rewrite HG in Hs. injection Hs as <- <-.
        exists ""%string, false. split; [done|]. by rewrite Hm, dom_delete_L.
      * destruct HG as (c1 & HG & H' & Hm).
        rewrite HG in Hs. injection Hs as <- <-.
        exists (value ent), true. split; [done|]. by rewrite (same_m _ _ Hm).
    + rewrite HG in Hs. injection Hs as <- <-.
      exists ""%string, false. split; [done|].
      apply not_elem_of_dom in Hk. set_solver.
  - pose proof (Delete_Rep k c L A H) as HD.
    destruct (m c !! k) as [p|] eqn:Hk.
    + destruct HD as (a & c1 & -> & Ha & Hka & HD & H' & Hm & Hd).
      rewrite HD in Hs. injection Hs as <- <-.
      exists true. split; [done|]. split.
      * split; [|done]. intros _. apply elem_of_dom. by eexists.
      * by rewrite Hm, dom_delete_L.
    + rewrite HD in Hs. injection Hs as <- <-.
      exists false. split; [done|]. apply not_elem_of_dom in Hk. split.
      * split; [done|]. by intros ?.
      * set_solver.
  - injection Hs as <- <-. split; [|done]. unfold Len. by rewrite size_dom.
Qed.

Lemma X4_keys_after_call_witness :
  let c := demo 2 5 [OpPut 1 1 "a" "1"; OpPut 2 2 "b" "2"] in
  let c' := demo 2 5 [OpPut 1 1 "a" "1"; OpPut 2 2 "b" "2";
                      OpPut 3 3 "c" "3"] in
  reachable c ∧ step (OpPut 3 3 "c" "3") c = Ok (OutPut, c') ∧
  ("c"%string ∈ dom (m c') ∧
   (dom (m c') = {[ "c"%string ]} ∪ dom (m c) ∨
    ∃ kv, kv ≠ "c"%string ∧ kv ∈ dom (m c) ∧
          dom (m c') = ({[ "c"%string ]} ∪ dom (m c)) ∖ {[kv]})).
Proof.
  intros c c'.
  assert (reachable c) as Hr.
  { apply (reachable_after 2 5 [OpPut 1 1 "a" "1"; OpPut 2 2 "b" "2"]).
    vm_compute. reflexivity. }
  assert (step (OpPut 3 3 "c" "3") c = Ok (OutPut, c')) as Hs
    by (vm_compute; reflexivity).
  split; [exact Hr|]. split; [exact Hs|].
  exact (X4_keys_after_call (OpPut 3 3 "c" "3") OutPut c c' Hr Hs).
Defined.

(** ** Insertions without reads *)

(** X5 (first in, first out, when nothing is read).  On a new cache with
    [maxSize > 0] and no ttl, after [Put]s of distinct keys the recency list
    holds the last [maxSize] keys put, last put first; [Len] is the smaller
    of the number of keys put and [maxSize]; a [Get] finds exactly these
    keys: the keys put earlier have been evicted, oldest first. *)
Theorem X5_fifo_without_reads ms ps c0 :
  New ms 0 = Ok c0 → 0 < ms → NoDup (put_keys ps) →
  ∃ rs c,
    run (puts ps) c0 = Ok (rs, c) ∧
    lruKeys c = Some (take (Z.to_nat ms) (reverse (put_keys ps))) ∧
    Len c = Z.min (Z.of_nat (length ps)) ms ∧
    (∀ now k, k ∈ take (Z.to_nat ms) (reverse (put_keys ps)) →
       ∃ v c', Get now k c = Ok (v, true, c')) ∧
    (∀ now k, k ∉ take (Z.to_nat ms) (reverse (put_keys ps)) →
       Get now k c = Ok (""%string, false, c)).
Proof.
  intros HN Hms Hnd. destruct (New_Good _ _ _ HN) as (G0 & Hms0 & Ht0).
  destruct (puts_keys 0 ps c0 [] [] G0) as
    (rs & c & L & A & Hr & G & _ & Ht & Hmsc & Hk).
  { by intros a Ha%elem_of_nil. }
  { lia. }
  { lia. }
  { done. }
  { intros k _ Hin. by apply elem_of_nil in Hin. }
  rewrite Ht0 in Ht.
  change (lkeys c0 []) with (@nil string) in Hk.
  rewrite app_nil_r, Hms0 in Hk.
  pose proof (good_rep _ _ _ G) as H.
  exists rs, c. split; [done|].
  split; [by rewrite (lruKeys_Rep c L A H), Hk|].
  split.
  { rewrite (Rep_Len _ _ _ H), <- (length_lkeys c L), Hk.
    rewrite length_take, length_reverse. unfold put_keys.
    rewrite length_fmap. lia. }
  rewrite <- Hk. split.
  - intros now k Hin.
    destruct (Get_keys 0 now k c L A G) as (v & c' & _ & _ & HG & _);
      [by eapply noexp_lasting|lia|done|].
    by exists v, c'.
  - intros now k Hout. apply Get_miss.
    destruct (m c !! k) eqn:Hmk; [|done]. destruct Hout.
    apply (Rep_lkeys_lookup c L A k H). by eexists.
Qed.

Lemma X5_fifo_without_reads_witness :
  let c0 := mkCache 2 0 (mkEntry "" "" 0 Nil Tail Nil Tail)
              (mkEntry "" "" 0 Head Nil Head Nil) ∅ ∅ in
  let ps := [(1, 1, "a", "1"); (2, 2, "b", "2"); (3, 3, "c", "3")]%string in
  New 2 0 = Ok c0 ∧ 0 < 2 ∧ NoDup (put_keys ps) ∧
  ∃ rs c,
    run (puts ps) c0 = Ok (rs, c) ∧
    lruKeys c = Some (take (Z.to_nat 2) (reverse (put_keys ps))) ∧
    Len c = Z.min (Z.of_nat (length ps)) 2 ∧
    (∀ now k, k ∈ take (Z.to_nat 2) (reverse (put_keys ps)) →
       ∃ v c', Get now k c = Ok (v, true, c')) ∧
    (∀ now k, k ∉ take (Z.to_nat 2) (reverse (put_keys ps)) →
       Get now k c = Ok (""%string, false, c)).
Proof.
  intros c0 ps.
  assert (New 2 0 = Ok c0) as HN by reflexivity.
  assert (0 < 2) as Hms by lia.
  assert (NoDup (put_keys ps)) as Hnd by compute_done.
  split; [exact HN|]. split; [exact Hms|]. split; [exact Hnd|].
  exact (X5_fifo_without_reads 2 ps c0 HN Hms Hnd).
Defined.

(** ** The value that a [Get] returns *)

Lemma step_stored k v x o r c c' L A :
  Rep c L A → stored k v x c → not_Put k o → step o c = Ok (r, c') →
  stored k v x c'.
Proof.
  intros H Hst Ho Hs p Hp.
  destruct o as [now now' k' v'|now k'|k'|]; simpl in Hs, Ho.
  - destruct (Put_Rep now now' k' v' c L A H) as
      (c1 & a & L1 & A1 & L' & A' & HP & H' & Hpd & Hcase & Hres).
    rewrite HP in Hs. injection Hs as _ <-.
    assert (m c !! k = Some p) as Hp0.
    { destruct Hres as [(_ & _ & _ & Hm)
                       |(_ & _ & old & lru & ent & vi & kv & _ & _ & _ & _ &
                         _ & _ & _ & _ & _ & Hm)]; rewrite Hm in Hp.
      - by rewrite lookup_insert_ne in Hp.
      - apply lookup_delete_Some in Hp as [_ Hp].
        by rewrite lookup_insert_ne in Hp. }
    destruct (Hst p Hp0) as (b & -> & Hv & Hx). exists b. split; [done|].
    assert (b ≠ a) as Hba.
    { intros ->. unfold value_of in Hv.
      by rewrite (put_fresh _ _ _ _ _ _ Hpd) in Hv. }
    destruct (put_other _ _ _ _ _ _ Hpd b Hba) as (_ & -> & ->). done.
  - pose proof (Get_Rep now k' c L A H) as HG.
    destruct (m c !! k') as [q|] eqn:Hk'.
    + destruct HG as (a & ent & -> & Ha & Hent & Hkey & HG).
      destruct (IsExpired now ent).
      * destruct HG as (c1 & HG & H' & Hm & Hd).
        rewrite HG in Hs. injection Hs as _ <-.
        rewrite Hm in Hp. apply lookup_delete_Some in Hp as [_ Hp].
        destruct (Hst p Hp) as (b & -> & Hv & Hx). exists b.
        by rewrite (data_value _ _ Hd), (data_expiry _ _ Hd).
      * destruct HG as (c1 & HG & H' & Hm).
        rewrite HG in Hs. injection Hs as _ <-.
        rewrite (same_m _ _ Hm) in Hp.
        destruct (Hst p Hp) as (b & -> & Hv & Hx). exists b.
        by rewrite (same_value _ _ Hm), (same_expiry _ _ Hm).
    + rewrite HG in Hs. injection Hs as _ <-. by apply Hst.
  - pose proof (Delete_Rep k' c L A H) as HD.
    destruct (m c !! k') as [q|] eqn:Hk'.
    + destruct HD as (a & c1 & -> & Ha & Hka & HD & H' & Hm & Hd).
      rewrite HD in Hs. injection Hs as _ <-.
      rewrite Hm in Hp. apply lookup_delete_Some in Hp as [_ Hp].
      destruct (Hst p Hp) as (b & -> & Hv & Hx). exists b.
      by rewrite (data_value _ _ Hd), (data_expiry _ _ Hd).
    + rewrite HD in Hs. injection Hs as _ <-. by apply Hst.
  - injection Hs as _ <-. by apply Hst.
Qed.

Lemma run_stored k v x os : ∀ c L A rs c',
  Good c L A → stored k v x c → Forall (not_Put k) os →
  run os c = Ok (rs, c') →
  ∃ L' A', Good c' L' A' ∧ stored k v x c'.
Proof.
  induction os as [|o os IH]; intros c L A rs c' G Hst Hos Hr.
  - injection Hr as _ <-. by exists L, A.
  - apply Forall_cons in Hos as [Ho Hos]. simpl in Hr.
    destruct (step_Good o c L A G) as (r & c1 & L1 & A1 & Hs & G1 & _).
    rewrite Hs in Hr. cbn [res_bind] in Hr. simpl in Hr.
    apply bind_Ok in Hr as ([rs1 c2] & Hr & [= _ <-]).
    apply (IH c1 L1 A1 rs1 c2 G1); [|done|done].
    by apply (step_stored k v x o r c c1 L A (good_rep _ _ _ G)).
Qed.

(** X6 (a hit is the last [Put]).  Let [Put] store [v] under [k] on a
    reachable cache, and let any calls follow that are not a [Put] of [k].
    If a [Get] of [k] then reports [ok = true], the value it returns is [v];
    and on a cache with a ttl, the clock of that [Put] being past the zero
    time, the clock of the [Get] is not past the clock of the [Put] plus the
    ttl: no read in between has extended the life of the entry. *)
Theorem X6_hit_is_last_Put now now' k v c c1 os rs c2 now2 v' c3 :
  reachable c → Put now now' k v c = Ok c1 →
  Forall (not_Put k) os → run os c1 = Ok (rs, c2) →
  Get now2 k c2 = Ok (v', true, c3) →
  v' = v ∧ (0 < ttl c → 0 <= now → now2 <= now + ttl c).
Proof.
  intros (L & A & G)%reachable_Good HP Hos Hr HG.
  pose proof (good_rep _ _ _ G) as H.
  destruct (Put_lookup now now' k v c L A H) as
    (c1' & a & X & Y & HP' & H1 & Hpd & Hk & _).
  assert (c1' = c1) as -> by congruence.
  destruct (Put_Good now now' k v c L A G) as (c1' & L1 & A1 & HP'' & G1 & _).
  assert (c1' = c1) as -> by congruence.
  assert (stored k v (new_expiry now c) c1) as Hst.
  { intros p Hp. exists a. split; [congruence|]. split; apply Hpd. }
  destruct (run_stored k v _ os c1 L1 A1 rs c2 G1 Hst Hos Hr) as
    (L2 & A2 & G2 & Hst2).
  pose proof (Get_Rep now2 k c2 L2 A2 (good_rep _ _ _ G2)) as HG2.
  destruct (m c2 !! k) as [p|] eqn:Hk2; [|congruence].
  destruct HG2 as (b & ent & -> & Hb & Hent & Hkey & HG2).
  destruct (Hst2 _ Hk2) as (b' & [= <-] & Hv & Hx).
  unfold value_of in Hv. unfold expiry_of in Hx. rewrite Hent in Hv, Hx.
  injection Hv as Hv. injection Hx as Hx.
  destruct (IsExpired now2 ent) eqn:Hexp.
  - destruct HG2 as (c' & HG2 & _). congruence.
  - destruct HG2 as (c' & HG2 & _). split; [congruence|].
    intros Httl Hnow. unfold IsExpired, IsZero, After in Hexp.
    rewrite Hx in Hexp. unfold new_expiry in Hexp.
    destruct (Z.ltb_spec 0 (ttl c)); [|lia].
    destruct (Z.eqb_spec (now + ttl c) 0); [lia|].
    by apply Z.ltb_ge in Hexp.
Qed.

Lemma X6_hit_is_last_Put_witness :
  let c := demo 3 5 [OpPut 1 1 "a" "0"] in
  let c1 := demo 3 5 [OpPut 1 1 "a" "0"; OpPut 2 2 "a" "1"] in
  let os := [OpPut 3 3 "b" "2"; OpGet 4 "a"; OpDelete "b"; OpLen] in
  let c2 := demo 3 5 ([OpPut 1 1 "a" "0"; OpPut 2 2 "a" "1"] ++ os) in
  let c3 := demo 3 5 ([OpPut 1 1 "a" "0"; OpPut 2 2 "a" "1"] ++ os ++
                      [OpGet 6 "a"]) in
  reachable c ∧ Put 2 2 "a" "1" c = Ok c1 ∧
  Forall (not_Put "a") os ∧
  run os c1 = Ok ([OutPut; OutGet "1" true; OutDelete true; OutLen 1], c2) ∧
  Get 6 "a" c2 = Ok ("1"%string, true, c3) ∧
  ("1"%string = "1"%string ∧ (0 < ttl c → 0 <= 2 → 6 <= 2 + ttl c)).
Proof.
  intros c c1 os c2 c3.
  assert (reachable c) as Hr.
  { apply (reachable_after 3 5 [OpPut 1 1 "a" "0"]). vm_compute. reflexivity. }
  assert (Put 2 2 "a" "1" c = Ok c1) as HP by (vm_compute; reflexivity).
  assert (Forall (not_Put "a") os) as Hos.
  { repeat constructor. simpl. discriminate. }
  assert (run os c1
          = Ok ([OutPut; OutGet "1" true; OutDelete true; OutLen 1], c2)) as Hrun
    by (vm_compute; reflexivity).
  assert (Get 6 "a" c2 = Ok ("1"%string, true, c3)) as HG
    by (vm_compute; reflexivity).
  split; [exact Hr|]. split; [exact HP|]. split; [exact Hos|].
  split; [exact Hrun|]. split; [exact HG|].
  exact (X6_hit_is_last_Put 2 2 "a" "1" c c1 os _ c2 6 "1" c3 Hr HP Hos Hrun HG).
Defined.

(** ** The order of the age list *)

Lemma lexp_ext c c' A :
  (∀ b, b ∈ A → expiry_of c' b = expiry_of c b) → lexp c' A = lexp c A.
Proof.
  intros Hx. unfold lexp. rewrite <- !list_fmap_compose.
  apply list_fmap_ext. intros i b Hb%list_elem_of_lookup_2. simpl.
  by rewrite !expiryAt_expiry_of, Hx.
Qed.

Lemma elem_of_lexp c A x :
  x ∈ lexp c A ↔ ∃ a, a ∈ A ∧ expiryAt c (Node a) = x.
Proof.
  unfold lexp. rewrite list_elem_of_fmap. split.
  - intros (p & -> & (a & -> & Ha)%list_elem_of_fmap). by exists a.
  - intros (a & Ha & <-). exists (Node a). split; [done|].
    apply list_elem_of_fmap. by exists a.
Qed.

Lemma sorted_without c a A :
  StronglySorted (λ x y, y <= x) (lexp c A) →
  StronglySorted (λ x y, y <= x) (lexp c (without a A)).
Proof.
  induction A as [|b A IH]; intros Hs; [done|].
  change (lexp c (b :: A)) with (expiryAt c (Node b) :: lexp c A) in Hs.
  apply StronglySorted_cons in Hs as [Hall Hs]. unfold without in *.
  destruct (decide (b = a)) as [->|Hb].
  - rewrite filter_cons_False by tauto. by apply IH.
  - rewrite filter_cons_True by done.
    change (lexp c (b :: filter (λ x, x ≠ a) A))
      with (expiryAt c (Node b) :: lexp c (filter (λ x, x ≠ a) A)).
    apply StronglySorted_cons. split; [|by apply IH].
    apply Forall_forall. intros x (y & Hy & <-)%elem_of_lexp.
    apply list_elem_of_filter in Hy as [_ Hy].
    apply (proj1 (Forall_forall _ _) Hall). apply elem_of_lexp. by exists y.
Qed.

Lemma new_expiry_mono T T' c : T <= T' → new_expiry T c <= new_expiry T' c.
Proof. intros H. unfold new_expiry. destruct (0 <? ttl c); lia. Qed.

Lemma aged_mono T T' c A : aged T c A → T <= T' → aged T' c A.
Proof.
  intros [Hs Hb] HT. split; [done|]. intros a Ha.
  destruct (Hb a Ha) as (x & Hx & Hle & Hpos). exists x. split; [done|].
  split; [|done]. pose proof (new_expiry_mono T T' c HT). lia.
Qed.

Lemma aged_without T c a A : aged T c A → aged T c (without a A).
Proof.
  intros [Hs Hb]. split; [by apply sorted_without|].
  intros b [Hb' _]%elem_of_without. by apply Hb.
Qed.

Lemma aged_same_data T c c' A : aged T c A → same_data c c' → aged T c' A.
Proof.
  intros [Hs Hb] Hd. split.
  - rewrite (lexp_ext c c'); [done|]. intros b _. apply (data_expiry _ _ Hd).
  - intros a Ha. destruct (Hb a Ha) as (x & Hx & Hle & Hpos). exists x.
    rewrite (data_expiry _ _ Hd). unfold new_expiry in *.
    by rewrite (data_ttl _ _ Hd).
Qed.

(** The state in which [Put] calls [trim]. *)
Lemma aged_Put_pre T now k v c L A c2 L2 A2 :
  Rep c L A → aged T c A → 0 <= now → T <= now →
  Put_pre now k v c = Ok c2 → Rep c2 L2 A2 → aged now c2 A2.
Proof.
  intros H Hag H0 HT Hpre H2.
  destruct (Put_pre_Rep now k v c L A H) as
    (c2' & a & L1 & A1 & Hpre' & H2' & Hpd & Hm2 & HaL1 & Hnd1 & Hsub & Hcase).
  assert (c2' = c2) as -> by congruence.
  destruct (Rep_unique _ _ _ _ _ H2 H2') as [-> ->].
  assert (aged now c A1) as [Hs1 Hb1].
  { apply (aged_mono T); [|done]. destruct (m c !! k).
    - destruct Hcase as (b & _ & _ & _ & ->). by apply aged_without.
    - by destruct Hcase as [_ ->]. }
  assert (a ∉ A1) as HaA1.
  { assert (NoDup (a :: A1)) as HndA.
    { rewrite (rep_perm _ _ _ H2). apply H2. }
    by apply NoDup_cons in HndA as [? _]. }
  assert (∀ b, b ∈ A1 → expiry_of c2 b = expiry_of c b) as Hsame.
  { intros b Hb. apply Hpd. by intros ->. }
  assert (ttl c2 = ttl c) as Httl by apply Hpd.
  assert (new_expiry now c2 = new_expiry now c) as Hne.
  { unfold new_expiry. by rewrite Httl. }
  assert (expiryAt c2 (Node a) = new_expiry now c) as Hxa.
  { by rewrite expiryAt_expiry_of, (put_expiry _ _ _ _ _ _ Hpd). }
  split.
  - change (lexp c2 (a :: A1)) with (expiryAt c2 (Node a) :: lexp c2 A1).
    rewrite (lexp_ext c c2 A1 Hsame), Hxa.
    apply StronglySorted_cons. split; [|done].
    apply Forall_forall. intros x (b & Hb & <-)%elem_of_lexp.
    destruct (Hb1 b Hb) as (x & Hx & Hle & _).
    by rewrite expiryAt_expiry_of, Hx.
  - intros b [->|Hb]%elem_of_cons.
    + exists (new_expiry now c). split; [apply Hpd|]. rewrite Hne, Httl.
      split; [done|]. unfold new_expiry.
      destruct (Z.ltb_spec 0 (ttl c)); [lia|done].
    + destruct (Hb1 b Hb) as (x & Hx & Hle & Hpos). exists x.
      rewrite (Hsame b Hb), Hne, Httl. done.
Qed.

Lemma aged_trim T now' c2 L2 A2 c' L' A' :
  Rep c2 L2 A2 → aged T c2 A2 → trim now' c2 = Ok c' → Rep c' L' A' →
  aged T c' A'.
Proof.
  intros H2 Hag Htrim H'.
  destruct (trim_Rep now' c2 _ _ H2) as
    [[_ Htrim']
    |(_ & _ & old & lru & ent & vi & kv & c'' & _ & _ & _ & _ & _ & _ &
      Htrim' & H'' & _ & Hd)].
  - assert (c' = c2) as -> by congruence.
    by destruct (Rep_unique _ _ _ _ _ H' H2) as [-> ->].
  - assert (c'' = c') as -> by congruence.
    destruct (Rep_unique _ _ _ _ _ H' H'') as [-> ->].
    apply (aged_same_data T c2); [|done]. by apply aged_without.
Qed.

Lemma step_aged T o r c c' L A L' A' :
  Rep c L A → aged T c A → 0 <= T →
  match o with OpPut now _ _ _ => T <= now | _ => True end →
  step o c = Ok (r, c') → Rep c' L' A' →
  aged (match o with OpPut now _ _ _ => now | _ => T end) c' A'.
Proof.
  intros H Hag H0 Ho Hs H'.
  destruct o as [now now' k v|now k|k|]; simpl in Hs.
  - rewrite Put_pre_trim in Hs.
    apply bind_Ok in Hs as (c1 & Hs & [= _ <-]).
    apply bind_Ok in Hs as (c2 & Hpre & Htrim).
    destruct (Put_pre_Rep now k v c L A H) as
      (c2' & a & L1 & A1 & Hpre' & H2 & _).
    assert (c2' = c2) as -> by congruence.
    eapply aged_trim; [exact H2| |exact Htrim|exact H'].
    simpl in Ho.
    apply (aged_Put_pre T now k v c L A c2 (a :: L1) (a :: A1) H Hag);
      [lia|done|done|done].
  - pose proof (Get_Rep now k c L A H) as HG.
    destruct (m c !! k) as [p|].
    + destruct HG as (a & ent & -> & Ha & Hent & Hkey & HG).
      destruct (IsExpired now ent).
      * destruct HG as (c1 & HG & H1 & Hm & Hd).
        rewrite HG in Hs. injection Hs as _ <-.
        destruct (Rep_unique _ _ _ _ _ H' H1) as [-> ->].
        apply (aged_same_data T c); [|done]. by apply aged_without.
      * destruct HG as (c1 & HG & H1 & Hm).
        rewrite HG in Hs. injection Hs as _ <-.
        destruct (Rep_unique _ _ _ _ _ H' H1) as [-> ->].
        apply (aged_same_data T c); [done|by apply same_meta_data].
    + rewrite HG in Hs. injection Hs as _ <-.
      by destruct (Rep_unique _ _ _ _ _ H' H) as [-> ->].
  - pose proof (Delete_Rep k c L A H) as HD.
    destruct (m c !! k) as [p|].
    + destruct HD as (a & c1 & -> & Ha & Hka & HD & H1 & Hm & Hd).
      rewrite HD in Hs. injection Hs as _ <-.
      destruct (Rep_unique _ _ _ _ _ H' H1) as [-> ->].
      apply (aged_same_data T c); [|done]. by apply aged_without.
    + rewrite HD in Hs. injection Hs as _ <-.
      by destruct (Rep_unique _ _ _ _ _ H' H) as [-> ->].
  - injection Hs as _ <-.
    by destruct (Rep_unique _ _ _ _ _ H' H) as [-> ->].
Qed.

Lemma run_aged os : ∀ T c L A rs c',
  Good c L A → aged T c A → 0 <= T → run os c = Ok (rs, c') →
  ∀ os2, puts_ordered T (os ++ os2) →
  ∃ T' L' A', Good c' L' A' ∧ aged T' c' A' ∧ 0 <= T' ∧
              puts_ordered T' os2.
Proof.
  induction os as [|o os IH]; intros T c L A rs c' G Hag H0 Hr os2 Hord.
  - injection Hr as _ <-. by exists T, L, A.
  - simpl in Hr.
    destruct (step_Good o c L A G) as (r & c1 & L1 & A1 & Hs & G1 & _).
    rewrite Hs in Hr. cbn [res_bind] in Hr. simpl in Hr.
    apply bind_Ok in Hr as ([rs1 c2] & Hr & [= _ <-]).
    pose proof (step_aged T o r c c1 L A L1 A1 (good_rep _ _ _ G) Hag H0) as Hst.
    destruct o as [now now' k v|now k|k|]; simpl in Hord.
    + destruct Hord as [HT Hord].
      apply (IH now c1 L1 A1 rs1 c2 G1); [|lia|done|done].
      apply Hst; [done|done|apply G1].
    + apply (IH T c1 L1 A1 rs1 c2 G1); [|done|done|done].
      apply Hst; [done|done|apply G1].
    + apply (IH T c1 L1 A1 rs1 c2 G1); [|done|done|done].
      apply Hst; [done|done|apply G1].
    + apply (IH T c1 L1 A1 rs1 c2 G1); [|done|done|done].
      apply Hst; [done|done|apply G1].
Qed.

Lemma aged_New ms t c0 : New ms t = Ok c0 → aged 0 c0 [].
Proof.
  intros _. split; [constructor|]. by intros a Ha%elem_of_nil.
Qed.

(** X7 (the age list is in expiry order).  When the clock that the [Put]s
    read starts at or after the zero time and never goes back, then after
    any history on a new cache the expiries of the entries of the age list,
    from the head to the tail, never increase: the entry before the tail
    sentinel, which is the one that [trim] tests, expires first. *)
Theorem X7_age_list_ordered ms t c0 os rs c :
  New ms t = Ok c0 → puts_ordered 0 os → run os c0 = Ok (rs, c) →
  ∃ l, expList c = Some l ∧
       StronglySorted (λ x y, y <= x) (expiryAt c <$> l).
Proof.
  intros HN Hord Hr. destruct (New_Good _ _ _ HN) as (G0 & _).
  destruct (run_aged os 0 c0 [] [] rs c G0 (aged_New _ _ _ HN) ltac:(lia) Hr [])
    as (T' & L & A & G & [Hs _] & _); [by rewrite app_nil_r|].
  exists (Node <$> A). split; [apply (expList_Rep c L A), G|done].
Qed.

Lemma X7_age_list_ordered_witness :
  let c0 := mkCache 3 5 (mkEntry "" "" 0 Nil Tail Nil Tail)
              (mkEntry "" "" 0 Head Nil Head Nil) ∅ ∅ in
  let os := [OpPut 1 1 "a" "1"; OpPut 2 2 "b" "2"; OpGet 3 "a";
             OpPut 4 4 "c" "3"; OpPut 6 6 "a" "4"] in
  let c := demo 3 5 os in
  New 3 5 = Ok c0 ∧ puts_ordered 0 os ∧
  run os c0 = Ok ([OutPut; OutPut; OutGet "1" true; OutPut; OutPut], c) ∧
  ∃ l, expList c = Some l ∧
       StronglySorted (λ x y, y <= x) (expiryAt c <$> l).
Proof.
  intros c0 os c.
  assert (New 3 5 = Ok c0) as HN by reflexivity.
  assert (puts_ordered 0 os) as Hord by (simpl; lia).
  assert (run os c0 = Ok ([OutPut; OutPut; OutGet "1" true; OutPut; OutPut], c))
    as Hr by (vm_compute; reflexivity).
  split; [exact HN|]. split; [exact Hord|]. split; [exact Hr|].
  exact (X7_age_list_ordered 3 5 c0 os _ c HN Hord Hr).
Defined.

(** X8 (the test of [trim] is enough).  Under the same clock, let [c2] be
    the state in which a [Put] calls [trim].  If the entry before the tail
    sentinel of the age list is not expired at the clock that [trim] reads,
    then no entry of the cache is: when [trim] goes on to evict the least
    recently used entry, there was no expired entry that it could have
    evicted instead. *)
Theorem X8_unexpired_tail ms t c0 os rs c now now' k v c2 :
  New ms t = Ok c0 → puts_ordered 0 (os ++ [OpPut now now' k v]) →
  run os c0 = Ok (rs, c) → Put_pre now k v c = Ok c2 →
  ∃ l old ent,
    expList c2 = Some l ∧ last l = Some old ∧ load old c2 = Ok ent ∧
    (IsExpired now' ent = false →
     ∀ p ent', p ∈ l → load p c2 = Ok ent' → IsExpired now' ent' = false).
Proof.
  intros HN Hord Hr Hpre. destruct (New_Good _ _ _ HN) as (G0 & _).
  destruct (run_aged os 0 c0 [] [] rs c G0 (aged_New _ _ _ HN) ltac:(lia) Hr
              _ Hord) as (T' & L & A & G & Hag & H0 & [HT _]).
  pose proof (good_rep _ _ _ G) as H.
  destruct (Put_pre_Rep now k v c L A H) as
    (c2' & a & L1 & A1 & Hpre' & H2 & _).
  assert (c2' = c2) as -> by congruence.
  pose proof (aged_Put_pre T' now k v c L A c2 _ _ H Hag ltac:(lia) HT Hpre H2)
    as [Hs Hb].
  destruct (a :: A1) as [|o A0 _] using rev_ind.
  { pose proof (Rep_same_length _ _ _ H2) as Hl.
    pose proof (rep_perm _ _ _ H2) as Hp. apply Permutation_nil_l in Hp.
    discriminate. }
  destruct (Hb o ltac:(set_solver)) as (xo & Hxo & _ & Hpo).
  unfold expiry_of in Hxo.
  destruct (heap c2 !! o) as [ent|] eqn:Hent; [|done]. injection Hxo as Hxo.
  exists (Node <$> A0 ++ [o]), (Node o), ent.
  split; [by apply (expList_Rep c2 (a :: L1))|].
  split; [by rewrite fmap_last, last_snoc|].
  split; [simpl; by rewrite Hent|].
  intros Hlive p ent' Hp Hload.
  apply list_elem_of_fmap in Hp as (b & -> & Hb').
  destruct (Hb b Hb') as (x & Hx & _ & Hpx).
  simpl in Hload. unfold expiry_of in Hx.
  destruct (heap c2 !! b) as [e|] eqn:He; [|done].
  injection Hload as ->. injection Hx as Hx.
  unfold IsExpired, IsZero, After in *. rewrite Hx. rewrite Hxo in Hlive.
  destruct (0 <? ttl c2).
  - destruct (Z.eqb_spec xo 0); [lia|]. apply Z.ltb_ge in Hlive.
    destruct (Z.eqb_spec x 0); [done|]. apply Z.ltb_ge.
    assert (xo <= x); [|lia].
    apply elem_of_app in Hb' as [Hb'|Hb'].
    + unfold lexp in Hs. rewrite !fmap_app in Hs.
      apply (StronglySorted_app_1_elem_of _ _ _ x xo) in Hs; [done| |].
      * apply (elem_of_lexp c2 A0). exists b. split; [done|].
        by rewrite expiryAt_expiry_of; unfold expiry_of; rewrite He.
      * apply list_elem_of_singleton. simpl. unfold expiryAt. simpl.
        by rewrite Hent.
    + apply list_elem_of_singleton in Hb' as ->. rewrite Hent in He.
      injection He as <-. lia.
  - by rewrite Hpx.
Qed.

Lemma X8_unexpired_tail_witness :
  let c0 := mkCache 2 5 (mkEntry "" "" 0 Nil Tail Nil Tail)
              (mkEntry "" "" 0 Head Nil Head Nil) ∅ ∅ in
  let os := [OpPut 1 1 "a" "1"; OpPut 2 2 "b" "2"; OpGet 3 "a"] in
  let c := demo 2 5 os in
  let c2 := match Put_pre 4 "c" "3" c with Ok x => x | Panic _ => c end in
  New 2 5 = Ok c0 ∧ puts_ordered 0 (os ++ [OpPut 4 5 "c" "3"]) ∧
  run os c0 = Ok ([OutPut; OutPut; OutGet "1" true], c) ∧
  Put_pre 4 "c" "3" c = Ok c2 ∧
  ∃ l old ent,
    expList c2 = Some l ∧ last l = Some old ∧ load old c2 = Ok ent ∧
    (IsExpired 5 ent = false →
     ∀ p ent', p ∈ l → load p c2 = Ok ent' → IsExpired 5 ent' = false).
Proof.
  intros c0 os c c2.
  assert (New 2 5 = Ok c0) as HN by reflexivity.
  assert (puts_ordered 0 (os ++ [OpPut 4 5 "c" "3"])) as Hord by (simpl; lia).
  assert (run os c0 = Ok ([OutPut; OutPut; OutGet "1" true], c)) as Hr
    by (vm_compute; reflexivity).
  assert (Put_pre 4 "c" "3" c = Ok c2) as Hpre by (vm_compute; reflexivity).
  split; [exact HN|]. split; [exact Hord|]. split; [exact Hr|].
  split; [exact Hpre|].
  exact (X8_unexpired_tail 2 5 c0 os _ c 4 5 "c" "3" c2 HN Hord Hr Hpre).
Defined.
